(** * mdpdf-filter: the pandoc tree walker, the node constructors and the
      mdpdf passes, over a model of Python's object store

    The Python sources ([pandocfilters.py], [mdpdf.py]) work on the values
    that [json.loads] produces: scalars, and [list] and [dict] objects that
    are shared by reference and updated in place ([tree[key] = ...],
    [per_block['c'].append(...)], [del tree[index]]).  The embedding keeps
    that: lists and dicts live in a heap and values refer to them by
    location. *)

From Stdlib Require Import ZArith String Ascii List Lia DecimalString.
From stdpp Require Import base list strings.

(* ===================================================================== *)
(** * Part I. Definitions                                                 *)
(* ===================================================================== *)

(** ** Python values and the object store *)

Abbreviation loc := nat (only parsing).

(** What a variable or a container slot holds.  [float] is left out: every
    function below treats all scalars alike. *)
Inductive pyval : Type :=
| VNone
| VBool (b : bool)
| VInt (z : Z)
| VStr (s : string)
| VRef (l : loc).

(** A [dict] keeps insertion order (it fixes the order of [for key in tree]);
    the keys that occur in these programs are strings. *)
Abbreviation pydict := (list (string * pyval)) (only parsing).

Inductive pyobj : Type :=
| OList (items : list pyval)
| ODict (kvs : pydict).

(** Allocation appends, so a location is an index and [length h] is fresh. *)
Abbreviation heap := (list pyobj) (only parsing).

Inductive exn : Type :=
| JSONDecodeError
| AttributeError (what : string)
| NameError (name : string)
| ValueError (msg : string)
| KeyError (key : string)
| IndexError
| TypeError
| ActionFailure (msg : string).

(** [k in d], [d[k]] *)
Fixpoint dict_lookup (k : string) (kvs : pydict) : option pyval :=
  match kvs with
  | [] => None
  | (k', v) :: rest => if String.eqb k k' then Some v else dict_lookup k rest
  end.

(** [d[k] = v]: an existing key keeps its position, a new one goes last. *)
Fixpoint dict_store (k : string) (v : pyval) (kvs : pydict) : pydict :=
  match kvs with
  | [] => [(k, v)]
  | (k', v') :: rest =>
      if String.eqb k k' then (k', v) :: rest else (k', v') :: dict_store k v rest
  end.

Definition as_list (h : heap) (v : pyval) : option (list pyval) :=
  match v with
  | VRef l => match h !! l with Some (OList items) => Some items | _ => None end
  | _ => None
  end.

Definition as_dict (h : heap) (v : pyval) : option pydict :=
  match v with
  | VRef l => match h !! l with Some (ODict kvs) => Some kvs | _ => None end
  | _ => None
  end.

(** ** Rewrite actions and the record of their invocations *)

(** An action is a function of [(key, value, format, meta)].  It may read the
    store and build new objects ([fresh], placed at the end of the store, so
    it can refer to them as [length h], [length h + 1], ...); it may raise. *)
Inductive action_result : Type :=
| Returns (res : pyval) (fresh : list pyobj)
| Fails (msg : string).

Definition action : Type := pyval -> pyval -> string -> pyval -> heap -> action_result.

Record call : Type := mkCall {
  c_key : pyval;
  c_value : pyval;
  c_format : string;
  c_meta : pyval;
  c_heap : heap   (* the store as the action saw it *)
}.

(** ** State and exceptions *)

Record state : Type := mkState {
  st_heap : heap;
  st_calls : list call   (* oldest first *)
}.

Inductive res (A : Type) : Type :=
| Ok (a : A)
| Raise (e : exn)
| Diverge.   (* the recursion budget of the model ran out *)
Arguments Ok {A} a.
Arguments Raise {A} e.
Arguments Diverge {A}.

(** Effects persist when an exception is raised, as in Python. *)
Definition M (A : Type) : Type := state -> res A * state.

Global Instance M_ret : MRet M := fun A a st => (Ok a, st).

Global Instance M_bind : MBind M := fun A B f m st =>
  match m st with
  | (Ok a, st') => f a st'
  | (Raise e, st') => (Raise e, st')
  | (Diverge, st') => (Diverge, st')
  end.

Definition raise {A} (e : exn) : M A := fun st => (Raise e, st).
Definition diverge {A} : M A := fun st => (Diverge, st).
Definition get_heap : M heap := fun st => (Ok (st_heap st), st).

Definition alloc (o : pyobj) : M pyval := fun st =>
  (Ok (VRef (length (st_heap st))), mkState (st_heap st ++ [o]) (st_calls st)).

(** [d[k]] for a dict object [d] *)
Definition dict_getitem (d : pyval) (k : string) : M pyval :=
  h ← get_heap;
  match as_dict h d with
  | Some kvs => match dict_lookup k kvs with Some v => mret v | None => raise (KeyError k) end
  | None => raise TypeError
  end.

(** [d[k] = v] *)
Definition dict_setitem (d : pyval) (k : string) (v : pyval) : M unit := fun st =>
  match d with
  | VRef l =>
      match st_heap st !! l with
      | Some (ODict kvs) =>
          (Ok tt, mkState (<[l := ODict (dict_store k v kvs)]> (st_heap st)) (st_calls st))
      | _ => (Raise TypeError, st)
      end
  | _ => (Raise TypeError, st)
  end.

Definition call_action (act : action) (key value : pyval) (format : string)
    (meta : pyval) : M pyval := fun st =>
  let st1 := mkState (st_heap st)
                     (st_calls st ++ [mkCall key value format meta (st_heap st)]) in
  match act key value format meta (st_heap st) with
  | Returns r fresh => (Ok r, mkState (st_heap st ++ fresh) (st_calls st1))
  | Fails msg => (Raise (ActionFailure msg), st1)
  end.

(** ** pandocfilters.py *)

(** *** [walk] *)

Section walk_body.
Variable rec : pyval -> M pyval.   (* [walk(_, action, format, meta)] *)
Variable act : action.
Variable format : string.
Variable meta : pyval.

(** [for item in res: array.append(walk(item, ...))] *)
Fixpoint walk_each (items : list pyval) : M (list pyval) :=
  match items with
  | [] => mret []
  | z :: rest => y ← rec z; ys ← walk_each rest; mret (y :: ys)
  end.

(** One turn of [for item in tree]: what it appends to [array]. *)
Definition walk_item (item : pyval) : M (list pyval) :=
  h ← get_heap;
  match as_dict h item with
  | Some kvs =>
      match dict_lookup "t" kvs with
      | Some t =>
          r ← call_action act t (default VNone (dict_lookup "c" kvs)) format meta;
          match r with
          | VNone => y ← rec item; mret [y]
          | _ =>
              h' ← get_heap;
              match as_list h' r with
              | Some zs => walk_each zs
              | None => y ← rec r; mret [y]
              end
          end
      | None => y ← rec item; mret [y]
      end
  | None => y ← rec item; mret [y]
  end.

Fixpoint walk_items (items : list pyval) : M (list pyval) :=
  match items with
  | [] => mret []
  | item :: rest => ys ← walk_item item; out ← walk_items rest; mret (ys ++ out)
  end.

(** [for key in tree: tree[key] = walk(tree[key], ...)]: the keys are those
    at loop entry (only values are stored, so the key set cannot change);
    each value is read when its turn comes. *)
Fixpoint walk_keys (tree : pyval) (keys : list string) : M unit :=
  match keys with
  | [] => mret tt
  | k :: rest =>
      v ← dict_getitem tree k;
      v' ← rec v;
      dict_setitem tree k v';;
      walk_keys tree rest
  end.
End walk_body.

(** [walk] itself never stores into a list object and an action only adds
    objects, so the items of a list are those read at loop entry; [array] is
    local until it is returned and is allocated here when complete.  The
    recursion may not end (an action can keep returning nodes that match),
    so it is bounded by [fuel]. *)
Fixpoint walk (fuel : nat) (act : action) (format : string) (meta : pyval)
    (tree : pyval) : M pyval :=
  match fuel with
  | O => diverge
  | S n =>
      h ← get_heap;
      match tree with
      | VRef l =>
          match h !! l with
          | Some (OList items) =>
              array ← walk_items (walk n act format meta) act format meta items;
              alloc (OList array)
          | Some (ODict kvs) =>
              walk_keys (walk n act format meta) tree (kvs.*1);;
              mret tree
          | None => mret tree
          end
      | _ => mret tree
      end
  end.

(** *** [elt] and the constructors *)

Definition dec (n : nat) : string := NilZero.string_of_uint (Nat.to_uint n).

Definition elt (eltType : string) (num_args : nat) (args : list pyval) : M pyval :=
  let len_args := length args in
  if negb (len_args =? num_args)%nat then
    raise (ValueError (eltType +:+ " except " +:+ dec num_args
                         +:+ " arguments, but given " +:+ dec len_args))
  else
    content ← (if (num_args =? 0)%nat then alloc (OList [])
               else match args with
                    | [a] => mret a
                    | _ => alloc (OList args)
                    end);
    alloc (ODict [("t", VStr eltType); ("c", content)]).

Definition Plain := elt "Plain" 1.
Definition Para := elt "Para" 1.
Definition CodeBlock := elt "CodeBlock" 2.
Definition RawBlock := elt "RawBlock" 2.
Definition BlockQuote := elt "BlockQuote" 1.
Definition OrderedList := elt "OrderedList" 2.
Definition MetaInlines := elt "MetaInlines" 1.
Definition MetaBlocks := elt "MetaBlocks" 1.
Definition BulletList := elt "BulletList" 1.
Definition DefinitionList := elt "DefinitionList" 1.
Definition Header := elt "Header" 3.
Definition HorizontalRule := elt "HorizontalRule" 0.
Definition Table := elt "Table" 5.
Definition Div := elt "Div" 2.
Definition Null := elt "Null" 0.
Definition Str := elt "Str" 1.
Definition Emph := elt "Emph" 1.
Definition Strong := elt "Strong" 1.
Definition Strikeout := elt "Strikeout" 1.
Definition Superscript := elt "Superscript" 1.
Definition Subscript := elt "Subscript" 1.
Definition SmallCaps := elt "SmallCaps" 1.
Definition Quoted := elt "Quoted" 2.
Definition Cite := elt "Cite" 2.
Definition Code := elt "Code" 2.
Definition Space := elt "Space" 0.
Definition LineBreak := elt "LineBreak" 0.
Definition Math := elt "Math" 2.
Definition MetaString := elt "MetaString" 1.
Definition RawInline := elt "RawInline" 2.
Definition Link := elt "Link" 3.
Definition Image := elt "Image" 3.
Definition Note := elt "Note" 1.
Definition SoftBreak := elt "SoftBreak" 0.
Definition Span := elt "Span" 2.

(** *** [applyJSONFilters] *)

#[local] Set Warnings "-register-all".

(** What [json.loads] yields, as a term.  ([float] left out, see [pyval].) *)
Inductive json : Type :=
| JNull
| JBool (b : bool)
| JInt (z : Z)
| JStr (s : string)
| JList (items : list json)
| JDict (fields : list (string * json)).

(** Building the objects of a parsed document: children first, every
    container a new object; a repeated key keeps its last value. *)
Fixpoint load (t : json) : M pyval :=
  match t with
  | JNull => mret VNone
  | JBool b => mret (VBool b)
  | JInt z => mret (VInt z)
  | JStr s => mret (VStr s)
  | JList items =>
      vs ← (fix go (ts : list json) : M (list pyval) :=
              match ts with
              | [] => mret []
              | t' :: ts' => v ← load t'; vs ← go ts'; mret (v :: vs)
              end) items;
      alloc (OList vs)
  | JDict fields =>
      kvs ← (fix go (fs : list (string * json)) (acc : pydict) : M pydict :=
               match fs with
               | [] => mret acc
               | f :: fs' => v ← load f.2; go fs' (dict_store f.1 v acc)
               end) fields [];
      alloc (ODict kvs)
  end.

Section applyJSONFilters.
(** The parser of Python's [json] module; [None] when it raises. *)
Variable json_loads : string -> option json.

(** [for action in actions: doc = walk(doc, action, format, meta)] *)
Fixpoint run_actions (fuel : nat) (actions : list action) (format : string)
    (meta : pyval) (doc : pyval) : M pyval :=
  match actions with
  | [] => mret doc
  | act :: rest =>
      doc' ← walk fuel act format meta doc;
      run_actions fuel rest format meta doc'
  end.

(** [doc.get] exists only on a dict; its default [{}] is built before the
    call.  The last line evaluates the name [altered], which nothing ever
    binds, before [json.dumps] could be entered. *)
Definition applyJSONFilters (fuel : nat) (actions : list action) (source : string)
    (format : string) : M string :=
  doc ← match json_loads source with
        | Some t => load t
        | None => raise JSONDecodeError
        end;
  h ← get_heap;
  meta ← match as_dict h doc with
         | Some kvs => d ← alloc (ODict []); mret (default d (dict_lookup "meta" kvs))
         | None => raise (AttributeError "get")
         end;
  _ ← run_actions fuel actions format meta doc;
  raise (NameError "altered").
End applyJSONFilters.

(** ** mdpdf.py *)

Definition nl : string := String (ascii_of_nat 10) EmptyString.

(** Truth value of an object, as [if x] and [x and ...] take it. *)
Definition truthy (h : heap) (v : pyval) : bool :=
  match v with
  | VNone => false
  | VBool b => b
  | VInt z => negb (z =? 0)%Z
  | VStr s => negb (String.eqb s EmptyString)
  | VRef l =>
      match h !! l with
      | Some (OList []) | Some (ODict []) => false
      | _ => true
      end
  end.

(** [x == 'lit'] for a string literal *)
Definition is_str (lit : string) (v : pyval) : bool :=
  match v with VStr s => String.eqb s lit | _ => false end.

(** [x[i]] for a small literal index; a character of a [str] is taken as
    one byte. *)
Definition getitem_int (x : pyval) (i : nat) : M pyval :=
  h ← get_heap;
  match x with
  | VStr s =>
      match String.get i s with
      | Some c => mret (VStr (String c EmptyString))
      | None => raise IndexError
      end
  | VRef l =>
      match h !! l with
      | Some (OList items) =>
          match items !! i with Some v => mret v | None => raise IndexError end
      | Some (ODict _) => raise (KeyError (dec i))
      | None => raise TypeError
      end
  | _ => raise TypeError
  end.

(** [x.append(v)] *)
Definition list_append (x v : pyval) : M unit := fun st =>
  match x with
  | VRef l =>
      match st_heap st !! l with
      | Some (OList items) =>
          (Ok tt, mkState (<[l := OList (items ++ [v])]> (st_heap st)) (st_calls st))
      | _ => (Raise (AttributeError "append"), st)
      end
  | _ => (Raise (AttributeError "append"), st)
  end.

(** [del x[i]] for a list [x] *)
Definition list_delitem (x : pyval) (i : nat) : M unit := fun st =>
  match x with
  | VRef l =>
      match st_heap st !! l with
      | Some (OList items) =>
          if (i <? length items)%nat
          then (Ok tt, mkState (<[l := OList (delete i items)]> (st_heap st)) (st_calls st))
          else (Raise IndexError, st)
      | _ => (Raise TypeError, st)
      end
  | _ => (Raise TypeError, st)
  end.

Section mdpdf.
(** [str()] of a list or dict (Python's [repr] of a container), used only
    when a code block's language or text is not a string. *)
Variable str_of_object : heap -> pyval -> string.

Definition py_str (h : heap) (v : pyval) : string :=
  match v with
  | VNone => "None"
  | VBool true => "True"
  | VBool false => "False"
  | VInt z => NilZero.string_of_int (Z.to_int z)
  | VStr s => s
  | VRef _ => str_of_object h v
  end.

(** The body of [for index, block in enumerate(tree)] with the list read at
    every turn, since the body deletes from it.  [index] counts the turns;
    the list never grows over a turn, so [turns], the length at loop entry,
    bounds them.  The diagnostic [print] to stderr is not part of the state. *)
Fixpoint merge_loop (turns : nat) (tree : pyval) (index : nat) (per_block : pyval)
    : M unit :=
  match turns with
  | O => mret tt
  | S turns' =>
      h ← get_heap;
      match default [] (as_list h tree) !! index with
      | None => mret tt
      | Some block =>
          t ← dict_getitem block "t";
          cond ← (if is_str "CodeBlock" t && truthy h per_block
                  then pt ← dict_getitem per_block "t"; mret (is_str "Para" pt)
                  else mret false);
          block' ← (if cond : bool then
                      c ← dict_getitem block "c";
                      c0 ← getitem_int c 0;
                      classes ← getitem_int c0 1;
                      block_c_begin ←
                        (if truthy h classes
                         then c ← dict_getitem block "c";
                              c0 ← getitem_int c 0;
                              classes ← getitem_int c0 1;
                              lang ← getitem_int classes 0;
                              mret ("\begin{lstlisting}" +:+ "[language="
                                      +:+ py_str h lang +:+ "]" +:+ nl)
                         else mret "\begin{lstlisting}");
                      c ← dict_getitem block "c";
                      code ← getitem_int c 1;
                      raw ← RawInline [VStr "latex";
                                       VStr (nl +:+ block_c_begin +:+ nl
                                               +:+ py_str h code +:+ nl
                                               +:+ "\end{lstlisting}")];
                      pc ← dict_getitem per_block "c";
                      list_append pc raw;;
                      list_delitem tree index;;
                      mret raw
                    else mret block);
          merge_loop turns' tree (S index) block'
      end
  end.

(** [[get_code_in_para(ele) for ele in tree]], the list read at every turn *)
Fixpoint comprehension (rec : pyval -> M pyval) (turns : nat) (tree : pyval)
    (index : nat) : M (list pyval) :=
  match turns with
  | O => diverge
  | S turns' =>
      h ← get_heap;
      match default [] (as_list h tree) !! index with
      | None => mret []
      | Some ele => y ← rec ele; ys ← comprehension rec turns' tree (S index); mret (y :: ys)
      end
  end.

(** [{key: get_code_in_para(tree[key]) for key in tree}]: the new dict
    [acc] grows key by key, in the order of [tree].  No dict object is ever
    stored into by this function, so the entries are those at entry. *)
Fixpoint dict_comprehension (rec : pyval -> M pyval) (kvs : pydict) (acc : pydict)
    : M pydict :=
  match kvs with
  | [] => mret acc
  | (k, v) :: rest => v' ← rec v; dict_comprehension rec rest (dict_store k v' acc)
  end.

Definition is_dict (h : heap) (v : pyval) : bool :=
  match as_dict h v with Some _ => true | None => false end.

(** ['t' in element and element['t'] == 'CodeBlock'] *)
Definition is_code_block (h : heap) (element : pyval) : bool :=
  match as_dict h element with
  | Some kvs => match dict_lookup "t" kvs with Some t => is_str "CodeBlock" t | None => false end
  | None => false
  end.

Fixpoint get_code_in_para (fuel : nat) (tree : pyval) : M pyval :=
  match fuel with
  | O => diverge
  | S n =>
      h ← get_heap;
      match tree with
      | VRef l =>
          match h !! l with
          | Some (OList items) =>
              if forallb (is_dict h) items && existsb (is_code_block h) items
              then merge_loop (length items) tree 0 VNone;; mret tree
              else out ← comprehension (get_code_in_para n) (S (length items) + n) tree 0;
                   alloc (OList out)
          | Some (ODict kvs) =>
              kvs' ← dict_comprehension (get_code_in_para n) kvs [];
              alloc (ODict kvs')
          | None => mret tree
          end
      | _ => mret tree
      end
  end.

Definition MetaRawLatex (s : string) : M pyval :=
  r ← RawInline [VStr "tex"; VStr s];
  l ← alloc (OList [r]);
  MetaInlines [l].

Definition header_includes : string :=
  "\usepackage{listing}" +:+ nl +:+
  "\lstset{" +:+ nl +:+
  "    basicstyle=\fontsize{10pt}{13pt}" +:+ "\ttfamily\color{Green4!5!black}," +:+ nl +:+
  "    frame=tRBl," +:+ nl +:+
  "    breakatwhitespace=false," +:+ nl +:+
  "    keywordstyle=\color{Green4!50!black}," +:+ nl +:+
  "    commentstyle=\color{Gray0!50!black}," +:+ nl +:+
  "    stringstyle=\color{Orange4!50!black}," +:+ nl +:+
  "    breaklines=true," +:+ nl +:+
  "    xleftmargin=2.5em," +:+ nl +:+
  "    showstringspaces=false," +:+ nl +:+
  "}" +:+ nl +:+
  "\usepackage{graphicx}" +:+ nl +:+
  "\usepackage{import}".

(** The right-hand side is built first, then stored under ['meta']; the
    diagnostic [print] is not part of the state. *)
Definition add_meta (doc : pyval) : M unit :=
  font ← MetaString [VStr "AR PL KaitiM GB"];
  paper ← MetaString [VStr "a4"];
  geometry ← MetaString [VStr "right=3cm, left=3cm, top=3.5cm, bottom=3.5cm"];
  fontsize ← MetaString [VStr "12pt"];
  header ← MetaRawLatex header_includes;
  m ← alloc (ODict [("CJKmainfont", font); ("papersize", paper);
                    ("geometry", geometry); ("fontsize", fontsize);
                    ("header-includes", header)]);
  dict_setitem doc "meta" m.
End mdpdf.

(** ** Vocabulary of the statements *)

(** The tree an object stands for.  A dict object has each key once. *)
Inductive repr (h : heap) : json -> pyval -> Prop :=
| repr_null : repr h JNull VNone
| repr_bool b : repr h (JBool b) (VBool b)
| repr_int z : repr h (JInt z) (VInt z)
| repr_str s : repr h (JStr s) (VStr s)
| repr_list l vs ts :
    h !! l = Some (OList vs) ->
    Forall2 (repr h) ts vs ->
    repr h (JList ts) (VRef l)
| repr_dict l kvs fs :
    h !! l = Some (ODict kvs) ->
    NoDup (kvs.*1) ->
    Forall2 (fun f kv => f.1 = kv.1 /\ repr h f.2 kv.2) fs kvs ->
    repr h (JDict fs) (VRef l).

Fixpoint depth (t : json) : nat :=
  match t with
  | JList items => S (foldr (fun x m => Nat.max (depth x) m) 0 items)
  | JDict fields => S (foldr (fun f m => Nat.max (depth f.2) m) 0 fields)
  | _ => 0
  end.

Fixpoint field (k : string) (fs : list (string * json)) : option json :=
  match fs with
  | [] => None
  | (k', t) :: rest => if String.eqb k k' then Some t else field k rest
  end.

(** No mapping of the tree repeats a key (a repeated key in a source text
    would be collapsed by the parser). *)
Fixpoint distinct_keys (t : json) : bool :=
  match t with
  | JList items => forallb distinct_keys items
  | JDict fields =>
      bool_decide (NoDup (fields.*1)) && forallb (fun f => distinct_keys f.2) fields
  | _ => true
  end.

(** A Node: a mapping with a tag; its tag and, when present, its content. *)
Definition node_of (t : json) : list (json * option json) :=
  match t with
  | JDict fs => match field "t" fs with Some tag => [(tag, field "c" fs)] | None => [] end
  | _ => []
  end.

(** Every Node of a tree, root included, in document order. *)
Fixpoint nodes (t : json) : list (json * option json) :=
  node_of t ++
  match t with
  | JList items =>
      (fix go (xs : list json) :=
         match xs with [] => [] | x :: xs' => nodes x ++ go xs' end) items
  | JDict fields =>
      (fix go (fs : list (string * json)) :=
         match fs with [] => [] | f :: fs' => nodes f.2 ++ go fs' end) fields
  | _ => []
  end.

(** The Nodes that are elements of a sequence, in document order. *)
Fixpoint offered (t : json) : list (json * option json) :=
  match t with
  | JList items =>
      (fix go (xs : list json) :=
         match xs with [] => [] | x :: xs' => node_of x ++ offered x ++ go xs' end) items
  | JDict fields =>
      (fix go (fs : list (string * json)) :=
         match fs with [] => [] | f :: fs' => offered f.2 ++ go fs' end) fields
  | _ => []
  end.

(** No mapping anywhere in the tree has a tag. *)
Fixpoint no_nodes (t : json) : bool :=
  match t with
  | JList items => forallb no_nodes items
  | JDict fields =>
      match field "t" fields with Some _ => false | None => true end
      && forallb (fun f => no_nodes f.2) fields
  | _ => true
  end.

(** The action answers [None] whenever it is handed the tag of one of the
    Nodes [ns]. *)
Definition quiet_nodes (act : action) (ns : list (json * option json)) : Prop :=
  forall n k, n ∈ ns -> (exists h0, repr h0 n.1 k) ->
    forall v f m h, exists fresh, act k v f m h = Returns VNone fresh.

(** ... of one of the Nodes that are sequence elements of [t]. *)
Definition quiet_on (act : action) (t : json) : Prop := quiet_nodes act (offered t).

(** The action never asks for a change. *)
Definition always_unchanged (act : action) : Prop :=
  forall k v f m h, exists fresh, act k v f m h = Returns VNone fresh.

(** Invocation [c] was [action(tag, content or None, format, meta)] for Node [n]. *)
Definition offers (h : heap) (format : string) (meta : pyval) (c : call)
    (n : json * option json) : Prop :=
  repr h n.1 (c_key c) /\
  match n.2 with Some ct => repr h ct (c_value c) | None => c_value c = VNone end /\
  c_format c = format /\ c_meta c = meta.

(** Every tree that [h] gives a meaning to keeps it in [h']. *)
Definition preserves (h h' : heap) : Prop :=
  forall t v, repr h t v -> repr h' t v.

Definition init : state := mkState [] [].

(** [rec] walks any object standing for [t] to the end, hands back an object
    standing for [t] again, disturbs no meaning, and invokes the action on
    the sequence-element Nodes of [t], each once, in document order. *)
Definition walks_ok (format : string) (meta : pyval) (rec : pyval -> M pyval)
    (t : json) : Prop :=
  forall h calls v, repr h t v ->
    exists v' h' calls',
      rec v (mkState h calls) = (Ok v', mkState h' (calls ++ calls')) /\
      repr h' t v' /\ preserves h h' /\
      Forall2 (offers h' format meta) calls' (offered t).

(** A computation that never raises the parser's error and whose
    invocations of the action, appended to the record, all satisfy [P]. *)
Definition keeps (P : call -> Prop) {A} (m : M A) : Prop :=
  forall st,
    (m st).1 <> Raise JSONDecodeError /\
    exists calls', st_calls (m st).2 = st_calls st ++ calls' /\ Forall P calls'.

Definition returned {A} (r : res A) : bool :=
  match r with Ok _ => true | _ => false end.

(** Taking apart, and building, [repr] facts about an explicit store. *)
Ltac repr_inv :=
  repeat match goal with
  | H : _ /\ _ |- _ => destruct H
  | H : repr _ JNull _ |- _ => inversion H; clear H; subst
  | H : repr _ (JBool _) _ |- _ => inversion H; clear H; subst
  | H : repr _ (JInt _) _ |- _ => inversion H; clear H; subst
  | H : repr _ (JStr _) _ |- _ => inversion H; clear H; subst
  | H : repr _ (JList _) _ |- _ => inversion H; clear H; subst
  | H : repr _ (JDict _) _ |- _ => inversion H; clear H; subst
  | H : Forall2 _ (_ :: _) _ |- _ => inversion H; clear H; subst
  | H : Forall2 _ [] _ |- _ => inversion H; clear H; subst
  | H : _ !! _ = Some _ |- _ => progress (simpl in H)
  | H : Some _ = Some _ |- _ => injection H as H; subst
  | H : _ :: _ = _ :: _ |- _ => injection H as H; subst
  | H : (_, _) = (_, _) |- _ => injection H as H; subst
  | H : ODict _ = ODict _ |- _ => injection H as H; subst
  | H : OList _ = OList _ |- _ => injection H as H; subst
  | H : _ |- _ => progress (simpl in H)
  end; try discriminate.

Ltac repr_solve_with lookup :=
  lazymatch goal with
  | |- repr _ JNull _ => apply repr_null
  | |- repr _ (JBool _) _ => apply repr_bool
  | |- repr _ (JInt _) _ => apply repr_int
  | |- repr _ (JStr _) _ => apply repr_str
  | |- repr _ (JList _) _ => eapply repr_list; [lookup|repr_solve_with lookup]
  | |- repr _ (JDict _) _ =>
      eapply repr_dict;
        [lookup|apply (bool_decide_unpack _); vm_compute; reflexivity
        |repr_solve_with lookup]
  | |- repr ?h ?t ?v =>
      let t' := eval hnf in t in change (repr h t' v); repr_solve_with lookup
  | |- Forall2 _ [] _ => constructor
  | |- Forall2 _ (_ :: _) _ => constructor; repr_solve_with lookup
  | |- _ /\ _ => split; repr_solve_with lookup
  | |- _ = _ => reflexivity
  end.

Ltac repr_solve := repr_solve_with ltac:(reflexivity).

(** ** Sample data *)

Definition node (tag : string) (content : json) : json :=
  JDict [("t", JStr tag); ("c", content)].

(** The default [format] of [applyJSONFilters], the empty string. *)
Definition no_format : string := EmptyString.

(** An action that leaves everything as it is. *)
Definition unchanged : action := fun _ _ _ _ _ => Returns VNone [].

(** An action that turns every [Str] into a new [{'t': 'Space'}]. *)
Definition str_to_space : action := fun key _ _ _ h =>
  if is_str "Str" key then Returns (VRef (length h)) [ODict [("t", VStr "Space")]]
  else Returns VNone [].

(** An action that replaces every [Para] by the two new nodes
    [Emph([Code('x')])] and [Space], and every [Code] by a new
    [Str('code')]. *)
Definition para_to_code : action := fun key _ _ _ h =>
  if is_str "Para" key
  then Returns (VRef (length h + 4))
         [ODict [("t", VStr "Code"); ("c", VStr "x")];
          OList [VRef (length h)];
          ODict [("t", VStr "Emph"); ("c", VRef (length h + 1))];
          ODict [("t", VStr "Space")];
          OList [VRef (length h + 2); VRef (length h + 3)]]
  else if is_str "Code" key
  then Returns (VRef (length h)) [ODict [("t", VStr "Str"); ("c", VStr "code")]]
  else Returns VNone [].

(** The store after loading [[Str("a"), Para([]), Str("b")]]; the list is
    object 4. *)
Definition str_para_str : list pyobj :=
  [ODict [("t", VStr "Str"); ("c", VStr "a")]; OList [];
   ODict [("t", VStr "Para"); ("c", VRef 1)];
   ODict [("t", VStr "Str"); ("c", VStr "b")];
   OList [VRef 0; VRef 2; VRef 3]].

(** A parser that knows one document, the empty mapping. *)
Definition loads_empty : string -> option json := fun s =>
  if String.eqb s "{}" then Some (JDict []) else None.

(** A document whose metadata holds a Node directly as a mapping value. *)
Definition meta_string_doc : json :=
  JDict [("meta", JDict [("title", node "MetaString" (JStr "x"))]);
         ("blocks", JList [])].

Definition titled_meta : json := JDict [("title", JList [node "Str" (JStr "a")])].

Definition titled_doc : json :=
  JDict [("meta", titled_meta); ("blocks", JList [node "Para" (JList [])])].

Definition listing (code : string) : string :=
  nl +:+ "\begin{lstlisting}" +:+ nl +:+ code +:+ nl +:+ "\end{lstlisting}".

(** [[Para([Str('hi')]), CodeBlock([['', [], []], 'print(1)'])]] *)
Definition para_then_code : json :=
  JList [node "Para" (JList [node "Str" (JStr "hi")]);
         node "CodeBlock" (JList [JList [JStr EmptyString; JList []; JList []]; JStr "print(1)"])].

Definition para_with_listing : json :=
  JList [node "Para" (JList [node "Str" (JStr "hi");
                             node "RawInline" (JList [JStr "latex";
                                                      JStr (listing "print(1)")])])].

(** The mapping [add_meta] stores, as a tree. *)
Definition fixed_meta : json :=
  JDict [("CJKmainfont", node "MetaString" (JStr "AR PL KaitiM GB"));
         ("papersize", node "MetaString" (JStr "a4"));
         ("geometry", node "MetaString"
                        (JStr "right=3cm, left=3cm, top=3.5cm, bottom=3.5cm"));
         ("fontsize", node "MetaString" (JStr "12pt"));
         ("header-includes",
          node "MetaInlines"
            (JList [node "RawInline" (JList [JStr "tex"; JStr header_includes])]))].

(** The objects [add_meta] builds, in the order it builds them, when the
    store holds [base] objects. *)
Definition meta_objects (base : nat) : list pyobj :=
  [ ODict [("t", VStr "MetaString"); ("c", VStr "AR PL KaitiM GB")];
    ODict [("t", VStr "MetaString"); ("c", VStr "a4")];
    ODict [("t", VStr "MetaString");
           ("c", VStr "right=3cm, left=3cm, top=3.5cm, bottom=3.5cm")];
    ODict [("t", VStr "MetaString"); ("c", VStr "12pt")];
    OList [VStr "tex"; VStr header_includes];
    ODict [("t", VStr "RawInline"); ("c", VRef (base + 4))];
    OList [VRef (base + 5)];
    ODict [("t", VStr "MetaInlines"); ("c", VRef (base + 6))];
    ODict [("CJKmainfont", VRef (base + 0)); ("papersize", VRef (base + 1));
           ("geometry", VRef (base + 2)); ("fontsize", VRef (base + 3));
           ("header-includes", VRef (base + 7))] ].

(** ** More of pandocfilters.py *)

(** [toJSONFilters]: [stdin] is the text read from standard input, [argv] is
    [sys.argv]; the value is the string handed to [sys.stdout.write]. *)
Definition toJSONFilters (json_loads : string -> option json) (fuel : nat)
    (actions : list action) (stdin : string) (argv : list string) : M string :=
  let format := match argv with _ :: f :: _ => f | _ => EmptyString end in
  applyJSONFilters json_loads fuel actions stdin format.

Definition toJSONFilter (json_loads : string -> option json) (fuel : nat)
    (act : action) (stdin : string) (argv : list string) : M string :=
  toJSONFilters json_loads fuel [act] stdin argv.

(** *** [stringify] *)

(** [val[1]] as [go] evaluates it; [None] when it raises. *)
Definition item_at (h : list pyobj) (x : pyval) (i : nat) : option pyval :=
  match x with
  | VStr s =>
      match String.get i s with
      | Some c => Some (VStr (String c EmptyString))
      | None => None
      end
  | VRef l => match h !! l with Some (OList items) => items !! i | _ => None end
  | _ => None
  end.

(** What one invocation of [go] does to [result]: [None] when it raises,
    [Some None] when it appends nothing, [Some (Some x)] when it appends [x]. *)
Definition go_fragment (h : list pyobj) (key val : pyval) : option (option pyval) :=
  if is_str "Str" key || is_str "MetaString" key then Some (Some val)
  else if is_str "Code" key then Some <$> item_at h val 1
  else if is_str "Math" key then Some <$> item_at h val 1
  else if is_str "LineBreak" key then Some (Some (VStr " "))
  else if is_str "SoftBreak" key then Some (Some (VStr " "))
  else if is_str "Space" key then Some (Some (VStr " "))
  else Some None.

(** The exception [val[1]] raises when it does, by name: a [dict] has no key
    [1], a [list] or a [str] is too short, anything else cannot be indexed. *)
Definition item_error (h : list pyobj) (x : pyval) : string :=
  match x with
  | VStr _ => "IndexError"
  | VRef l =>
      match h !! l with
      | Some (OList _) => "IndexError"
      | Some (ODict _) => "KeyError"
      | None => "TypeError"
      end
  | _ => "TypeError"
  end.

(** [go] as [walk] sees it: it always answers [None], unless [val[1]] raises;
    the failure carries the name of the exception. *)
Definition go : action := fun key val _ _ h =>
  match go_fragment h key val with
  | Some _ => Returns VNone []
  | None => Fails (item_error h val)
  end.

Definition get_calls : M (list call) := fun st => (Ok (st_calls st), st).

(** [result] after the walk: [go] is its only writer, so it holds what the
    invocations appended, in the order they were made. *)
Definition appended (cs : list call) : list pyval :=
  flat_map (fun c => match go_fragment (c_heap c) (c_key c) (c_value c) with
                     | Some (Some x) => [x]
                     | _ => []
                     end) cs.

(** [''.join(result)] *)
Fixpoint join_strs (xs : list pyval) : M string :=
  match xs with
  | [] => mret EmptyString
  | VStr s :: rest => r ← join_strs rest; mret (s +:+ r)
  | _ :: _ => raise TypeError
  end.

Definition stringify (fuel : nat) (tree : pyval) : M string :=
  before ← get_calls;
  meta ← alloc (ODict []);
  _ ← walk fuel go EmptyString meta tree;
  after ← get_calls;
  join_strs (appended (drop (length before) after)).

(** *** [attributes] *)

(** [[[x, attrs[x]] for x in attrs if (x != "classes" and x != "id")]].  No
    object is stored into meanwhile, so the entries are those at entry. *)
Fixpoint keyval_pairs (kvs : list (string * pyval)) : M (list pyval) :=
  match kvs with
  | [] => mret []
  | (k, v) :: rest =>
      if negb (String.eqb k "classes") && negb (String.eqb k "id")
      then p ← alloc (OList [VStr k; v]); ps ← keyval_pairs rest; mret (p :: ps)
      else keyval_pairs rest
  end.

(** The returned tuple is given as a triple. *)
Definition attributes (attrs : pyval) : M (pyval * pyval * pyval) :=
  h ← get_heap;
  attrs ← (if truthy h attrs then mret attrs else alloc (ODict []));
  h ← get_heap;
  match as_dict h attrs with
  | None => raise (AttributeError "get")
  | Some kvs =>
      let ident := default (VStr EmptyString) (dict_lookup "id" kvs) in
      d ← alloc (OList []);
      let classes := default d (dict_lookup "classes" kvs) in
      pairs ← keyval_pairs kvs;
      keyvals ← alloc (OList pairs);
      mret (ident, classes, keyvals)
  end.

(** ** Vocabulary of the further statements *)

(** What a run may do to the store and still leave its shape alone: add
    objects, and put a new value under a key a dict already has.  No list
    object changes; no dict gains, loses or reorders a key. *)
Definition evolves (h h' : list pyobj) : Prop :=
  length h <= length h' /\
  forall l,
    match h !! l with
    | Some (OList items) => h' !! l = Some (OList items)
    | Some (ODict kvs) => exists kvs', h' !! l = Some (ODict kvs') /\ kvs'.*1 = kvs.*1
    | None => True
    end.

(** The action answered invocation [c]; the action failed on it with [msg]. *)
Definition answered (act : action) (c : call) : Prop :=
  exists r fresh,
    act (c_key c) (c_value c) (c_format c) (c_meta c) (c_heap c) = Returns r fresh.

Definition failed (act : action) (msg : string) (c : call) : Prop :=
  act (c_key c) (c_value c) (c_format c) (c_meta c) (c_heap c) = Fails msg.

(** The invocations [cs] of a run that ended with [r]: all answered, unless
    the run raised, and then what it raised is the failure of the last one. *)
Definition disciplined (act : action) {A} (r : res A) (cs : list call) : Prop :=
  match r with
  | Raise e =>
      exists msg cs0 c,
        e = ActionFailure msg /\ cs = cs0 ++ [c] /\
        Forall (answered act) cs0 /\ failed act msg c
  | _ => Forall (answered act) cs
  end.

(** A computation that keeps the shape of the store and raises nothing but
    the action's failures. *)
Definition tidy (act : action) {A} (m : M A) : Prop :=
  forall st,
    evolves (st_heap st) (st_heap (m st).2) /\
    exists cs, st_calls (m st).2 = st_calls st ++ cs /\ disciplined act (m st).1 cs.

(** The text a Node contributes to [stringify]. *)
Definition node_text (n : json * option json) : string :=
  match n.1 with
  | JStr tag =>
      if String.eqb tag "Str" || String.eqb tag "MetaString"
      then match n.2 with Some (JStr s) => s | _ => EmptyString end
      else if String.eqb tag "Code" || String.eqb tag "Math"
      then match n.2 with Some (JList (_ :: JStr s :: _)) => s | _ => EmptyString end
      else if String.eqb tag "LineBreak" || String.eqb tag "SoftBreak"
              || String.eqb tag "Space"
      then " "
      else EmptyString
  | _ => EmptyString
  end.

(** A text Node holds a string; a code or math Node holds a sequence whose
    second item is a string. *)
Definition node_ok (n : json * option json) : bool :=
  match n.1 with
  | JStr tag =>
      if String.eqb tag "Str" || String.eqb tag "MetaString"
      then match n.2 with Some (JStr _) => true | _ => false end
      else if String.eqb tag "Code" || String.eqb tag "Math"
      then match n.2 with Some (JList (_ :: JStr _ :: _)) => true | _ => false end
      else true
  | _ => true
  end.

Definition plain_text (t : json) : string :=
  foldr (fun n r => node_text n +:+ r) EmptyString (offered t).

(** As [quiet_on], for an action whose answer depends on what it is handed:
    it answers [None] on each sequence-element Node of [t], given its tag
    and content. *)
Definition calm_nodes (act : action) (format : string) (meta : pyval)
    (ns : list (json * option json)) : Prop :=
  forall n k v h, n ∈ ns -> repr h n.1 k ->
    match n.2 with Some ct => repr h ct v | None => v = VNone end ->
    exists fresh, act k v format meta h = Returns VNone fresh.

Definition calm_on (act : action) (format : string) (meta : pyval) (t : json) : Prop :=
  calm_nodes act format meta (offered t).

(** As [walks_ok], with each invocation described in the store it saw. *)
Definition walks_calmly (format : string) (meta : pyval) (rec : pyval -> M pyval)
    (t : json) : Prop :=
  forall h calls v, repr h t v ->
    exists v' h' calls',
      rec v (mkState h calls) = (Ok v', mkState h' (calls ++ calls')) /\
      repr h' t v' /\ preserves h h' /\
      Forall2 (fun c n => offers (c_heap c) format meta c n) calls' (offered t).

(** No dict object of [h] is changed in [h']. *)
Definition dicts_kept (h h' : list pyobj) : Prop :=
  length h <= length h' /\
  forall l kvs, h !! l = Some (ODict kvs) -> h' !! l = Some (ODict kvs).

(** A computation that changes no dict object and invokes no action. *)
Definition frugal {A} (m : M A) : Prop :=
  forall st,
    dicts_kept (st_heap st) (st_heap (m st).2) /\ st_calls (m st).2 = st_calls st.

(** [x['t']] when [x] is a dict that has the key *)
Definition tag_of (h : list pyobj) (x : pyval) : option pyval :=
  match as_dict h x with Some kvs => dict_lookup "t" kvs | None => None end.

(** Every element is a tagged dict, and no [CodeBlock] comes directly after
    a [Para] ([prev] is the element before the first one, if any). *)
Fixpoint no_merge (h : list pyobj) (prev : option pyval) (items : list pyval) : bool :=
  match items with
  | [] => true
  | x :: rest =>
      match tag_of h x with
      | None => false
      | Some t =>
          negb (is_str "CodeBlock" t &&
                match prev with
                | Some p => match tag_of h p with Some pt => is_str "Para" pt | None => false end
                | None => false
                end)
          && no_merge h (Some x) rest
      end
  end.

(** A store holding
    [[Para([Str('hi')]), CodeBlock([['', ['python'], []], 'print(1)']), Para([])]]
    as object 10. *)
Definition python_after_para : list pyobj :=
  [ ODict [("t", VStr "Str"); ("c", VStr "hi")];
    OList [VRef 0];
    ODict [("t", VStr "Para"); ("c", VRef 1)];
    OList [VStr "python"];
    OList [];
    OList [VStr EmptyString; VRef 3; VRef 4];
    OList [VRef 5; VStr "print(1)"];
    ODict [("t", VStr "CodeBlock"); ("c", VRef 6)];
    OList [];
    ODict [("t", VStr "Para"); ("c", VRef 8)];
    OList [VRef 2; VRef 7; VRef 9] ].

(** ** [md_to_pdf] *)

Section md_to_pdf.
Variable str_of_object : heap -> pyval -> string.
(** The parser and the printer of Python's [json] module; [None] when they
    raise. *)
Variable json_loads : string -> option json.
Variable json_dumps : heap -> pyval -> option string.

(** [input] is the text read from standard input; the value is the string
    handed to [sys.stdout.write].  The diagnostic prints are not part of the
    state. *)
Definition md_to_pdf (fuel : nat) (input : string) : M string :=
  doc ← match json_loads input with
        | Some t => load t
        | None => raise JSONDecodeError
        end;
  doc ← get_code_in_para str_of_object fuel doc;
  add_meta doc;;
  h ← get_heap;
  match json_dumps h doc with
  | Some out => mret out
  | None => raise (ValueError "Circular reference detected")
  end.
End md_to_pdf.

Definition json_is_dict (t : json) : bool :=
  match t with JDict _ => true | _ => false end.

Definition json_is_code_block (t : json) : bool :=
  match t with
  | JDict fs =>
      match field "t" fs with Some (JStr s) => String.eqb s "CodeBlock" | _ => false end
  | _ => false
  end.

(** No list of the tree consists of mappings one of which is tagged
    [CodeBlock]. *)
Fixpoint code_free (t : json) : bool :=
  match t with
  | JList items =>
      negb (forallb json_is_dict items && existsb json_is_code_block items)
      && forallb code_free items
  | JDict fields => forallb (fun f => code_free f.2) fields
  | _ => true
  end.

(** [rec] hands back a copy of any object standing for [t]: it only adds
    objects, the result stands for [t], and it is a new object unless [t] is
    a scalar. *)
Definition copies (rec : pyval -> M pyval) (t : json) : Prop :=
  forall v h calls, repr h t v ->
    exists v' fresh,
      rec v (mkState h calls) = (Ok v', mkState (h ++ fresh) calls) /\
      repr (h ++ fresh) t v' /\
      (forall l, v' = VRef l -> length h <= l).

(** The mapping [fs] after [fs[k] = t] *)
Fixpoint set_field (k : string) (t : json) (fs : list (string * json))
    : list (string * json) :=
  match fs with
  | [] => [(k, t)]
  | (k', t') :: rest =>
      if String.eqb k k' then (k', t) :: rest else (k', t') :: set_field k t rest
  end.

(** No list object of [h] has become anything but a list in [h']. *)
Definition lists_kept (h h' : list pyobj) : Prop :=
  length h <= length h' /\
  forall l items, h !! l = Some (OList items) ->
    exists items', h' !! l = Some (OList items').

Definition steady {A} (m : M A) : Prop :=
  forall st, lists_kept (st_heap st) (st_heap (m st).2).

(** [v] is a scalar or a list object. *)
Definition no_mapping (h : list pyobj) (v : pyval) : Prop :=
  match v with
  | VRef l => exists items, h !! l = Some (OList items)
  | _ => True
  end.

(** What [md_to_pdf] hands to [sys.stdout.write] for the object [doc]. *)
Definition written (dumped : option string) : res string :=
  match dumped with
  | Some out => Ok out
  | None => Raise (ValueError "Circular reference detected")
  end.

(** ** The walk as a rewrite of trees *)

(** [own h t v L]: [v] stands for [t], and [L] lists the objects it is made
    of, an object before the objects below it.  When [L] has no duplicates
    no object is used twice in the tree, as in what [json.loads] builds. *)
Inductive own (h : list pyobj) : json -> pyval -> list nat -> Prop :=
| own_null : own h JNull VNone []
| own_bool b : own h (JBool b) (VBool b) []
| own_int z : own h (JInt z) (VInt z) []
| own_str s : own h (JStr s) (VStr s) []
| own_list l vs ts Ls :
    h !! l = Some (OList vs) ->
    Forall3 (own h) ts vs Ls ->
    own h (JList ts) (VRef l) (l :: concat Ls)
| own_dict l kvs fs Ls :
    h !! l = Some (ODict kvs) ->
    NoDup (kvs.*1) ->
    Forall3 (fun f kv L => f.1 = kv.1 /\ own h f.2 kv.2 L) fs kvs Ls ->
    own h (JDict fs) (VRef l) (l :: concat Ls).

(** [h'] has every object of [h] that is not in [L] as it was. *)
Definition changes_within (L : list nat) (h h' : list pyobj) : Prop :=
  length h <= length h' /\ forall l, l < length h -> l ∉ L -> h' !! l = h !! l.

(** The objects [L'] are among [L] or were created at [lo] or later. *)
Definition drawn_from (L : list nat) (lo : nat) (L' : list nat) : Prop :=
  forall l, l ∈ L' -> l ∈ L \/ lo <= l.

(** What a rewrite action answers, on trees: the unchanged sentinel, a
    single replacement value, or a sequence of replacement values. *)
Inductive spec_answer : Type :=
| Unchanged
| Replace (t : json)
| Splice (ts : list json).

(** A rewrite action at a given format and metadata, as a function of the
    tag and the content (absent: [None]) of a Node. *)
Definition spec_action : Type := json -> option json -> spec_answer.

(** The operation [walk] as the specification words it, on trees, together
    with the Nodes it hands to the action, in the order it does.  For a
    sequence, each element: a Node is handed to the action; on [Unchanged]
    the element itself is walked and kept, on a sequence each item is walked
    and all results are appended in order in place of the element, on a
    single replacement that value is walked and its result appended; an
    element that is not a Node is walked and kept.  For a mapping, each
    value is replaced by its walk, the keys stay.  A scalar is returned as it
    is.  The recursion need not end, so it is bounded by [fuel]; [None] when
    that runs out. *)
Section spec_walk_body.
Variable rec : json -> option (json * list (json * option json)).
Variable ja : spec_action.

Fixpoint spec_walk_each (ts : list json)
    : option (list json * list (json * option json)) :=
  match ts with
  | [] => Some ([], [])
  | t :: rest =>
      match rec t, spec_walk_each rest with
      | Some (t', ns), Some (ts', ns') => Some (t' :: ts', ns ++ ns')
      | _, _ => None
      end
  end.

Definition spec_walk_item (t : json) : option (list json * list (json * option json)) :=
  match node_of t with
  | n :: _ =>
      match ja n.1 n.2 with
      | Unchanged =>
          match rec t with Some (t', ns) => Some ([t'], n :: ns) | None => None end
      | Replace tr =>
          match rec tr with Some (t', ns) => Some ([t'], n :: ns) | None => None end
      | Splice trs =>
          match spec_walk_each trs with
          | Some (ts', ns) => Some (ts', n :: ns)
          | None => None
          end
      end
  | [] => match rec t with Some (t', ns) => Some ([t'], ns) | None => None end
  end.

Fixpoint spec_walk_items (ts : list json)
    : option (list json * list (json * option json)) :=
  match ts with
  | [] => Some ([], [])
  | t :: rest =>
      match spec_walk_item t, spec_walk_items rest with
      | Some (o, ns), Some (os, ns') => Some (o ++ os, ns ++ ns')
      | _, _ => None
      end
  end.

Fixpoint spec_walk_fields (fs : list (string * json))
    : option (list (string * json) * list (json * option json)) :=
  match fs with
  | [] => Some ([], [])
  | f :: rest =>
      match rec f.2, spec_walk_fields rest with
      | Some (t', ns), Some (fs', ns') => Some ((f.1, t') :: fs', ns ++ ns')
      | _, _ => None
      end
  end.
End spec_walk_body.

Fixpoint spec_walk (fuel : nat) (ja : spec_action) (t : json)
    : option (json * list (json * option json)) :=
  match fuel with
  | O => None
  | S n =>
      match t with
      | JList ts =>
          match spec_walk_items (spec_walk n ja) ja ts with
          | Some (ts', ns) => Some (JList ts', ns)
          | None => None
          end
      | JDict fs =>
          match spec_walk_fields (spec_walk n ja) fs with
          | Some (fs', ns) => Some (JDict fs', ns)
          | None => None
          end
      | _ => Some (t, [])
      end
  end.

(** The action [act], at [format] and [meta], answers as [ja] says: whatever
    the store, handed a tag and a content that stand for [tag] and [content]
    it returns [None] for [Unchanged], an object other than a list that
    stands for [tr] for [Replace tr], and a list whose items stand for [trs]
    for [Splice trs].  What it returns is made of new objects and of objects
    of the content it was handed, none used twice. *)
Definition acts_as (act : action) (ja : spec_action) (format : string) (meta : pyval)
    : Prop :=
  forall h tag content k v L,
    repr h tag k ->
    match content with Some ct => own h ct v L | None => v = VNone /\ L = [] end ->
    NoDup L ->
    exists r fresh,
      act k v format meta h = Returns r fresh /\
      match ja tag content with
      | Unchanged => r = VNone
      | Replace tr =>
          r <> VNone /\ as_list (h ++ fresh) r = None /\
          exists L', own (h ++ fresh) tr r L' /\ NoDup L' /\ drawn_from L (length h) L'
      | Splice trs =>
          exists zs Ls,
            as_list (h ++ fresh) r = Some zs /\
            Forall3 (own (h ++ fresh)) trs zs Ls /\
            NoDup (concat Ls) /\ drawn_from L (length h) (concat Ls)
      end.

(** [rec] does to an unshared object what [jrec] does to the tree it stands
    for: it returns an unshared object standing for the rewritten tree, made
    of objects of the input and of new ones; it changes objects of the input
    only; and its invocations of the action are the Nodes [jrec] lists, each
    with the tag and content it had when it was handed over. *)
Definition walks_as (format : string) (meta : pyval) (rec : pyval -> M pyval)
    (jrec : json -> option (json * list (json * option json))) : Prop :=
  forall t t' ns, jrec t = Some (t', ns) ->
  forall h calls v L, own h t v L -> NoDup L ->
    exists v' h' calls' L',
      rec v (mkState h calls) = (Ok v', mkState h' (calls ++ calls')) /\
      own h' t' v' L' /\ NoDup L' /\ drawn_from L (length h) L' /\
      changes_within L h h' /\
      Forall2 (fun c n => offers (c_heap c) format meta c n) calls' ns.

(** An action that turns every [Code] into a new [Emph([Str('code')])]. *)
Definition code_to_emph : action := fun key _ _ _ h =>
  if is_str "Code" key
  then Returns (VRef (length h + 2))
         [ODict [("t", VStr "Str"); ("c", VStr "code")];
          OList [VRef (length h)];
          ODict [("t", VStr "Emph"); ("c", VRef (length h + 1))]]
  else Returns VNone [].

(** The same on trees. *)
Definition code_to_emph_tree : spec_action := fun tag _ =>
  match tag with
  | JStr s =>
      if String.eqb s "Code"
      then Replace (node "Emph" (JList [node "Str" (JStr "code")]))
      else Unchanged
  | _ => Unchanged
  end.

(** [para_to_code] on trees. *)
Definition para_to_code_tree : spec_action := fun tag _ =>
  match tag with
  | JStr s =>
      if String.eqb s "Para"
      then Splice [node "Emph" (JList [node "Code" (JStr "x")]); JDict [("t", JStr "Space")]]
      else if String.eqb s "Code"
      then Replace (node "Str" (JStr "code"))
      else Unchanged
  | _ => Unchanged
  end.

(** [[Str('a'), Code([[], 'x']), Str('b')]], and the store after loading it;
    the list is object 5. *)
Definition str_code_str_tree : json :=
  JList [node "Str" (JStr "a"); node "Code" (JList [JList []; JStr "x"]);
         node "Str" (JStr "b")].

Definition str_code_str : list pyobj :=
  [ODict [("t", VStr "Str"); ("c", VStr "a")];
   OList [];
   OList [VRef 1; VStr "x"];
   ODict [("t", VStr "Code"); ("c", VRef 2)];
   ODict [("t", VStr "Str"); ("c", VStr "b")];
   OList [VRef 0; VRef 3; VRef 4]].

(* ===================================================================== *)
(** * Part II. Theorems                                                   *)
(* ===================================================================== *)

(** ** The monad *)

Lemma bind_unfold {A B} (m : M A) (f : A -> M B) st :
  (m ≫= f) st =
  match m st with
  | (Ok a, st') => f a st'
  | (Raise e, st') => (Raise e, st')
  | (Diverge, st') => (Diverge, st')
  end.
Proof. reflexivity. Qed.

Lemma bind_ok {A B} (m : M A) (f : A -> M B) st a st' :
  m st = (Ok a, st') -> (m ≫= f) st = f a st'.
Proof. intros E. rewrite bind_unfold, E. reflexivity. Qed.

Lemma bind_inv_ok {A B} (m : M A) (f : A -> M B) st b st'' :
  (m ≫= f) st = (Ok b, st'') ->
  exists a st', m st = (Ok a, st') /\ f a st' = (Ok b, st'').
Proof.
  rewrite bind_unfold. destruct (m st) as [[a|e|] st'] eqn:E; try discriminate.
  intros H. eauto.
Qed.

Lemma ret_unfold {A} (a : A) st : (mret a : M A) st = (Ok a, st).
Proof. reflexivity. Qed.

(** ** The object store *)

Lemma heap_lookup_fresh (h : heap) (o : pyobj) : (h ++ [o]) !! length h = Some o.
Proof. by rewrite list_lookup_middle. Qed.

Lemma heap_lookup_old (h fresh : heap) (l : loc) (o : pyobj) :
  h !! l = Some o -> (h ++ fresh) !! l = Some o.
Proof. apply lookup_app_l_Some. Qed.

Lemma as_dict_old h fresh v kvs :
  as_dict h v = Some kvs -> as_dict (h ++ fresh) v = Some kvs.
Proof.
  destruct v; simpl; try discriminate.
  destruct (h !! l) as [[|]|] eqn:E; try discriminate.
  intros [= <-]. by rewrite (heap_lookup_old _ _ _ _ E).
Qed.

Lemma as_list_old h fresh v items :
  as_list h v = Some items -> as_list (h ++ fresh) v = Some items.
Proof.
  destruct v; simpl; try discriminate.
  destruct (h !! l) as [[|]|] eqn:E; try discriminate.
  intros [= <-]. by rewrite (heap_lookup_old _ _ _ _ E).
Qed.

(** ** Node constructors *)

(** C5. A constructor called with a number of arguments other than its
    arity raises [ValueError] with a message naming the tag, the expected
    count and the actual count, and leaves the store alone; called with
    exactly its arity it returns a node.  [Para()] fails, [Para(x)] succeeds. *)
Theorem elt_arity (eltType : string) (num_args : nat) (args : list pyval) (st : state) :
  (length args <> num_args ->
     elt eltType num_args args st =
       (Raise (ValueError (eltType +:+ " except " +:+ dec num_args
                             +:+ " arguments, but given " +:+ dec (length args))), st))
  /\ (length args = num_args ->
      exists node st', elt eltType num_args args st = (Ok node, st'))
  /\ Para [] st = (Raise (ValueError "Para except 1 arguments, but given 0"), st)
  /\ (forall x, exists node st', Para [x] st = (Ok node, st')).
Proof.
  repeat split.
  - intros Hne. unfold elt.
    destruct (Nat.eqb_spec (length args) num_args) as [|_]; [contradiction|].
    reflexivity.
  - intros <-. unfold elt. rewrite Nat.eqb_refl. simpl.
    destruct args as [|a [|b rest]]; simpl; eauto.
  - intros x. unfold Para, elt. simpl. eauto.
Qed.

Lemma elt_arity_witness :
  Header [VInt 1; VNone] init =
    (Raise (ValueError "Header except 3 arguments, but given 2"), init)
  /\ exists node st', Header [VInt 1; VNone; VNone] init = (Ok node, st').
Proof.
  split.
  - apply (proj1 (elt_arity "Header" 3 [VInt 1; VNone] init)). simpl. lia.
  - apply (proj1 (proj2 (elt_arity "Header" 3 [VInt 1; VNone; VNone] init))).
    reflexivity.
Defined.

(** C6, as amended.  A constructor called with exactly its arity returns a
    new mapping with the tag under ['t'] and, under ['c'], an empty sequence
    (a new list object) for arity 0, the argument itself for arity 1, and a
    new list holding the arguments in order otherwise.  Nothing that was in
    the store changes and no action is invoked. *)
Theorem elt_node (eltType : string) (num_args : nat) (args : list pyval) (st : state) :
  length args = num_args ->
  exists node content st',
    elt eltType num_args args st = (Ok node, st') /\
    as_dict (st_heap st') node = Some [("t", VStr eltType); ("c", content)] /\
    match args with
    | [] => content = VRef (length (st_heap st)) /\ as_list (st_heap st') content = Some []
    | [a] => content = a
    | _ => content = VRef (length (st_heap st)) /\ as_list (st_heap st') content = Some args
    end /\
    (exists fresh, st_heap st' = st_heap st ++ fresh) /\ st_calls st' = st_calls st.
Proof.
  intros <-. destruct st as [h calls]. unfold elt. rewrite Nat.eqb_refl.
  destruct args as [|a [|b rest]]; simpl.
  - eexists _, _, _. split; [reflexivity|]. simpl.
    rewrite heap_lookup_fresh. split; [reflexivity|].
    split; [split; [reflexivity|]|].
    + simpl. by rewrite (heap_lookup_old _ _ _ _ (heap_lookup_fresh h _)).
    + split; [|reflexivity]. eexists [_; _]. by rewrite <- app_assoc.
  - eexists _, _, _. split; [reflexivity|]. simpl.
    rewrite heap_lookup_fresh. repeat split. eauto.
  - eexists _, _, _. split; [reflexivity|]. simpl.
    rewrite heap_lookup_fresh. split; [reflexivity|].
    split; [split; [reflexivity|]|].
    + simpl. by rewrite (heap_lookup_old _ _ _ _ (heap_lookup_fresh h _)).
    + split; [|reflexivity]. eexists [_; _]. by rewrite <- app_assoc.
Qed.

Lemma elt_node_witness :
  exists node content st',
    Space [] init = (Ok node, st') /\
    as_dict (st_heap st') node = Some [("t", VStr "Space"); ("c", content)] /\
    (content = VRef 0 /\ as_list (st_heap st') content = Some []) /\
    (exists fresh, st_heap st' = [] ++ fresh) /\ st_calls st' = [].
Proof. apply (elt_node "Space" 0 [] init). reflexivity. Defined.

(** C6 as stated fails: the node [Space()] returns has a content, an empty
    list, where the claim has none. *)
Lemma elt_nullary_content_not_absent :
  ~ (forall node st' kvs,
       Space [] init = (Ok node, st') ->
       as_dict (st_heap st') node = Some kvs ->
       default VNone (dict_lookup "c" kvs) = VNone).
Proof.
  intros H.
  specialize (H (VRef 1) (mkState [OList []; ODict [("t", VStr "Space"); ("c", VRef 0)]] [])
                [("t", VStr "Space"); ("c", VRef 0)] eq_refl eq_refl).
  discriminate H.
Qed.

(** ** What every run of [walk] keeps *)

Section keeps.
Context (P : call -> Prop).

Lemma keeps_ret {A} (a : A) : keeps P (mret a).
Proof. intros st. split; [discriminate|]. exists []. by rewrite app_nil_r. Qed.

Lemma keeps_raise {A} (e : exn) : e <> JSONDecodeError -> keeps P (raise e : M A).
Proof.
  intros He st. split; [simpl; congruence|]. exists []. by rewrite app_nil_r.
Qed.

Lemma keeps_diverge {A} : keeps P (diverge : M A).
Proof. intros st. split; [discriminate|]. exists []. by rewrite app_nil_r. Qed.

Lemma keeps_bind {A B} (m : M A) (f : A -> M B) :
  keeps P m -> (forall a, keeps P (f a)) -> keeps P (m ≫= f).
Proof.
  intros Hm Hf st. rewrite bind_unfold.
  destruct (Hm st) as [Hne (c1 & E1 & F1)].
  destruct (m st) as [[a|e|] st1] eqn:E; simpl in *.
  - destruct (Hf a st1) as [Hne' (c2 & E2 & F2)]. split; [done|].
    exists (c1 ++ c2). rewrite E2, E1, app_assoc. split; [done|]. by apply Forall_app_2.
  - split; [intros [= ->]; by apply Hne|]. eauto.
  - split; [done|]. eauto.
Qed.

Lemma keeps_get_heap : keeps P get_heap.
Proof. intros st. split; [discriminate|]. exists []. by rewrite app_nil_r. Qed.

Lemma keeps_alloc o : keeps P (alloc o).
Proof. intros st. split; [discriminate|]. exists []. by rewrite app_nil_r. Qed.

Lemma keeps_dict_getitem d k : keeps P (dict_getitem d k).
Proof.
  unfold dict_getitem. apply keeps_bind; [apply keeps_get_heap|]. intros h.
  destruct (as_dict h d) as [kvs|]; [|by apply keeps_raise].
  destruct (dict_lookup k kvs); [apply keeps_ret|by apply keeps_raise].
Qed.

Lemma keeps_dict_setitem d k v : keeps P (dict_setitem d k v).
Proof.
  intros st. unfold dict_setitem.
  destruct d; try (split; [discriminate|]; exists []; by rewrite app_nil_r).
  destruct (st_heap st !! l) as [[|]|];
    (split; [discriminate|]; exists []; by rewrite app_nil_r).
Qed.

Lemma keeps_call_action act key value format meta :
  (forall h, P (mkCall key value format meta h)) ->
  keeps P (call_action act key value format meta).
Proof.
  intros HP st. unfold call_action.
  destruct (act key value format meta (st_heap st)); simpl;
    (split; [discriminate|]; eexists [_]; split; [reflexivity|]; by repeat constructor).
Qed.
End keeps.

Section keeps_walk.
Context (act : action) (format : string) (meta : pyval).
Let P : call -> Prop := fun c => c_meta c = meta /\ c_format c = format.

Lemma keeps_walk_each rec items :
  (forall v, keeps P (rec v)) -> keeps P (walk_each rec items).
Proof.
  intros Hrec. induction items as [|z rest IH]; simpl; [apply keeps_ret|].
  apply keeps_bind; [done|]. intros y.
  apply keeps_bind; [done|]. intros ys. apply keeps_ret.
Qed.

Lemma keeps_walk_item rec item :
  (forall v, keeps P (rec v)) -> keeps P (walk_item rec act format meta item).
Proof.
  intros Hrec.
  assert (Hone : forall v, keeps P (y ← rec v; mret [y])).
  { intros v. apply keeps_bind; [done|]. intros y. apply keeps_ret. }
  unfold walk_item. apply keeps_bind; [apply keeps_get_heap|]. intros h.
  destruct (as_dict h item) as [kvs|]; [|done].
  destruct (dict_lookup "t" kvs) as [t|]; [|done].
  apply keeps_bind; [by apply keeps_call_action|]. intros r.
  assert (Hr : keeps P (h' ← get_heap;
                        match as_list h' r with
                        | Some zs => walk_each rec zs
                        | None => y ← rec r; mret [y]
                        end)).
  { apply keeps_bind; [apply keeps_get_heap|]. intros h'.
    destruct (as_list h' r); [by apply keeps_walk_each|done]. }
  destruct r; done.
Qed.

Lemma keeps_walk_items rec items :
  (forall v, keeps P (rec v)) -> keeps P (walk_items rec act format meta items).
Proof.
  intros Hrec. induction items as [|item rest IH]; simpl; [apply keeps_ret|].
  apply keeps_bind; [by apply keeps_walk_item|]. intros ys.
  apply keeps_bind; [done|]. intros out. apply keeps_ret.
Qed.

Lemma keeps_walk_keys rec tree keys :
  (forall v, keeps P (rec v)) -> keeps P (walk_keys rec tree keys).
Proof.
  intros Hrec. induction keys as [|k rest IH]; simpl; [apply keeps_ret|].
  apply keeps_bind; [apply keeps_dict_getitem|]. intros v.
  apply keeps_bind; [done|]. intros v'.
  apply keeps_bind; [apply keeps_dict_setitem|]. intros _. done.
Qed.

Lemma keeps_walk fuel tree : keeps P (walk fuel act format meta tree).
Proof.
  revert tree. induction fuel as [|n IH]; intros tree; simpl; [apply keeps_diverge|].
  apply keeps_bind; [apply keeps_get_heap|]. intros h.
  destruct tree; try apply keeps_ret.
  destruct (h !! l) as [[items|kvs]|]; try apply keeps_ret.
  - apply keeps_bind; [by apply keeps_walk_items|]. intros array. apply keeps_alloc.
  - apply keeps_bind; [by apply keeps_walk_keys|]. intros _. apply keeps_ret.
Qed.
End keeps_walk.

Lemma keeps_weaken (P Q : call -> Prop) {A} (m : M A) :
  (forall c, P c -> Q c) -> keeps P m -> keeps Q m.
Proof.
  intros HPQ Hm st. destruct (Hm st) as [Hne (c & E & F)]. split; [done|].
  exists c. split; [done|]. eapply Forall_impl; eauto.
Qed.

Lemma keeps_run_actions fuel actions format meta doc :
  keeps (fun c => c_meta c = meta) (run_actions fuel actions format meta doc).
Proof.
  revert doc. induction actions as [|act rest IH]; intros doc; simpl; [apply keeps_ret|].
  apply keeps_bind; [|done].
  eapply keeps_weaken; [|apply keeps_walk]. by intros c [? _].
Qed.

(** ** [applyJSONFilters] *)

Lemma json_ind' (P : json -> Prop) :
  P JNull -> (forall b, P (JBool b)) -> (forall z, P (JInt z)) -> (forall s, P (JStr s)) ->
  (forall items, Forall P items -> P (JList items)) ->
  (forall fields, Forall (fun f => P f.2) fields -> P (JDict fields)) ->
  forall t, P t.
Proof.
  intros Hn Hb Hz Hs Hl Hd. fix IH 1.
  intros [|b|z|s|items|fields]; [apply Hn|apply Hb|apply Hz|apply Hs| |].
  - apply Hl. revert items. fix IHl 1. intros [|x xs]; constructor; [apply IH|apply IHl].
  - apply Hd. revert fields. fix IHf 1.
    intros [|f fs]; constructor; [apply IH|apply IHf].
Qed.

(** Loading a parsed document always succeeds; it only adds objects. *)
Lemma load_ok (t : json) :
  forall st, exists v fresh,
    load t st = (Ok v, mkState (st_heap st ++ fresh) (st_calls st)).
Proof.
  induction t as [| | | |items IH|fields IH] using json_ind'; intros st;
    try (eexists _, []; rewrite app_nil_r; by destruct st).
  - simpl.
    assert (Hgo : forall st, exists vs fresh,
      (fix go (ts : list json) : M (list pyval) :=
         match ts with
         | [] => mret []
         | t' :: ts' => v ← load t'; vs ← go ts'; mret (v :: vs)
         end) items st = (Ok vs, mkState (st_heap st ++ fresh) (st_calls st))).
    { clear st. induction IH as [|x xs Hx _ IHxs]; intros st.
      - eexists _, []. rewrite app_nil_r. by destruct st.
      - destruct (Hx st) as (v & f1 & E1).
        destruct (IHxs (mkState (st_heap st ++ f1) (st_calls st))) as (vs & f2 & E2).
        exists (v :: vs), (f1 ++ f2). erewrite bind_ok; [|exact E1].
        erewrite bind_ok; [|exact E2]. simpl. by rewrite app_assoc. }
    destruct (Hgo st) as (vs & f1 & E1). eexists _, (f1 ++ [_]).
    erewrite bind_ok; [|exact E1]. unfold alloc. simpl. by rewrite app_assoc.
  - simpl.
    assert (Hgo : forall acc st, exists kvs fresh,
      (fix go (fs : list (string * json)) (acc : pydict) : M pydict :=
         match fs with
         | [] => mret acc
         | f :: fs' => v ← load f.2; go fs' (dict_store f.1 v acc)
         end) fields acc st = (Ok kvs, mkState (st_heap st ++ fresh) (st_calls st))).
    { clear st. induction IH as [|x xs Hx _ IHxs]; intros acc st.
      - eexists _, []. rewrite app_nil_r. by destruct st.
      - destruct (Hx st) as (v & f1 & E1).
        destruct (IHxs (dict_store x.1 v acc) (mkState (st_heap st ++ f1) (st_calls st)))
          as (kvs & f2 & E2).
        exists kvs, (f1 ++ f2). erewrite bind_ok; [|exact E1].
        rewrite E2. simpl. by rewrite app_assoc. }
    destruct (Hgo [] st) as (kvs & f1 & E1). eexists _, (f1 ++ [_]).
    erewrite bind_ok; [|exact E1]. unfold alloc. simpl. by rewrite app_assoc.
Qed.

(** After a successful parse: the document is built, [meta] is taken from
    it once (a new empty dict when the key is missing, an error when the
    document is not a dict), then the passes run, then [altered] is looked up. *)
Lemma applyJSONFilters_loaded json_loads fuel actions source format t st :
  json_loads source = Some t ->
  exists doc fresh,
    load t st = (Ok doc, mkState (st_heap st ++ fresh) (st_calls st)) /\
    applyJSONFilters json_loads fuel actions source format st =
      match as_dict (st_heap st ++ fresh) doc with
      | None => (Raise (AttributeError "get"), mkState (st_heap st ++ fresh) (st_calls st))
      | Some kvs =>
          (run_actions fuel actions format
             (default (VRef (length (st_heap st ++ fresh))) (dict_lookup "meta" kvs)) doc
             ≫= fun _ => raise (NameError "altered"))
            (mkState ((st_heap st ++ fresh) ++ [ODict []]) (st_calls st))
      end.
Proof.
  intros Hl. destruct (load_ok t st) as (doc & fresh & E). exists doc, fresh.
  split; [done|]. unfold applyJSONFilters. rewrite Hl.
  erewrite bind_ok; [|exact E]. rewrite bind_unfold. simpl.
  destruct (as_dict (st_heap st ++ fresh) doc) as [kvs|]; reflexivity.
Qed.

Lemma then_raise_not_returned {A B} (m : M A) (e : exn) st :
  returned ((m ≫= fun _ => (raise e : M B)) st).1 = false.
Proof. rewrite bind_unfold. by destruct (m st) as [[a|e'|] st']. Qed.

(** C1 (the code departs from it).  [applyJSONFilters] never returns: the
    last line reads the unbound name [altered].  With the empty action list
    and the source [{}] it raises [NameError] after building the document
    and the default metadata. *)
Theorem applyJSONFilters_never_returns :
  (forall json_loads fuel actions source format st,
     returned (applyJSONFilters json_loads fuel actions source format st).1 = false)
  /\ applyJSONFilters loads_empty 1 [] "{}" no_format init =
       (Raise (NameError "altered"), mkState [ODict []; ODict []] []).
Proof.
  split; [|reflexivity]. intros json_loads fuel actions source format st.
  destruct (json_loads source) as [t|] eqn:Hl.
  - destruct (applyJSONFilters_loaded json_loads fuel actions source format t st Hl)
      as (doc & fresh & _ & ->).
    destruct (as_dict _ doc); [apply then_raise_not_returned|reflexivity].
  - unfold applyJSONFilters. by rewrite Hl.
Qed.

(** C7.  [applyJSONFilters] raises the parser's error exactly when the
    source does not parse, and then nothing has happened: no object was
    built and no action was invoked. *)
Theorem applyJSONFilters_malformed json_loads fuel actions source format st :
  ((applyJSONFilters json_loads fuel actions source format st).1 = Raise JSONDecodeError
     <-> json_loads source = None)
  /\ (json_loads source = None ->
      (applyJSONFilters json_loads fuel actions source format st).2 = st).
Proof.
  destruct (json_loads source) as [t|] eqn:Hl.
  - split; [|discriminate]. split; [|discriminate]. intros Hr. exfalso.
    destruct (applyJSONFilters_loaded json_loads fuel actions source format t st Hl)
      as (doc & fresh & _ & E).
    rewrite E in Hr. destruct (as_dict _ doc) as [kvs|]; [|discriminate].
    revert Hr. eapply keeps_bind; [apply keeps_run_actions|].
    intros _. by apply keeps_raise.
  - unfold applyJSONFilters. rewrite Hl. by split.
Qed.

Lemma applyJSONFilters_malformed_witness :
  (applyJSONFilters loads_empty 3 [unchanged] "{" no_format init).1 = Raise JSONDecodeError
  /\ (applyJSONFilters loads_empty 3 [unchanged] "{" no_format init).2 = init.
Proof.
  pose proof (applyJSONFilters_malformed loads_empty 3 [unchanged] "{" no_format init) as [H1 H2].
  split; [apply H1; reflexivity|apply H2; reflexivity].
Defined.

(** C10, as amended.  The metadata is taken once from the document just
    loaded, before any pass: it is the very object stored under ['meta'], or
    a new empty dict when there is no such key.  Every invocation of every
    action in every pass is handed that same object (the rewritten document
    is never asked again). *)
Theorem applyJSONFilters_meta_once json_loads fuel actions source format st t doc st1 kvs :
  json_loads source = Some t ->
  load t st = (Ok doc, st1) ->
  as_dict (st_heap st1) doc = Some kvs ->
  let meta := default (VRef (length (st_heap st1))) (dict_lookup "meta" kvs) in
  applyJSONFilters json_loads fuel actions source format st =
    (run_actions fuel actions format meta doc ≫= fun _ => raise (NameError "altered"))
      (mkState (st_heap st1 ++ [ODict []]) (st_calls st))
  /\ (dict_lookup "meta" kvs = None -> as_dict (st_heap st1 ++ [ODict []]) meta = Some [])
  /\ exists calls',
       st_calls (applyJSONFilters json_loads fuel actions source format st).2
         = st_calls st ++ calls'
       /\ Forall (fun c => c_meta c = meta) calls'.
Proof.
  intros Hl Hload Hd meta.
  destruct (applyJSONFilters_loaded json_loads fuel actions source format t st Hl)
    as (doc' & fresh & E1 & E2).
  rewrite Hload in E1. injection E1 as -> ->. simpl in Hd. rewrite Hd in E2.
  split; [exact E2|]. split.
  - intros Hnone. subst meta. rewrite Hnone. simpl. by rewrite heap_lookup_fresh.
  - rewrite E2.
    assert (K : keeps (fun c => c_meta c = meta)
                  (run_actions fuel actions format meta doc'
                     ≫= fun _ => (raise (NameError "altered") : M string))).
    { apply keeps_bind; [apply keeps_run_actions|]. intros _. by apply keeps_raise. }
    exact (proj2 (K _)).
Qed.

Lemma applyJSONFilters_meta_once_witness :
  exists calls',
    st_calls (applyJSONFilters (fun _ => Some titled_doc) 10 [str_to_space; unchanged]
                no_format no_format init).2 = [] ++ calls'
    /\ Forall (fun c => c_meta c = VRef 2) calls'.
Proof.
  refine (proj2 (proj2 (applyJSONFilters_meta_once (fun _ => Some titled_doc) 10
                          [str_to_space; unchanged] no_format no_format init titled_doc (VRef 6) _
                          [("meta", VRef 2); ("blocks", VRef 5)] eq_refl eq_refl eq_refl))).
Defined.

(** C10 as stated fails.  The object handed to the actions is the
    document's own ['meta'] dict, and [walk] stores into it: once the first
    action has replaced the [Str] inside the title, the invocations of the
    second pass no longer see the metadata the document was loaded with. *)
Lemma later_pass_sees_rewritten_meta :
  ~ Forall (fun c => repr (c_heap c) titled_meta (c_meta c))
      (st_calls (applyJSONFilters (fun _ => Some titled_doc) 10
                   [str_to_space; unchanged] no_format no_format init).2).
Proof.
  intros H. vm_compute in H.
  eapply (Forall_lookup_1 _ _ 3) in H; [|reflexivity]. simpl in H.
  repr_inv.
Qed.

(** ** mdpdf.py *)

(** C8.  On [[Para([Str('hi')]), CodeBlock([['', [], []], 'print(1)'])]] the
    code-merge pass returns the same list object, now of length one: the
    [Para], whose content has gained a [RawInline] of format [latex] holding
    [print(1)] inside a [lstlisting] environment; the [CodeBlock] is gone. *)
Theorem get_code_in_para_merges (str_of_object : heap -> pyval -> string) (fuel : nat) :
  exists tree st1 st',
    load para_then_code init = (Ok tree, st1) /\
    (exists items, as_list (st_heap st1) tree = Some items /\ length items = 2) /\
    get_code_in_para str_of_object (S fuel) tree st1 = (Ok tree, st') /\
    (exists items', as_list (st_heap st') tree = Some items' /\ length items' = 1) /\
    repr (st_heap st') para_with_listing tree.
Proof.
  eexists _, _, _. split; [vm_compute; reflexivity|].
  split; [eexists; split; reflexivity|].
  split; [vm_compute; reflexivity|].
  split; [eexists; split; reflexivity|].
  repr_solve.
Qed.

Lemma dict_lookup_store_eq k v kvs : dict_lookup k (dict_store k v kvs) = Some v.
Proof.
  induction kvs as [|[k' v'] rest IH]; simpl.
  - by rewrite String.eqb_refl.
  - destruct (String.eqb k k') eqn:E; simpl; rewrite E; [done|exact IH].
Qed.

Lemma dict_lookup_store_ne k k' v kvs :
  k <> k' -> dict_lookup k (dict_store k' v kvs) = dict_lookup k kvs.
Proof.
  intros Hne. induction kvs as [|[k'' v''] rest IH]; simpl.
  - by apply String.eqb_neq in Hne as ->.
  - destruct (String.eqb k' k'') eqn:E; simpl.
    + apply String.eqb_eq in E as <-. by apply String.eqb_neq in Hne as ->.
    + by rewrite IH.
Qed.

Lemma dict_store_keys k v kvs :
  is_Some (dict_lookup k kvs) -> (dict_store k v kvs).*1 = kvs.*1.
Proof.
  induction kvs as [|[k' v'] rest IH]; simpl; [by intros [? ?]|].
  destruct (String.eqb k k') eqn:E; simpl; [done|]. intros H. f_equal. by apply IH.
Qed.

Lemma add_meta_steps doc h calls :
  add_meta doc (mkState h calls) =
    dict_setitem doc "meta" (VRef (length h + 8))
      (mkState (h ++ meta_objects (length h)) calls).
Proof.
  unfold add_meta, MetaRawLatex, MetaString, MetaInlines, RawInline, meta_objects.
  cbv [elt alloc mbind M_bind mret M_ret negb Nat.eqb st_heap st_calls].
  cbn [length]. rewrite !length_app. cbn [length].
  rewrite <- !app_assoc. cbn [app].
  repeat (f_equal; try lia).
Qed.

Lemma lookup_fresh_block (h objs : heap) (l i : nat) (o : pyobj) :
  l < length h -> (<[l := o]> (h ++ objs)) !! (length h + i) = objs !! i.
Proof.
  intros Hl. rewrite list_lookup_insert_ne by lia.
  rewrite lookup_app_r by lia. f_equal. lia.
Qed.

(** C9.  Whatever the document mapping holds, [add_meta] stores under
    ['meta'] a newly built object standing for the fixed mapping of
    typesetting options (CJK main font, paper size, geometry, font size and
    the raw [tex] header block); every other key keeps its value, and no
    action is involved. *)
Theorem add_meta_overwrites (doc : pyval) (kvs : pydict) (st : state) :
  as_dict (st_heap st) doc = Some kvs ->
  exists st' m,
    add_meta doc st = (Ok tt, st') /\
    m = VRef (length (st_heap st) + 8) /\
    as_dict (st_heap st') doc = Some (dict_store "meta" m kvs) /\
    dict_lookup "meta" (dict_store "meta" m kvs) = Some m /\
    (forall k, k <> "meta" -> dict_lookup k (dict_store "meta" m kvs) = dict_lookup k kvs) /\
    repr (st_heap st') fixed_meta m /\
    st_calls st' = st_calls st.
Proof.
  destruct st as [h calls]. simpl. intros Hd.
  destruct doc as [| | | |l]; try discriminate. simpl in Hd.
  destruct (h !! l) as [[|kvs0]|] eqn:El; try discriminate. injection Hd as ->.
  assert (Hl : l < length h) by (eapply lookup_lt_Some; eauto).
  eexists _, _. rewrite add_meta_steps. unfold dict_setitem. simpl.
  rewrite (heap_lookup_old _ _ _ _ El).
  split; [reflexivity|]. split; [reflexivity|]. cbn [as_dict st_heap st_calls].
  rewrite list_lookup_insert_eq by (rewrite length_app; lia).
  split; [reflexivity|]. split; [apply dict_lookup_store_eq|].
  split; [intros k Hk; by apply dict_lookup_store_ne|].
  split; [|reflexivity].
  repr_solve_with ltac:(rewrite lookup_fresh_block by exact Hl; reflexivity).
Qed.

Lemma add_meta_overwrites_witness :
  exists st' m,
    add_meta (VRef 0) (mkState [ODict [("meta", VInt 7); ("blocks", VNone)]] []) = (Ok tt, st') /\
    m = VRef 9 /\
    as_dict (st_heap st') (VRef 0) = Some [("meta", m); ("blocks", VNone)] /\
    dict_lookup "meta" [("meta", m); ("blocks", VNone)] = Some m /\
    (forall k, k <> "meta" ->
       dict_lookup k [("meta", m); ("blocks", VNone)]
       = dict_lookup k [("meta", VInt 7); ("blocks", VNone)]) /\
    repr (st_heap st') fixed_meta m /\
    st_calls st' = [].
Proof.
  exact (add_meta_overwrites (VRef 0) [("meta", VInt 7); ("blocks", VNone)]
           (mkState [ODict [("meta", VInt 7); ("blocks", VNone)]] []) eq_refl).
Defined.

(** ** Trees and the objects that stand for them *)

Lemma depth_item x ts : x ∈ ts -> depth x < depth (JList ts).
Proof.
  simpl. induction 1 as [x ts|x y ts _ IH]; simpl; lia.
Qed.

Lemma depth_field (f : string * json) fs : f ∈ fs -> depth f.2 < depth (JDict fs).
Proof.
  simpl. induction 1 as [f fs|f g fs _ IH]; simpl; lia.
Qed.

Lemma offered_cons x xs :
  offered (JList (x :: xs)) = node_of x ++ offered x ++ offered (JList xs).
Proof. reflexivity. Qed.

Lemma offered_fields_cons (f : string * json) fs :
  offered (JDict (f :: fs)) = offered f.2 ++ offered (JDict fs).
Proof. reflexivity. Qed.

Lemma repr_keys h fs (kvs : pydict) :
  Forall2 (fun f kv => f.1 = kv.1 /\ repr h f.2 kv.2) fs kvs -> fs.*1 = kvs.*1.
Proof. induction 1 as [|f kv fs kvs [E _] _ IH]; [done|]. rewrite !fmap_cons. by f_equal. Qed.

Lemma repr_field h fs (kvs : pydict) k :
  Forall2 (fun f kv => f.1 = kv.1 /\ repr h f.2 kv.2) fs kvs ->
  match field k fs, dict_lookup k kvs with
  | Some t, Some v => repr h t v
  | None, None => True
  | _, _ => False
  end.
Proof.
  induction 1 as [|[k1 t] [k2 v] fs kvs [E R] _ IH]; simpl; [done|].
  simpl in E. subst k2. by destruct (String.eqb k k1).
Qed.

Lemma field_elem (f : string * json) fs :
  NoDup (fs.*1) -> f ∈ fs -> field f.1 fs = Some f.2.
Proof.
  induction fs as [|[k t] fs IH]; simpl; [by intros _ ?%elem_of_nil|].
  intros [Hk Hnd]%NoDup_cons [->|Hin]%elem_of_cons.
  - simpl. by rewrite String.eqb_refl.
  - destruct (String.eqb_spec f.1 k) as [E|_]; [|by apply IH].
    exfalso. apply Hk. rewrite <- E. apply list_elem_of_fmap. by exists f.
Qed.

Lemma repr_list_inv h ts v :
  repr h (JList ts) v ->
  exists l vs, v = VRef l /\ h !! l = Some (OList vs) /\ Forall2 (repr h) ts vs.
Proof. inversion 1; subst; eauto. Qed.

Lemma repr_dict_inv h fs v :
  repr h (JDict fs) v ->
  exists l kvs, v = VRef l /\ h !! l = Some (ODict kvs) /\ NoDup (kvs.*1) /\
    Forall2 (fun f kv => f.1 = kv.1 /\ repr h f.2 kv.2) fs kvs.
Proof. inversion 1; subst. eexists _, _. eauto. Qed.

Lemma repr_scalar_inv h t v :
  repr h t v ->
  match v with
  | VNone => t = JNull
  | VBool b => t = JBool b
  | VInt z => t = JInt z
  | VStr s => t = JStr s
  | VRef l =>
      match h !! l with
      | Some (OList _) => exists ts, t = JList ts
      | Some (ODict _) => exists fs, t = JDict fs
      | None => False
      end
  end.
Proof.
  inversion 1 as [| | | |l vs ts E|l kvs fs E]; subst; try done; rewrite E; eauto.
Qed.

Lemma repr_functional h t1 :
  forall t2 v, repr h t1 v -> repr h t2 v -> t1 = t2.
Proof.
  induction t1 as [| | | |ts IH|fs IH] using json_ind'; intros t2 v H1 H2.
  - inversion H1; subst. by apply repr_scalar_inv in H2.
  - inversion H1; subst. by apply repr_scalar_inv in H2.
  - inversion H1; subst. by apply repr_scalar_inv in H2.
  - inversion H1; subst. by apply repr_scalar_inv in H2.
  - apply repr_list_inv in H1 as (l & vs & -> & El & F1).
    pose proof (repr_scalar_inv _ _ _ H2) as Hs. simpl in Hs. rewrite El in Hs.
    destruct Hs as [ts' ->]. f_equal.
    apply repr_list_inv in H2 as (l' & vs' & [= <-] & El' & F2).
    rewrite El in El'. injection El' as <-. clear El.
    revert ts' F2. induction F1 as [|x y xs ys Hxy _ IHa]; intros ts' F2;
      inversion F2; subst; [done|].
    apply Forall_cons in IH as [IHx IHxs]. f_equal; eauto.
  - apply repr_dict_inv in H1 as (l & kvs & -> & El & _ & F1).
    pose proof (repr_scalar_inv _ _ _ H2) as Hs. simpl in Hs. rewrite El in Hs.
    destruct Hs as [fs' ->]. f_equal.
    apply repr_dict_inv in H2 as (l' & kvs' & [= <-] & El' & _ & F2).
    rewrite El in El'. injection El' as <-. clear El.
    revert fs' F2. induction F1 as [|x y xs ys [Ek Hxy] _ IHa]; intros fs' F2;
      inversion F2 as [|x' ? xs' ? [Ek' Hxy'] ?]; subst; [done|].
    apply Forall_cons in IH as [IHx IHxs]. f_equal; [|eauto].
    destruct x, x'; simpl in *. f_equal; [congruence|eauto].
Qed.

(** Adding objects changes no meaning. *)
Lemma repr_alloc h fresh : preserves h (h ++ fresh).
Proof.
  intros t. induction t as [| | | |ts IH|fs IH] using json_ind'; intros v H.
  - inversion H; constructor.
  - inversion H; constructor.
  - inversion H; constructor.
  - inversion H; constructor.
  - apply repr_list_inv in H as (l & vs & -> & El & F).
    eapply repr_list; [by apply heap_lookup_old|]. clear El.
    induction F as [|x y xs ys Hxy _ IHa]; constructor;
      apply Forall_cons in IH as [IHx IHxs]; eauto.
  - apply repr_dict_inv in H as (l & kvs & -> & El & Hnd & F).
    eapply repr_dict; [by apply heap_lookup_old|done|].
    clear Hnd El. induction F as [|x y xs ys [Ek Hxy] _ IHa]; constructor;
      apply Forall_cons in IH as [IHx IHxs]; eauto.
Qed.

Lemma preserves_refl h : preserves h h.
Proof. by intros t v. Qed.

Lemma preserves_trans h1 h2 h3 : preserves h1 h2 -> preserves h2 h3 -> preserves h1 h3.
Proof. intros H12 H23 t v H. eauto. Qed.

Lemma Forall2_impl_l {A B} (R R' : A -> B -> Prop) (P : A -> Prop) xs ys :
  Forall2 R xs ys -> Forall P xs -> (forall x y, P x -> R x y -> R' x y) ->
  Forall2 R' xs ys.
Proof.
  intros F FP Himp. induction F as [|x y xs ys Hxy _ IH]; constructor;
    apply Forall_cons in FP as [Px Pxs]; eauto.
Qed.

Lemma Forall2_dict_store (R R' : json -> pyval -> Prop) (P : json -> Prop) k vnew :
  forall fs (kvs : pydict),
    Forall2 (fun f kv => f.1 = kv.1 /\ R f.2 kv.2) fs kvs ->
    Forall (fun f => P f.2) fs ->
    is_Some (dict_lookup k kvs) ->
    (forall t v, P t -> R t v -> R' t v) ->
    (forall t v, P t -> dict_lookup k kvs = Some v -> R t v -> R' t vnew) ->
    Forall2 (fun f kv => f.1 = kv.1 /\ R' f.2 kv.2) fs (dict_store k vnew kvs).
Proof.
  intros fs kvs F. induction F as [|f [k' v'] fs kvs [Ek Hr] F IH];
    intros FP Hsome Himp Hnew; [by destruct Hsome|].
  apply Forall_cons in FP as [Pf Pfs]. simpl in *.
  destruct (String.eqb k k') eqn:E.
  - constructor; [split; [done|]; eapply Hnew; eauto|].
    eapply Forall2_impl_l; [exact F|exact Pfs|]. intros x y Px [? ?]. eauto.
  - constructor; [split; eauto|]. apply IH; eauto.
Qed.

(** Storing under an existing key a value that stands for the same tree as
    the value it replaces changes no meaning. *)
Lemma repr_store h l (kvs : pydict) k vold vnew tk :
  h !! l = Some (ODict kvs) ->
  dict_lookup k kvs = Some vold ->
  repr h tk vold ->
  repr h tk vnew ->
  preserves h (<[l := ODict (dict_store k vnew kvs)]> h).
Proof.
  intros El Hk Hold Hnew t v. 
  assert (Hl : l < length h) by (eapply lookup_lt_Some; eauto).
  assert (Hgen : forall n t v, depth t < n -> repr h t v ->
            repr (<[l := ODict (dict_store k vnew kvs)]> h) t v); [|by eauto].
  clear t v. induction n as [|n IH]; [lia|]. intros t v Hd H.
  destruct t as [| | | |ts|fs].
  - inversion H; constructor.
  - inversion H; constructor.
  - inversion H; constructor.
  - inversion H; constructor.
  - apply repr_list_inv in H as (l0 & vs & -> & El0 & F).
    assert (l0 <> l) by congruence.
    eapply repr_list; [by rewrite list_lookup_insert_ne|].
    eapply Forall2_impl_l; [exact F| |intros x y Hx Hr; exact (IH x y Hx Hr)].
    apply Forall_forall. intros x Hx%depth_item. lia.
  - apply repr_dict_inv in H as (l0 & kvs0 & -> & El0 & Hnd & F).
    assert (FP : Forall (fun f : string * json => depth f.2 < n) fs).
    { apply Forall_forall. intros f Hf%depth_field. lia. }
    destruct (decide (l0 = l)) as [->|Hne].
    + rewrite El in El0. injection El0 as <-.
      eapply repr_dict; [by apply list_lookup_insert_eq| |].
      * rewrite dict_store_keys; eauto.
      * eapply (Forall2_dict_store (repr h) _ (fun t => depth t < n));
          [exact F|exact FP|by eauto|by eauto|].
        intros t v Ht Hv Hr. rewrite Hk in Hv. injection Hv as <-.
        rewrite (repr_functional _ _ _ _ Hr Hold) in *. eauto.
    + eapply repr_dict; [by rewrite list_lookup_insert_ne|done|].
      eapply Forall2_impl_l; [exact F|exact FP|]. intros x y Px [? ?]. eauto.
Qed.

(** ** [walk] under an action that asks for no change *)

Lemma quiet_nodes_app act ns1 ns2 :
  quiet_nodes act (ns1 ++ ns2) <-> quiet_nodes act ns1 /\ quiet_nodes act ns2.
Proof.
  unfold quiet_nodes. split.
  - intros H. split; intros n k Hn; apply H; apply elem_of_app; auto.
  - intros [H1 H2] n k [Hn|Hn]%elem_of_app; eauto.
Qed.

Lemma offers_mono h h' format meta c n :
  preserves h h' -> offers h format meta c n -> offers h' format meta c n.
Proof.
  intros Hp (Hk & Hv & Hf & Hm). repeat split; auto.
  destruct n.2; auto.
Qed.

Lemma offers_all_mono h h' format meta cs ns :
  preserves h h' -> Forall2 (offers h format meta) cs ns ->
  Forall2 (offers h' format meta) cs ns.
Proof.
  intros Hp F. eapply Forall2_impl; [exact F|]. intros c n. by apply offers_mono.
Qed.

Section quiet.
Context (act : action) (format : string) (meta : pyval) (rec : pyval -> M pyval).

Lemma walk_item_unfold item h calls :
  walk_item rec act format meta item (mkState h calls) =
  match as_dict h item with
  | Some kvs =>
      match dict_lookup "t" kvs with
      | Some t =>
          (r ← call_action act t (default VNone (dict_lookup "c" kvs)) format meta;
           match r with
           | VNone => y ← rec item; mret [y]
           | _ =>
               h' ← get_heap;
               match as_list h' r with
               | Some zs => walk_each rec zs
               | None => y ← rec r; mret [y]
               end
           end) (mkState h calls)
      | None => (y ← rec item; mret [y]) (mkState h calls)
      end
  | None => (y ← rec item; mret [y]) (mkState h calls)
  end.
Proof.
  unfold walk_item. rewrite bind_unfold. simpl.
  destruct (as_dict h item) as [kvs|]; [|reflexivity].
  destruct (dict_lookup "t" kvs); reflexivity.
Qed.

(** One element of a sequence: it is walked to one result, and it is handed
    to the action first exactly when it is a Node. *)
Lemma walk_item_quiet t h calls v :
  walks_ok format meta rec t ->
  quiet_nodes act (node_of t) ->
  repr h t v ->
  exists v' h' calls',
    walk_item rec act format meta v (mkState h calls)
      = (Ok [v'], mkState h' (calls ++ calls')) /\
    repr h' t v' /\ preserves h h' /\
    Forall2 (offers h' format meta) calls' (node_of t ++ offered t).
Proof.
  intros Hrec Hq Hr. rewrite walk_item_unfold.
  assert (Hplain : node_of t = [] ->
            exists v' h' calls',
              (y ← rec v; mret [y]) (mkState h calls)
                = (Ok [v'], mkState h' (calls ++ calls')) /\
              repr h' t v' /\ preserves h h' /\
              Forall2 (offers h' format meta) calls' (node_of t ++ offered t)).
  { intros ->. destruct (Hrec h calls v Hr) as (v' & h' & calls' & E & ? & ? & ?).
    exists v', h', calls'. erewrite bind_ok; [|exact E]. done. }
  destruct t as [| | | |ts|fs]; try (inversion Hr; subst; by apply Hplain).
  - apply repr_list_inv in Hr as Hi. destruct Hi as (l & vs & -> & El & _).
    simpl. rewrite El. by apply Hplain.
  - apply repr_dict_inv in Hr as Hi. destruct Hi as (l & kvs & -> & El & _ & F).
    simpl as_dict. rewrite El.
    pose proof (repr_field h fs kvs "t" F) as Ht.
    pose proof (repr_field h fs kvs "c" F) as Hc.
    destruct (dict_lookup "t" kvs) as [k|] eqn:Ek; destruct (field "t" fs) as [tag|] eqn:Etag;
      try done.
    2:{ apply Hplain. simpl. by rewrite Etag. }
    destruct (Hq (tag, field "c" fs) k) with
      (v := default VNone (dict_lookup "c" kvs)) (f := format) (m := meta) (h := h)
      as [fresh Eact].
    { simpl. rewrite Etag. by left. }
    { by exists h. }
    rewrite bind_unfold. unfold call_action at 1. simpl. rewrite Eact.
    assert (Hr' : repr (h ++ fresh) (JDict fs) (VRef l)) by (by apply repr_alloc).
    destruct (Hrec (h ++ fresh)
                (calls ++ [mkCall k (default VNone (dict_lookup "c" kvs)) format meta h])
                (VRef l) Hr') as (v' & h' & calls' & E & Hv' & Hp & Ho).
    exists v', h', (mkCall k (default VNone (dict_lookup "c" kvs)) format meta h :: calls').
    erewrite bind_ok; [|exact E]. split; [simpl; by rewrite <- app_assoc|].
    split; [done|].
    assert (Hp' : preserves h h') by (eapply preserves_trans; [apply repr_alloc|done]).
    split; [done|]. simpl. rewrite Etag. simpl. constructor; [|done].
    unfold offers. simpl. split; [by apply Hp'|]. split; [|done].
    destruct (field "c" fs), (dict_lookup "c" kvs); simpl; try done. by apply Hp'.
Qed.

Lemma walk_items_quiet ts :
  Forall (walks_ok format meta rec) ts ->
  quiet_on act (JList ts) ->
  forall vs h calls, Forall2 (repr h) ts vs ->
    exists outs h' calls',
      walk_items rec act format meta vs (mkState h calls)
        = (Ok outs, mkState h' (calls ++ calls')) /\
      Forall2 (repr h') ts outs /\ preserves h h' /\
      Forall2 (offers h' format meta) calls' (offered (JList ts)).
Proof.
  induction ts as [|t ts IH]; intros Hrec Hq vs h calls F.
  - inversion F; subst. exists [], h, []. rewrite app_nil_r.
    repeat split; [constructor|apply preserves_refl|constructor].
  - inversion F as [|? v ? vs' Hr F']; subst.
    apply Forall_cons in Hrec as [Hrt Hrts].
    unfold quiet_on in Hq. rewrite offered_cons in Hq.
    apply quiet_nodes_app in Hq as [Hq1 Hq2]. apply quiet_nodes_app in Hq2 as [Hq2 Hq3].
    destruct (walk_item_quiet t h calls v Hrt Hq1 Hr) as (v' & h1 & c1 & E1 & Hv' & Hp1 & Ho1).
    assert (F1 : Forall2 (repr h1) ts vs') by (eapply Forall2_impl; [exact F'|apply Hp1]).
    destruct (IH Hrts Hq3 vs' h1 (calls ++ c1) F1) as (outs & h2 & c2 & E2 & Fo & Hp2 & Ho2).
    exists (v' :: outs), h2, (c1 ++ c2). cbn [walk_items].
    erewrite bind_ok; [|exact E1]. erewrite bind_ok; [|exact E2].
    split; [by rewrite app_assoc|].
    split; [constructor; [by apply Hp2|done]|].
    split; [by eapply preserves_trans|].
    rewrite offered_cons, app_assoc. apply Forall2_app; [|done].
    by eapply offers_all_mono.
Qed.

Lemma walk_keys_quiet l fs :
  NoDup (fs.*1) ->
  forall todo, todo ⊆ fs ->
    Forall (fun f : string * json => walks_ok format meta rec f.2) todo ->
    forall h calls, repr h (JDict fs) (VRef l) ->
      exists h' calls',
        walk_keys rec (VRef l) (todo.*1) (mkState h calls)
          = (Ok tt, mkState h' (calls ++ calls')) /\
        preserves h h' /\
        Forall2 (offers h' format meta) calls' (offered (JDict todo)).
Proof.
  intros Hnd. induction todo as [|f todo IH]; intros Hsub Hrec h calls Hr.
  - exists h, []. rewrite app_nil_r. repeat split; [apply preserves_refl|constructor].
  - apply Forall_cons in Hrec as [Hrf Hrtodo].
    assert (Hf : f ∈ fs) by (apply Hsub; left).
    assert (Hsub' : todo ⊆ fs) by (intros x Hx; apply Hsub; by right).
    pose proof (field_elem f fs Hnd Hf) as Efield.
    (* the value under the key, as the loop reads it *)
    apply repr_dict_inv in Hr as Hi. destruct Hi as (l0 & kvs & [= <-] & El & _ & F).
    pose proof (repr_field h fs kvs f.1 F) as Hv. rewrite Efield in Hv.
    destruct (dict_lookup f.1 kvs) as [v|] eqn:Ev; [|done].
    destruct (Hrf h calls v Hv) as (v' & h1 & c1 & E1 & Hv' & Hp1 & Ho1).
    (* the store under the key *)
    assert (Hr1 : repr h1 (JDict fs) (VRef l)) by (by apply Hp1).
    apply repr_dict_inv in Hr1 as Hi. destruct Hi as (l0 & kvs1 & [= <-] & El1 & _ & F1).
    pose proof (repr_field h1 fs kvs1 f.1 F1) as Hv1. rewrite Efield in Hv1.
    destruct (dict_lookup f.1 kvs1) as [vold|] eqn:Ev1; [|done].
    pose proof (repr_store h1 l kvs1 f.1 vold v' f.2 El1 Ev1 Hv1 Hv') as Hp2.
    set (h2 := <[l := ODict (dict_store f.1 v' kvs1)]> h1) in *.
    destruct (IH Hsub' Hrtodo h2 (calls ++ c1)) as (h3 & c3 & E3 & Hp3 & Ho3).
    { by apply Hp2. }
    exists h3, (c1 ++ c3). rewrite fmap_cons. cbn [walk_keys].
    erewrite bind_ok; [|unfold dict_getitem; rewrite bind_unfold; simpl; by rewrite El, Ev].
    erewrite bind_ok; [|exact E1].
    erewrite bind_ok; [|unfold dict_setitem; simpl; by rewrite El1].
    fold h2. rewrite E3.
    split; [by rewrite app_assoc|].
    split; [eapply preserves_trans; [exact Hp1|]; by eapply preserves_trans|].
    rewrite offered_fields_cons. apply Forall2_app; [|done].
    eapply offers_all_mono; [|exact Ho1]. by eapply preserves_trans.
Qed.
End quiet.

Lemma walk_unfold_list n act format meta l items h calls :
  h !! l = Some (OList items) ->
  walk (S n) act format meta (VRef l) (mkState h calls) =
    (walk_items (walk n act format meta) act format meta items
       ≫= fun array => alloc (OList array)) (mkState h calls).
Proof. intros El. simpl. rewrite bind_unfold. simpl. by rewrite El. Qed.

Lemma walk_unfold_dict n act format meta l (kvs : pydict) h calls :
  h !! l = Some (ODict kvs) ->
  walk (S n) act format meta (VRef l) (mkState h calls) =
    (walk_keys (walk n act format meta) (VRef l) (kvs.*1)
       ≫= fun _ => mret (VRef l)) (mkState h calls).
Proof. intros El. simpl. rewrite bind_unfold. simpl. by rewrite El. Qed.

Lemma offered_item x ts : x ∈ ts -> node_of x ++ offered x ⊆ offered (JList ts).
Proof.
  induction 1 as [x ts|x y ts _ IH]; rewrite offered_cons; intros n Hn.
  - rewrite app_assoc. apply elem_of_app. by left.
  - apply elem_of_app. right. apply elem_of_app. right. by apply IH.
Qed.

Lemma offered_field (f : string * json) fs : f ∈ fs -> offered f.2 ⊆ offered (JDict fs).
Proof.
  induction 1 as [f fs|f g fs _ IH]; rewrite offered_fields_cons; intros n Hn;
    apply elem_of_app; [by left|right; by apply IH].
Qed.

Lemma quiet_nodes_subseteq act ns ns' :
  ns ⊆ ns' -> quiet_nodes act ns' -> quiet_nodes act ns.
Proof. intros Hsub H n k Hn. apply H. by apply Hsub. Qed.

(** With enough fuel for the depth of the tree, and an action that answers
    [None] on the tags it is offered, [walk] returns; what it returns stands
    for the same tree; and the action was handed exactly the Nodes that are
    elements of sequences, each once, in document order. *)
Lemma walk_quiet act format meta t :
  quiet_on act t -> forall fuel, depth t < fuel ->
  walks_ok format meta (walk fuel act format meta) t.
Proof.
  induction t as [| | | |ts IH|fs IH] using json_ind'; intros Hq fuel Hd;
    (destruct fuel as [|n]; [lia|]); intros h calls v Hr.
  - inversion Hr; subst. exists VNone, h, []. rewrite app_nil_r.
    repeat split; [done|apply preserves_refl|constructor].
  - inversion Hr; subst. exists (VBool b), h, []. rewrite app_nil_r.
    repeat split; [done|apply preserves_refl|constructor].
  - inversion Hr; subst. exists (VInt z), h, []. rewrite app_nil_r.
    repeat split; [done|apply preserves_refl|constructor].
  - inversion Hr; subst. exists (VStr s), h, []. rewrite app_nil_r.
    repeat split; [done|apply preserves_refl|constructor].
  - apply repr_list_inv in Hr as (l & vs & -> & El & F).
    assert (Hrec : Forall (walks_ok format meta (walk n act format meta)) ts).
    { apply Forall_forall. intros x Hx. rewrite Forall_forall in IH.
      apply IH; [done| |apply depth_item in Hx; lia].
      eapply quiet_nodes_subseteq; [|exact Hq].
      intros m Hm. apply (offered_item x ts Hx). apply elem_of_app. by right. }
    destruct (walk_items_quiet act format meta _ ts Hrec Hq vs h calls F)
      as (outs & h' & calls' & E & Fo & Hp & Ho).
    exists (VRef (length h')), (h' ++ [OList outs]), calls'.
    rewrite (walk_unfold_list _ _ _ _ _ _ _ _ El). erewrite bind_ok; [|exact E].
    split; [done|].
    split; [eapply repr_list; [apply heap_lookup_fresh|];
            eapply Forall2_impl; [exact Fo|apply repr_alloc]|].
    split; [eapply preserves_trans; [exact Hp|apply repr_alloc]|].
    eapply offers_all_mono; [apply repr_alloc|done].
  - apply repr_dict_inv in Hr as Hi. destruct Hi as (l & kvs & -> & El & Hnd & F).
    assert (Hrec : Forall (fun f : string * json =>
                             walks_ok format meta (walk n act format meta) f.2) fs).
    { apply Forall_forall. intros f Hf. rewrite Forall_forall in IH.
      apply IH; [done| |apply depth_field in Hf; lia].
      eapply quiet_nodes_subseteq; [|exact Hq]. by apply offered_field. }
    pose proof (repr_keys _ _ _ F) as Ekeys. rewrite <- Ekeys in Hnd.
    destruct (walk_keys_quiet format meta _ l fs Hnd fs (reflexivity _) Hrec h calls Hr)
      as (h' & calls' & E & Hp & Ho).
    exists (VRef l), h', calls'.
    rewrite (walk_unfold_dict _ _ _ _ _ _ _ _ El), <- Ekeys. erewrite bind_ok; [|exact E].
    split; [done|]. split; [by apply Hp|done].
Qed.

Lemma no_nodes_node_of t : no_nodes t = true -> node_of t = [].
Proof.
  destruct t as [| | | |?|fs]; try done. simpl.
  destruct (field "t" fs); [discriminate|done].
Qed.

Lemma no_nodes_offered t : no_nodes t = true -> offered t = [].
Proof.
  induction t as [| | | |ts IH|fs IH] using json_ind'; try done.
  - intros Hn. induction ts as [|x xs IHxs]; [done|].
    change (no_nodes x && no_nodes (JList xs) = true) in Hn.
    apply andb_prop in Hn as [Hx Hxs]. apply Forall_cons in IH as [IHx IH].
    by rewrite offered_cons, IHx, IHxs, no_nodes_node_of.
  - intros Hn.
    assert (Hfs : forallb (fun f : string * json => no_nodes f.2) fs = true).
    { simpl in Hn. by apply andb_prop in Hn as [_ ?]. }
    clear Hn. induction fs as [|f fs IHfs]; [done|].
    simpl in Hfs. apply andb_prop in Hfs as [Hf Hfs].
    apply Forall_cons in IH as [IHf IH]. by rewrite offered_fields_cons, IHf, IHfs.
Qed.

Lemma always_unchanged_quiet act ns : always_unchanged act -> quiet_nodes act ns.
Proof. intros H n k _ _. apply H. Qed.

(** C4.  [walk] changes nothing when nothing is rewritten, given fuel above
    the depth of the tree: (1) on a container without Nodes, whatever the
    action, it returns an object standing for the same tree and invokes
    nothing; (2) under an action that always answers [None], [walk([n])]
    stands for [[n]] again; (3) on a sequence whose Nodes the action leaves
    alone, the items of the result stand, position by position, for the
    items of the input. *)
Theorem walk_identity (act : action) (format : string) (meta : pyval) (fuel : nat)
    (h : heap) (calls : list call) (v : pyval) :
  (forall c, no_nodes c = true -> repr h c v -> depth c < fuel ->
     exists v' h',
       walk fuel act format meta v (mkState h calls) = (Ok v', mkState h' calls) /\
       repr h' c v' /\ preserves h h')
  /\ (always_unchanged act -> forall n, repr h (JList [n]) v -> depth (JList [n]) < fuel ->
      exists v' h' calls',
        walk fuel act format meta v (mkState h calls)
          = (Ok v', mkState h' (calls ++ calls')) /\
        repr h' (JList [n]) v' /\ preserves h h')
  /\ (forall ts, quiet_on act (JList ts) -> repr h (JList ts) v -> depth (JList ts) < fuel ->
      exists v' h' calls' outs,
        walk fuel act format meta v (mkState h calls)
          = (Ok v', mkState h' (calls ++ calls')) /\
        as_list h' v' = Some outs /\ Forall2 (repr h') ts outs /\ preserves h h').
Proof.
  split; [|split].
  - intros c Hn Hr Hd. pose proof (no_nodes_offered c Hn) as Eo.
    assert (Hq : quiet_on act c) by (unfold quiet_on; rewrite Eo; by intros n k ?%elem_of_nil).
    destruct (walk_quiet act format meta c Hq fuel Hd h calls v Hr)
      as (v' & h' & calls' & E & Hr' & Hp & Ho).
    rewrite Eo in Ho. inversion Ho; subst. rewrite app_nil_r in E. eauto.
  - intros Hu n Hr Hd.
    destruct (walk_quiet act format meta (JList [n]) (always_unchanged_quiet _ _ Hu)
                fuel Hd h calls v Hr) as (v' & h' & calls' & E & Hr' & Hp & _).
    eauto 6.
  - intros ts Hq Hr Hd.
    destruct (walk_quiet act format meta (JList ts) Hq fuel Hd h calls v Hr)
      as (v' & h' & calls' & E & Hr' & Hp & _).
    apply repr_list_inv in Hr' as (l & outs & -> & El & F).
    exists (VRef l), h', calls', outs. simpl. rewrite El. eauto.
Qed.

Lemma walk_identity_witness :
  exists v' h' calls' outs,
    walk 5 unchanged no_format VNone (VRef 5)
      (mkState [ODict [("t", VStr "Str"); ("c", VStr "a")]; OList [VRef 0];
                ODict [("title", VRef 1)]; OList [];
                ODict [("t", VStr "Para"); ("c", VRef 3)]; OList [VRef 4; VRef 2]] [])
      = (Ok v', mkState h' ([] ++ calls')) /\
    as_list h' v' = Some outs /\
    Forall2 (repr h') [node "Para" (JList []); titled_meta] outs /\
    preserves [ODict [("t", VStr "Str"); ("c", VStr "a")]; OList [VRef 0];
               ODict [("title", VRef 1)]; OList [];
               ODict [("t", VStr "Para"); ("c", VRef 3)]; OList [VRef 4; VRef 2]] h'.
Proof.
  apply (proj2 (proj2 (walk_identity unchanged no_format VNone 5 _ [] (VRef 5)))).
  - apply always_unchanged_quiet. intros k v f m h. by exists [].
  - repr_solve.
  - vm_compute. lia.
Defined.

(** ** Replacements *)


(** ** Loaded documents *)

Lemma dict_store_fresh k v (kvs : pydict) :
  k ∉ kvs.*1 -> dict_store k v kvs = kvs ++ [(k, v)].
Proof.
  induction kvs as [|[k' v'] rest IH]; [done|]. rewrite fmap_cons. simpl.
  intros [Hne Hnin]%not_elem_of_cons.
  apply String.eqb_neq in Hne as ->. by rewrite IH.
Qed.

(** The object [load] builds stands for the parsed tree. *)
Lemma load_repr (t : json) :
  distinct_keys t = true ->
  forall st, exists v fresh,
    load t st = (Ok v, mkState (st_heap st ++ fresh) (st_calls st)) /\
    repr (st_heap st ++ fresh) t v.
Proof.
  induction t as [| | | |items IH|fields IH] using json_ind'; intros Hd st;
    try (eexists _, []; rewrite app_nil_r; split; [by destruct st|constructor]).
  - assert (Hgo : forall st, exists vs fresh,
      (fix go (ts : list json) : M (list pyval) :=
         match ts with
         | [] => mret []
         | t' :: ts' => v ← load t'; vs ← go ts'; mret (v :: vs)
         end) items st = (Ok vs, mkState (st_heap st ++ fresh) (st_calls st)) /\
      Forall2 (repr (st_heap st ++ fresh)) items vs).
    { clear st. simpl in Hd. induction IH as [|x xs Hx _ IHxs]; intros st.
      - eexists _, []. rewrite app_nil_r. split; [by destruct st|constructor].
      - simpl in Hd. apply andb_prop in Hd as [Hdx Hdxs].
        destruct (Hx Hdx st) as (v & f1 & E1 & R1).
        destruct (IHxs Hdxs (mkState (st_heap st ++ f1) (st_calls st)))
          as (vs & f2 & E2 & R2). simpl in E2, R2.
        exists (v :: vs), (f1 ++ f2). erewrite bind_ok; [|exact E1].
        erewrite bind_ok; [|exact E2]. rewrite app_assoc. split; [done|].
        constructor; [by apply repr_alloc|done]. }
    destruct (Hgo st) as (vs & f1 & E1 & R1). eexists _, (f1 ++ [_]). simpl.
    erewrite bind_ok; [|exact E1]. unfold alloc. simpl. rewrite app_assoc.
    split; [done|]. eapply repr_list; [apply heap_lookup_fresh|].
    eapply Forall2_impl; [exact R1|apply repr_alloc].
  - simpl in Hd. apply andb_prop in Hd as [Hnd Hd]. apply bool_decide_eq_true in Hnd.
    assert (Hgo : forall acc st, (forall k, k ∈ fields.*1 -> k ∉ acc.*1) ->
      exists kvs fresh,
      (fix go (fs : list (string * json)) (acc : pydict) : M pydict :=
         match fs with
         | [] => mret acc
         | f :: fs' => v ← load f.2; go fs' (dict_store f.1 v acc)
         end) fields acc st
        = (Ok (acc ++ kvs), mkState (st_heap st ++ fresh) (st_calls st)) /\
      Forall2 (fun f kv => f.1 = kv.1 /\ repr (st_heap st ++ fresh) f.2 kv.2) fields kvs).
    { clear st. induction IH as [|x xs Hx _ IHxs]; intros acc st Hfresh.
      - eexists [], []. rewrite !app_nil_r. split; [by destruct st|constructor].
      - simpl in Hd. apply andb_prop in Hd as [Hdx Hdxs].
        rewrite fmap_cons in Hnd, Hfresh. apply NoDup_cons in Hnd as [Hx1 Hnd].
        destruct (Hx Hdx st) as (v & f1 & E1 & R1).
        destruct (IHxs Hnd Hdxs (dict_store x.1 v acc)
                    (mkState (st_heap st ++ f1) (st_calls st)))
          as (kvs & f2 & E2 & R2).
        { intros k Hk. rewrite dict_store_fresh by (apply Hfresh; left).
          rewrite fmap_app. simpl. intros [Hin|Hin%list_elem_of_singleton]%elem_of_app.
          - revert Hin. apply Hfresh. by right.
          - by subst k. }
        simpl in E2, R2. rewrite dict_store_fresh in E2 by (apply Hfresh; left).
        exists ((x.1, v) :: kvs), (f1 ++ f2). erewrite bind_ok; [|exact E1].
        rewrite dict_store_fresh by (apply Hfresh; left).
        rewrite E2, <- !app_assoc. split; [done|].
        rewrite app_assoc. constructor; [|done]. split; [done|]. by apply repr_alloc. }
    destruct (Hgo [] st) as (kvs & f1 & E1 & R1); [by intros k _ ?%elem_of_nil|].
    eexists _, (f1 ++ [_]). simpl.
    erewrite bind_ok; [|exact E1]. unfold alloc. simpl. rewrite app_assoc.
    split; [done|]. eapply repr_dict; [apply heap_lookup_fresh| |].
    + by rewrite <- (repr_keys _ _ _ R1).
    + eapply Forall2_impl; [exact R1|]. intros f kv [? ?]. split; [done|].
      by apply repr_alloc.
Qed.

(** One pass over a document just loaded, with an action that asks for no
    change: it returns, the document stands for the same tree, and the
    action saw the sequence-element Nodes in document order. *)
Corollary walk_loaded (act : action) (format : string) (meta : pyval) (t : json)
    (st : state) :
  distinct_keys t = true ->
  quiet_on act t ->
  exists v st1 v' h' calls',
    load t st = (Ok v, st1) /\
    walk (S (depth t)) act format meta v st1
      = (Ok v', mkState h' (st_calls st ++ calls')) /\
    repr h' t v' /\
    Forall2 (offers h' format meta) calls' (offered t).
Proof.
  intros Hd Hq. destruct (load_repr t Hd st) as (v & fresh & E & Hr).
  destruct (walk_quiet act format meta t Hq (S (depth t)) (Nat.lt_succ_diag_r _)
              (st_heap st ++ fresh) (st_calls st) v Hr)
    as (v' & h' & calls' & Ew & Hr' & _ & Ho).
  eauto 10.
Qed.

(* ===================================================================== *)
(** * Part III. Further properties of the code                            *)
(* ===================================================================== *)

(** ** What [walk] does to the store, and what it raises *)

Lemma evolves_refl h : evolves h h.
Proof.
  split; [done|]. intros l. destruct (h !! l) as [[items|kvs]|]; eauto.
Qed.

Lemma evolves_trans h1 h2 h3 : evolves h1 h2 -> evolves h2 h3 -> evolves h1 h3.
Proof.
  intros [L12 H12] [L23 H23]. split; [lia|]. intros l.
  specialize (H12 l). specialize (H23 l).
  destruct (h1 !! l) as [[items|kvs]|]; [| |done].
  - by rewrite H12 in H23.
  - destruct H12 as (kvs2 & E2 & K2). rewrite E2 in H23.
    destruct H23 as (kvs3 & E3 & K3). exists kvs3. split; [done|congruence].
Qed.

Lemma evolves_alloc h fresh : evolves h (h ++ fresh).
Proof.
  split; [rewrite length_app; lia|]. intros l.
  destruct (h !! l) as [[items|kvs]|] eqn:E; [| |done].
  - by apply heap_lookup_old.
  - exists kvs. split; [by apply heap_lookup_old|done].
Qed.

Lemma dict_lookup_is_Some k (kvs : list (string * pyval)) :
  is_Some (dict_lookup k kvs) <-> k ∈ kvs.*1.
Proof.
  induction kvs as [|[k' v] rest IH]; simpl.
  - split; [by intros [? ?]|by intros ?%elem_of_nil].
  - rewrite elem_of_cons. destruct (String.eqb_spec k k') as [->|Hne].
    + split; eauto.
    + rewrite IH. split; [by right|by intros [?|?]].
Qed.

Lemma evolves_store h l (kvs : list (string * pyval)) k v :
  h !! l = Some (ODict kvs) -> k ∈ kvs.*1 ->
  evolves h (<[l := ODict (dict_store k v kvs)]> h).
Proof.
  intros El Hk. split; [by rewrite length_insert|]. intros l'.
  destruct (decide (l' = l)) as [->|Hne].
  - rewrite El. eexists. split.
    + apply list_lookup_insert_eq. by eapply lookup_lt_Some.
    + apply dict_store_keys. by apply dict_lookup_is_Some.
  - rewrite list_lookup_insert_ne by done.
    destruct (h !! l') as [[items|kvs']|]; eauto.
Qed.

Lemma disciplined_app act {A} (r : res A) c1 c2 :
  Forall (answered act) c1 -> disciplined act r c2 -> disciplined act r (c1 ++ c2).
Proof.
  intros F1 D2. destruct r as [a|e|]; simpl in *; [by apply Forall_app_2| |by apply Forall_app_2].
  destruct D2 as (msg & cs0 & c & -> & -> & F0 & Hc).
  exists msg, (c1 ++ cs0), c. rewrite app_assoc.
  repeat split; [by apply Forall_app_2|done].
Qed.

Section tidy.
Context (act : action).

Lemma tidy_ret {A} (a : A) : tidy act (mret a).
Proof.
  intros st. split; [apply evolves_refl|]. exists []. rewrite app_nil_r.
  split; [done|constructor].
Qed.

Lemma tidy_diverge {A} : tidy act (diverge : M A).
Proof.
  intros st. split; [apply evolves_refl|]. exists []. rewrite app_nil_r.
  split; [done|constructor].
Qed.

Lemma tidy_get_heap : tidy act get_heap.
Proof.
  intros st. split; [apply evolves_refl|]. exists []. rewrite app_nil_r.
  split; [done|constructor].
Qed.

Lemma tidy_alloc o : tidy act (alloc o).
Proof.
  intros st. split; [apply evolves_alloc|]. exists []. rewrite app_nil_r.
  split; [done|constructor].
Qed.

Lemma tidy_bind {A B} (m : M A) (f : A -> M B) :
  tidy act m -> (forall a, tidy act (f a)) -> tidy act (m ≫= f).
Proof.
  intros Hm Hf st. rewrite bind_unfold.
  destruct (Hm st) as [Ev1 (c1 & E1 & D1)].
  destruct (m st) as [[a|e|] st1] eqn:E; simpl in *.
  - destruct (Hf a st1) as [Ev2 (c2 & E2 & D2)].
    split; [by eapply evolves_trans|].
    exists (c1 ++ c2). rewrite E2, E1, app_assoc. split; [done|].
    by apply disciplined_app.
  - split; [done|]. exists c1. done.
  - split; [done|]. exists c1. done.
Qed.

Lemma tidy_call_action key value format meta :
  tidy act (call_action act key value format meta).
Proof.
  intros [h calls]. unfold call_action. simpl.
  destruct (act key value format meta h) as [r fresh|msg] eqn:E; simpl.
  - split; [apply evolves_alloc|]. eexists [_]. split; [done|].
    constructor; [|constructor]. by exists r, fresh.
  - split; [apply evolves_refl|]. eexists [_]. split; [done|].
    eexists msg, [], _. repeat split; [constructor|exact E].
Qed.

Lemma tidy_walk_each rec items :
  (forall v, tidy act (rec v)) -> tidy act (walk_each rec items).
Proof.
  intros Hrec. induction items as [|z rest IH]; simpl; [apply tidy_ret|].
  apply tidy_bind; [done|]. intros y.
  apply tidy_bind; [done|]. intros ys. apply tidy_ret.
Qed.

Lemma tidy_walk_item rec format meta item :
  (forall v, tidy act (rec v)) -> tidy act (walk_item rec act format meta item).
Proof.
  intros Hrec.
  assert (Hone : forall v, tidy act (y ← rec v; mret [y])).
  { intros v. apply tidy_bind; [done|]. intros y. apply tidy_ret. }
  unfold walk_item. apply tidy_bind; [apply tidy_get_heap|]. intros h.
  destruct (as_dict h item) as [kvs|]; [|done].
  destruct (dict_lookup "t" kvs) as [t|]; [|done].
  apply tidy_bind; [apply tidy_call_action|]. intros r.
  assert (Hr : tidy act (h' ← get_heap;
                         match as_list h' r with
                         | Some zs => walk_each rec zs
                         | None => y ← rec r; mret [y]
                         end)).
  { apply tidy_bind; [apply tidy_get_heap|]. intros h'.
    destruct (as_list h' r); [by apply tidy_walk_each|done]. }
  destruct r; done.
Qed.

Lemma tidy_walk_items rec format meta items :
  (forall v, tidy act (rec v)) -> tidy act (walk_items rec act format meta items).
Proof.
  intros Hrec. induction items as [|item rest IH]; simpl; [apply tidy_ret|].
  apply tidy_bind; [by apply tidy_walk_item|]. intros ys.
  apply tidy_bind; [done|]. intros out. apply tidy_ret.
Qed.

(** The loop over the keys of the dict at [l]: every key it stores under is
    a key the dict has, so neither the lookup nor the store can fail. *)
Lemma tidy_walk_keys rec l keys :
  (forall v, tidy act (rec v)) ->
  forall st (kvs : list (string * pyval)),
    st_heap st !! l = Some (ODict kvs) -> keys ⊆ kvs.*1 ->
    evolves (st_heap st) (st_heap (walk_keys rec (VRef l) keys st).2) /\
    exists cs,
      st_calls (walk_keys rec (VRef l) keys st).2 = st_calls st ++ cs /\
      disciplined act (walk_keys rec (VRef l) keys st).1 cs.
Proof.
  intros Hrec. induction keys as [|k rest IH]; intros st kvs El Hsub.
  - apply (tidy_ret tt).
  - assert (Hk : k ∈ kvs.*1) by (apply Hsub; left).
    assert (Hrest : rest ⊆ kvs.*1) by (intros x Hx; apply Hsub; by right).
    destruct (proj2 (dict_lookup_is_Some k kvs) Hk) as [v Ev].
    cbn [walk_keys]. destruct st as [h calls]. simpl in El.
    erewrite bind_ok; [|unfold dict_getitem; rewrite bind_unfold; simpl; by rewrite El, Ev].
    rewrite bind_unfold.
    destruct (Hrec v (mkState h calls)) as [Ev1 (c1 & E1 & D1)].
    destruct (rec v (mkState h calls)) as [[v'|e|] [h1 calls1]] eqn:Er; simpl in *;
      [|split; [done|]; by exists c1..].
    pose proof (proj2 Ev1 l) as K1.
    rewrite El in K1. destruct K1 as (kvs1' & El1' & K1').
    rewrite bind_unfold. unfold dict_setitem at 1. simpl. rewrite El1'.
    assert (Hk1 : k ∈ kvs1'.*1) by (by rewrite K1').
    pose proof (evolves_store h1 l kvs1' k v' El1' Hk1) as Ev2.
    set (h2 := <[l := ODict (dict_store k v' kvs1')]> h1) in *.
    destruct (IH (mkState h2 calls1) (dict_store k v' kvs1')) as [Ev3 (c3 & E3 & D3)].
    { simpl. unfold h2. apply list_lookup_insert_eq. by eapply lookup_lt_Some. }
    { rewrite dict_store_keys by (by apply dict_lookup_is_Some). by rewrite K1'. }
    simpl in *. split.
    + eapply evolves_trans; [exact Ev1|]. by eapply evolves_trans.
    + exists (c1 ++ c3). subst calls1. rewrite E3, app_assoc. split; [done|].
      by apply disciplined_app.
Qed.

Lemma tidy_walk fuel format meta tree : tidy act (walk fuel act format meta tree).
Proof.
  revert tree. induction fuel as [|n IH]; intros tree; [apply tidy_diverge|].
  destruct tree as [|b|z|s|l];
    [intros st; exact (tidy_ret VNone st)|intros st; exact (tidy_ret (VBool b) st)
    |intros st; exact (tidy_ret (VInt z) st)|intros st; exact (tidy_ret (VStr s) st)|].
  intros [h calls]. destruct (h !! l) as [[items|kvs]|] eqn:El.
  - rewrite (walk_unfold_list _ _ _ _ _ _ _ _ El).
    apply (tidy_bind _ (fun array => alloc (OList array))
             (tidy_walk_items _ format meta items IH) (fun a => tidy_alloc _)).
  - rewrite (walk_unfold_dict _ _ _ _ _ _ _ _ El). rewrite bind_unfold.
    destruct (tidy_walk_keys (walk n act format meta) l (kvs.*1) IH
                (mkState h calls) kvs El (reflexivity _)) as [Ev (cs & E & D)].
    destruct (walk_keys (walk n act format meta) (VRef l) (kvs.*1) (mkState h calls))
      as [[[]|e|] st1]; simpl in *; split; eauto.
  - assert (E : walk (S n) act format meta (VRef l) (mkState h calls)
                = (Ok (VRef l), mkState h calls)).
    { simpl. rewrite bind_unfold. simpl. by rewrite El. }
    rewrite E. apply (tidy_ret (VRef l) (mkState h calls)).
Qed.
End tidy.

(** X1.  Whatever the tree, the action and the outcome (a result, an
    exception, an exhausted budget), [walk] leaves the shape of the store
    alone: it only adds objects and puts new values under keys a dict
    already has.  No list object is ever changed, and no dict gains, loses
    or reorders a key. *)
Theorem walk_keeps_store_shape (fuel : nat) (act : action) (format : string)
    (meta tree : pyval) (st : state) :
  evolves (st_heap st) (st_heap (walk fuel act format meta tree st).2).
Proof. apply tidy_walk. Qed.

(** X2.  [walk] has no error of its own.  Its invocations of the action
    are all answered, except that when [walk] raises, what it raises is the
    failure of the last invocation: the first failure of the action ends the
    traversal and reaches the caller unchanged. *)
Theorem walk_raises_only_action_failures (fuel : nat) (act : action) (format : string)
    (meta tree : pyval) (st : state) :
  exists cs,
    st_calls (walk fuel act format meta tree st).2 = st_calls st ++ cs /\
    disciplined act (walk fuel act format meta tree st).1 cs.
Proof. apply tidy_walk. Qed.

(** X3.  [format] and [meta] are passed through untouched: every
    invocation made during [walk(tree, action, format, meta)], at any
    depth and also on replacement values, is handed exactly these two. *)
Theorem walk_passes_format_and_meta (fuel : nat) (act : action) (format : string)
    (meta tree : pyval) (st : state) :
  exists cs,
    st_calls (walk fuel act format meta tree st).2 = st_calls st ++ cs /\
    Forall (fun c => c_format c = format /\ c_meta c = meta) cs.
Proof.
  destruct (keeps_walk act format meta fuel tree st) as [_ (cs & E & F)].
  exists cs. split; [done|]. eapply Forall_impl; [exact F|]. by intros c [? ?].
Qed.

(** ** [toJSONFilters] and [applyJSONFilters] on unusual input *)

Lemma keeps_run_actions_format fuel actions format meta doc :
  keeps (fun c => c_format c = format) (run_actions fuel actions format meta doc).
Proof.
  revert doc. induction actions as [|act rest IH]; intros doc; simpl; [apply keeps_ret|].
  apply keeps_bind; [|done].
  eapply keeps_weaken; [|apply keeps_walk]. by intros c [_ ?].
Qed.

(** X4.  [toJSONFilters] hands every action, in every pass, the format
    [sys.argv[1]], or the empty string when the command line has no
    argument; and it never reaches [sys.stdout.write]. *)
Theorem toJSONFilters_format (json_loads : string -> option json) (fuel : nat)
    (actions : list action) (stdin : string) (argv : list string) (st : state) :
  returned (toJSONFilters json_loads fuel actions stdin argv st).1 = false /\
  exists cs,
    st_calls (toJSONFilters json_loads fuel actions stdin argv st).2 = st_calls st ++ cs /\
    Forall (fun c => c_format c = default EmptyString (argv !! 1)) cs.
Proof.
  unfold toJSONFilters.
  assert (Ef : match argv with _ :: f :: _ => f | _ => EmptyString end
               = default EmptyString (argv !! 1)) by (by destruct argv as [|? [|? ?]]).
  rewrite Ef. set (format := default EmptyString (argv !! 1)).
  split.
  - destruct (json_loads stdin) as [t|] eqn:Hl.
    + destruct (applyJSONFilters_loaded json_loads fuel actions stdin format t st Hl)
        as (doc & fresh & _ & ->).
      destruct (as_dict _ doc); [apply then_raise_not_returned|reflexivity].
    + unfold applyJSONFilters. by rewrite Hl.
  - destruct (json_loads stdin) as [t|] eqn:Hl.
    + destruct (applyJSONFilters_loaded json_loads fuel actions stdin format t st Hl)
        as (doc & fresh & _ & ->).
      destruct (as_dict _ doc) as [kvs|]; [|exists []; by rewrite app_nil_r].
      assert (K : keeps (fun c => c_format c = format)
                    (run_actions fuel actions format
                       (default (VRef (length (st_heap st ++ fresh)))
                          (dict_lookup "meta" kvs)) doc
                       ≫= fun _ => (raise (NameError "altered") : M string))).
      { apply keeps_bind; [apply keeps_run_actions_format|]. intros _. by apply keeps_raise. }
      exact (proj2 (K _)).
    + unfold applyJSONFilters. rewrite Hl. exists []. by rewrite app_nil_r.
Qed.

Lemma load_not_dict (t : json) :
  (forall fs, t <> JDict fs) ->
  forall st v st1, load t st = (Ok v, st1) -> as_dict (st_heap st1) v = None.
Proof.
  intros Hnd st v st1 E. destruct t as [| | | |items|fs]; try (by injection E as <- _).
  - simpl in E. apply bind_inv_ok in E as (vs & st0 & _ & E).
    unfold alloc in E. injection E as <- <-. simpl. by rewrite heap_lookup_fresh.
  - by destruct (Hnd fs).
Qed.

(** X5.  A source that parses to anything but a mapping (a list, a
    string, a number, [null]) makes [applyJSONFilters] raise
    [AttributeError] at [doc.get], before any action is invoked. *)
Theorem applyJSONFilters_not_an_object (json_loads : string -> option json) (fuel : nat)
    (actions : list action) (source format : string) (st : state) (t : json) :
  json_loads source = Some t ->
  (forall fs, t <> JDict fs) ->
  (applyJSONFilters json_loads fuel actions source format st).1
    = Raise (AttributeError "get") /\
  st_calls (applyJSONFilters json_loads fuel actions source format st).2 = st_calls st.
Proof.
  intros Hl Hnd.
  destruct (applyJSONFilters_loaded json_loads fuel actions source format t st Hl)
    as (doc & fresh & El & ->).
  pose proof (load_not_dict t Hnd _ _ _ El) as Ed. simpl in Ed. by rewrite Ed.
Qed.

Lemma applyJSONFilters_not_an_object_witness :
  (applyJSONFilters (fun _ => Some (JList [node "Para" (JList [])])) 5 [unchanged]
     "[...]" no_format init).1 = Raise (AttributeError "get") /\
  st_calls (applyJSONFilters (fun _ => Some (JList [node "Para" (JList [])])) 5 [unchanged]
              "[...]" no_format init).2 = st_calls init.
Proof.
  apply (applyJSONFilters_not_an_object _ 5 [unchanged] "[...]" no_format init
           (JList [node "Para" (JList [])]) eq_refl).
  intros fs. discriminate.
Defined.

(** ** [walk] under an action that answers [None] on what it is handed *)

Lemma calm_nodes_app act format meta ns1 ns2 :
  calm_nodes act format meta (ns1 ++ ns2) <->
  calm_nodes act format meta ns1 /\ calm_nodes act format meta ns2.
Proof.
  unfold calm_nodes. split.
  - intros H. split; intros n k v h Hn; apply H; apply elem_of_app; auto.
  - intros [H1 H2] n k v h [Hn|Hn]%elem_of_app; eauto.
Qed.

Lemma calm_nodes_subseteq act format meta ns ns' :
  ns ⊆ ns' -> calm_nodes act format meta ns' -> calm_nodes act format meta ns.
Proof. intros Hsub H n k v h Hn. apply H. by apply Hsub. Qed.

Section calm.
Context (act : action) (format : string) (meta : pyval) (rec : pyval -> M pyval).

Lemma walk_item_calm t h calls v :
  walks_calmly format meta rec t ->
  calm_nodes act format meta (node_of t) ->
  repr h t v ->
  exists v' h' calls',
    walk_item rec act format meta v (mkState h calls)
      = (Ok [v'], mkState h' (calls ++ calls')) /\
    repr h' t v' /\ preserves h h' /\
    Forall2 (fun c n => offers (c_heap c) format meta c n) calls' (node_of t ++ offered t).
Proof.
  intros Hrec Hq Hr. rewrite walk_item_unfold.
  assert (Hplain : node_of t = [] ->
            exists v' h' calls',
              (y ← rec v; mret [y]) (mkState h calls)
                = (Ok [v'], mkState h' (calls ++ calls')) /\
              repr h' t v' /\ preserves h h' /\
              Forall2 (fun c n => offers (c_heap c) format meta c n) calls'
                (node_of t ++ offered t)).
  { intros ->. destruct (Hrec h calls v Hr) as (v' & h' & calls' & E & ? & ? & ?).
    exists v', h', calls'. erewrite bind_ok; [|exact E]. done. }
  destruct t as [| | | |ts|fs]; try (inversion Hr; subst; by apply Hplain).
  - apply repr_list_inv in Hr as Hi. destruct Hi as (l & vs & -> & El & _).
    simpl. rewrite El. by apply Hplain.
  - apply repr_dict_inv in Hr as Hi. destruct Hi as (l & kvs & -> & El & _ & F).
    simpl as_dict. rewrite El.
    pose proof (repr_field h fs kvs "t" F) as Ht.
    pose proof (repr_field h fs kvs "c" F) as Hc.
    destruct (dict_lookup "t" kvs) as [k|] eqn:Ek; destruct (field "t" fs) as [tag|] eqn:Etag;
      try done.
    2:{ apply Hplain. simpl. by rewrite Etag. }
    assert (Hcontent : match field "c" fs with
                       | Some ct => repr h ct (default VNone (dict_lookup "c" kvs))
                       | None => default VNone (dict_lookup "c" kvs) = VNone
                       end).
    { destruct (field "c" fs), (dict_lookup "c" kvs); simpl; done. }
    destruct (Hq (tag, field "c" fs) k (default VNone (dict_lookup "c" kvs)) h)
      as [fresh Eact]; [simpl; rewrite Etag; by left|done|done|].
    rewrite bind_unfold. unfold call_action at 1. simpl. rewrite Eact.
    assert (Hr' : repr (h ++ fresh) (JDict fs) (VRef l)) by (by apply repr_alloc).
    destruct (Hrec (h ++ fresh)
                (calls ++ [mkCall k (default VNone (dict_lookup "c" kvs)) format meta h])
                (VRef l) Hr') as (v' & h' & calls' & E & Hv' & Hp & Ho).
    exists v', h', (mkCall k (default VNone (dict_lookup "c" kvs)) format meta h :: calls').
    erewrite bind_ok; [|exact E]. split; [simpl; by rewrite <- app_assoc|].
    split; [done|].
    split; [eapply preserves_trans; [apply repr_alloc|done]|].
    simpl. rewrite Etag. simpl. constructor; [|done].
    unfold offers. simpl. done.
Qed.

Lemma walk_items_calm ts :
  Forall (walks_calmly format meta rec) ts ->
  calm_on act format meta (JList ts) ->
  forall vs h calls, Forall2 (repr h) ts vs ->
    exists outs h' calls',
      walk_items rec act format meta vs (mkState h calls)
        = (Ok outs, mkState h' (calls ++ calls')) /\
      Forall2 (repr h') ts outs /\ preserves h h' /\
      Forall2 (fun c n => offers (c_heap c) format meta c n) calls' (offered (JList ts)).
Proof.
  induction ts as [|t ts IH]; intros Hrec Hq vs h calls F.
  - inversion F; subst. exists [], h, []. rewrite app_nil_r.
    repeat split; [constructor|apply preserves_refl|constructor].
  - inversion F as [|? v ? vs' Hr F']; subst.
    apply Forall_cons in Hrec as [Hrt Hrts].
    unfold calm_on in Hq. rewrite offered_cons in Hq.
    apply calm_nodes_app in Hq as [Hq1 Hq2]. apply calm_nodes_app in Hq2 as [Hq2 Hq3].
    destruct (walk_item_calm t h calls v Hrt Hq1 Hr) as (v' & h1 & c1 & E1 & Hv' & Hp1 & Ho1).
    assert (F1 : Forall2 (repr h1) ts vs') by (eapply Forall2_impl; [exact F'|apply Hp1]).
    destruct (IH Hrts Hq3 vs' h1 (calls ++ c1) F1) as (outs & h2 & c2 & E2 & Fo & Hp2 & Ho2).
    exists (v' :: outs), h2, (c1 ++ c2). cbn [walk_items].
    erewrite bind_ok; [|exact E1]. erewrite bind_ok; [|exact E2].
    split; [by rewrite app_assoc|].
    split; [constructor; [by apply Hp2|done]|].
    split; [by eapply preserves_trans|].
    rewrite offered_cons, app_assoc. by apply Forall2_app.
Qed.

Lemma walk_keys_calm l fs :
  NoDup (fs.*1) ->
  forall todo, todo ⊆ fs ->
    Forall (fun f : string * json => walks_calmly format meta rec f.2) todo ->
    forall h calls, repr h (JDict fs) (VRef l) ->
      exists h' calls',
        walk_keys rec (VRef l) (todo.*1) (mkState h calls)
          = (Ok tt, mkState h' (calls ++ calls')) /\
        preserves h h' /\
        Forall2 (fun c n => offers (c_heap c) format meta c n) calls' (offered (JDict todo)).
Proof.
  intros Hnd. induction todo as [|f todo IH]; intros Hsub Hrec h calls Hr.
  - exists h, []. rewrite app_nil_r. repeat split; [apply preserves_refl|constructor].
  - apply Forall_cons in Hrec as [Hrf Hrtodo].
    assert (Hf : f ∈ fs) by (apply Hsub; left).
    assert (Hsub' : todo ⊆ fs) by (intros x Hx; apply Hsub; by right).
    pose proof (field_elem f fs Hnd Hf) as Efield.
    apply repr_dict_inv in Hr as Hi. destruct Hi as (l0 & kvs & [= <-] & El & _ & F).
    pose proof (repr_field h fs kvs f.1 F) as Hv. rewrite Efield in Hv.
    destruct (dict_lookup f.1 kvs) as [v|] eqn:Ev; [|done].
    destruct (Hrf h calls v Hv) as (v' & h1 & c1 & E1 & Hv' & Hp1 & Ho1).
    assert (Hr1 : repr h1 (JDict fs) (VRef l)) by (by apply Hp1).
    apply repr_dict_inv in Hr1 as Hi. destruct Hi as (l0 & kvs1 & [= <-] & El1 & _ & F1).
    pose proof (repr_field h1 fs kvs1 f.1 F1) as Hv1. rewrite Efield in Hv1.
    destruct (dict_lookup f.1 kvs1) as [vold|] eqn:Ev1; [|done].
    pose proof (repr_store h1 l kvs1 f.1 vold v' f.2 El1 Ev1 Hv1 Hv') as Hp2.
    set (h2 := <[l := ODict (dict_store f.1 v' kvs1)]> h1) in *.
    destruct (IH Hsub' Hrtodo h2 (calls ++ c1)) as (h3 & c3 & E3 & Hp3 & Ho3).
    { by apply Hp2. }
    exists h3, (c1 ++ c3). rewrite fmap_cons. cbn [walk_keys].
    erewrite bind_ok; [|unfold dict_getitem; rewrite bind_unfold; simpl; by rewrite El, Ev].
    erewrite bind_ok; [|exact E1].
    erewrite bind_ok; [|unfold dict_setitem; simpl; by rewrite El1].
    fold h2. rewrite E3.
    split; [by rewrite app_assoc|].
    split; [eapply preserves_trans; [exact Hp1|]; by eapply preserves_trans|].
    rewrite offered_fields_cons. by apply Forall2_app.
Qed.
End calm.

Lemma walk_calm act format meta t :
  calm_on act format meta t -> forall fuel, depth t < fuel ->
  walks_calmly format meta (walk fuel act format meta) t.
Proof.
  induction t as [| | | |ts IH|fs IH] using json_ind'; intros Hq fuel Hd;
    (destruct fuel as [|n]; [lia|]); intros h calls v Hr.
  - inversion Hr; subst. exists VNone, h, []. rewrite app_nil_r.
    repeat split; [done|apply preserves_refl|constructor].
  - inversion Hr; subst. exists (VBool b), h, []. rewrite app_nil_r.
    repeat split; [done|apply preserves_refl|constructor].
  - inversion Hr; subst. exists (VInt z), h, []. rewrite app_nil_r.
    repeat split; [done|apply preserves_refl|constructor].
  - inversion Hr; subst. exists (VStr s), h, []. rewrite app_nil_r.
    repeat split; [done|apply preserves_refl|constructor].
  - apply repr_list_inv in Hr as (l & vs & -> & El & F).
    assert (Hrec : Forall (walks_calmly format meta (walk n act format meta)) ts).
    { apply Forall_forall. intros x Hx. rewrite Forall_forall in IH.
      apply IH; [done| |apply depth_item in Hx; lia].
      eapply calm_nodes_subseteq; [|exact Hq].
      intros m Hm. apply (offered_item x ts Hx). apply elem_of_app. by right. }
    destruct (walk_items_calm act format meta _ ts Hrec Hq vs h calls F)
      as (outs & h' & calls' & E & Fo & Hp & Ho).
    exists (VRef (length h')), (h' ++ [OList outs]), calls'.
    rewrite (walk_unfold_list _ _ _ _ _ _ _ _ El). erewrite bind_ok; [|exact E].
    split; [done|].
    split; [eapply repr_list; [apply heap_lookup_fresh|];
            eapply Forall2_impl; [exact Fo|apply repr_alloc]|].
    split; [eapply preserves_trans; [exact Hp|apply repr_alloc]|done].
  - apply repr_dict_inv in Hr as Hi. destruct Hi as (l & kvs & -> & El & Hnd & F).
    assert (Hrec : Forall (fun f : string * json =>
                             walks_calmly format meta (walk n act format meta) f.2) fs).
    { apply Forall_forall. intros f Hf. rewrite Forall_forall in IH.
      apply IH; [done| |apply depth_field in Hf; lia].
      eapply calm_nodes_subseteq; [|exact Hq]. by apply offered_field. }
    pose proof (repr_keys _ _ _ F) as Ekeys. rewrite <- Ekeys in Hnd.
    destruct (walk_keys_calm format meta _ l fs Hnd fs (reflexivity _) Hrec h calls Hr)
      as (h' & calls' & E & Hp & Ho).
    exists (VRef l), h', calls'.
    rewrite (walk_unfold_dict _ _ _ _ _ _ _ _ El), <- Ekeys. erewrite bind_ok; [|exact E].
    split; [done|]. split; [by apply Hp|done].
Qed.

(** ** [stringify] *)

Lemma go_fragment_spec h n k v :
  node_ok n = true ->
  repr h n.1 k ->
  match n.2 with Some ct => repr h ct v | None => v = VNone end ->
  match go_fragment h k v with
  | Some (Some x) => x = VStr (node_text n)
  | Some None => node_text n = EmptyString
  | None => False
  end.
Proof.
  destruct n as [tag content]. unfold node_ok, node_text, go_fragment. simpl.
  intros Hok Hk Hv.
  destruct tag as [| | |tag| |]; try (inversion Hk; subst; done).
  inversion Hk; subst. simpl.
  destruct (String.eqb tag "Str" || String.eqb tag "MetaString") eqn:E1.
  { destruct content as [[| | |s| |]|]; try done. by inversion Hv. }
  apply orb_false_elim in E1 as [E1a E1b]. rewrite ?E1a, ?E1b. simpl.
  assert (Hitem : String.eqb tag "Code" || String.eqb tag "Math" = true ->
            Some <$> item_at h v 1 = Some (Some (VStr (
              match content with Some (JList (_ :: JStr s :: _)) => s | _ => EmptyString end)))).
  { intros E2. rewrite E2 in Hok.
    destruct content as [[| | | |[|a [|[| | |s| |] rest]]|]|]; try done.
    apply repr_list_inv in Hv as (l & vs & -> & El & F).
    inversion F as [|? va ? vs1 _ F1]; subst.
    inversion F1 as [|? vb ? vs2 Hb _]; subst. inversion Hb; subst.
    simpl. by rewrite El. }
  destruct (String.eqb tag "Code") eqn:E2; [by rewrite Hitem|].
  destruct (String.eqb tag "Math") eqn:E3; [by rewrite Hitem|]. simpl.
  destruct (String.eqb tag "LineBreak"); [done|].
  destruct (String.eqb tag "SoftBreak"); [done|].
  by destruct (String.eqb tag "Space").
Qed.

Lemma go_calm meta t : forallb node_ok (offered t) = true -> calm_on go EmptyString meta t.
Proof.
  intros Hok n k v h Hn Hk Hv. rewrite forallb_forall in Hok.
  pose proof (go_fragment_spec h n k v (Hok n (proj1 (list_elem_of_In _ _) Hn)) Hk Hv) as Hg.
  unfold go. destruct (go_fragment h k v); [by exists []|done].
Qed.

Lemma join_appended format meta cs ns st :
  Forall2 (fun c n => offers (c_heap c) format meta c n) cs ns ->
  forallb node_ok ns = true ->
  join_strs (appended cs) st
    = (Ok (foldr (fun n r => node_text n +:+ r) EmptyString ns), st).
Proof.
  induction 1 as [|c n cs ns (Hk & Hv & _) _ IH]; intros Hok; [done|].
  simpl in Hok. apply andb_prop in Hok as [Hn Hns]. specialize (IH Hns).
  pose proof (go_fragment_spec (c_heap c) n (c_key c) (c_value c) Hn Hk Hv) as Hg.
  unfold appended in *. cbn [flat_map foldr].
  destruct (go_fragment (c_heap c) (c_key c) (c_value c)) as [[x|]|]; [| |done].
  - subst x. cbn [app join_strs]. erewrite bind_ok; [|exact IH]. done.
  - rewrite Hg. exact IH.
Qed.

(** X6.  On an object standing for a tree whose text Nodes hold strings
    and whose code and math Nodes hold a string as second item, with fuel
    above the depth of the tree, [stringify] returns the concatenation, in
    document order, of the texts of the Nodes that are elements of a
    sequence ([Str], [MetaString], [Code], [Math] give their string, the
    three kinds of break a space, everything else nothing).  A Node that is
    the root or a mapping value contributes nothing itself.  The object
    still stands for the same tree afterwards. *)
Theorem stringify_plain_text (fuel : nat) (t : json) (v : pyval) (h : list pyobj)
    (calls : list call) :
  repr h t v ->
  depth t < fuel ->
  forallb node_ok (offered t) = true ->
  exists h' cs,
    stringify fuel v (mkState h calls) = (Ok (plain_text t), mkState h' (calls ++ cs)) /\
    repr h' t v /\ preserves h h' /\ length cs = length (offered t).
Proof.
  intros Hr Hd Hok.
  destruct (walk_calm go EmptyString (VRef (length h)) t (go_calm _ t Hok) fuel Hd
              (h ++ [ODict []]) calls v (repr_alloc _ _ _ _ Hr))
    as (v' & h' & cs & E & _ & Hp & Ho).
  exists h', cs. unfold stringify.
  rewrite bind_unfold. cbn [get_calls st_calls].
  rewrite bind_unfold. cbn [alloc st_heap st_calls].
  erewrite bind_ok; [|exact E].
  rewrite bind_unfold. cbn [get_calls st_calls].
  rewrite drop_app_length.
  rewrite (join_appended _ _ _ _ _ Ho Hok).
  assert (Hp' : preserves h h') by (eapply preserves_trans; [apply repr_alloc|done]).
  repeat split; [by apply Hp'|done|by eapply Forall2_length].
Qed.

Lemma stringify_plain_text_witness :
  exists h' cs,
    stringify 3 (VRef 3)
      (mkState [ODict [("t", VStr "Str"); ("c", VStr "a")]; ODict [("t", VStr "Space")];
                ODict [("t", VStr "Str"); ("c", VStr "b")];
                OList [VRef 0; VRef 1; VRef 2]] [])
      = (Ok "a b", mkState h' ([] ++ cs)) /\
    repr h' (JList [node "Str" (JStr "a"); JDict [("t", JStr "Space")];
                    node "Str" (JStr "b")]) (VRef 3) /\
    preserves [ODict [("t", VStr "Str"); ("c", VStr "a")]; ODict [("t", VStr "Space")];
               ODict [("t", VStr "Str"); ("c", VStr "b")];
               OList [VRef 0; VRef 1; VRef 2]] h' /\
    length cs = 3.
Proof.
  apply (stringify_plain_text 3
           (JList [node "Str" (JStr "a"); JDict [("t", JStr "Space")];
                   node "Str" (JStr "b")])).
  - repr_solve.
  - vm_compute. lia.
  - reflexivity.
Defined.

(** ** [attributes] *)

Lemma keyval_pairs_ok (kvs : list (string * pyval)) :
  forall st, exists pairs fresh,
    keyval_pairs kvs st = (Ok pairs, mkState (st_heap st ++ fresh) (st_calls st)) /\
    Forall2 (fun p e => as_list (st_heap st ++ fresh) p = Some [VStr e.1; e.2]) pairs
      (filter (fun e : string * pyval => e.1 <> "classes" /\ e.1 <> "id") kvs).
Proof.
  induction kvs as [|[k v] rest IH]; intros st.
  - exists [], []. rewrite app_nil_r. split; [by destruct st|constructor].
  - cbn [keyval_pairs].
    destruct (String.eqb_spec k "classes") as [->|Hc]; cbn [negb andb].
    { destruct (IH st) as (pairs & fresh & E & F).
      rewrite filter_cons_False by (by intros [? _]). eauto. }
    destruct (String.eqb_spec k "id") as [->|Hi]; cbn [negb andb].
    { destruct (IH st) as (pairs & fresh & E & F).
      rewrite filter_cons_False by (by intros [_ ?]). eauto. }
    rewrite filter_cons_True by done.
    destruct (IH (mkState (st_heap st ++ [OList [VStr k; v]]) (st_calls st)))
      as (pairs & fresh & E & F). simpl in E, F.
    exists (VRef (length (st_heap st)) :: pairs), ([OList [VStr k; v]] ++ fresh).
    rewrite bind_unfold. cbn [alloc]. erewrite bind_ok; [|exact E].
    rewrite app_assoc. split; [done|]. constructor; [|done].
    simpl. by rewrite (heap_lookup_old _ _ _ _ (heap_lookup_fresh (st_heap st) _)).
Qed.

(** X7.  For a mapping, [attributes] returns the value under ["id"] (the
    empty string when absent), the value under ["classes"] (a new empty
    list when absent), and a new list holding, in the mapping's order, one
    new pair [[key, value]] for every other entry.  Nothing that existed is
    modified. *)
Theorem attributes_of_mapping (attrs : pyval) (kvs : list (string * pyval)) (st : state) :
  as_dict (st_heap st) attrs = Some kvs ->
  exists classes_default keyvals pairs fresh,
    attributes attrs st
      = (Ok (default (VStr EmptyString) (dict_lookup "id" kvs),
             default classes_default (dict_lookup "classes" kvs),
             keyvals),
         mkState (st_heap st ++ fresh) (st_calls st)) /\
    as_list (st_heap st ++ fresh) classes_default = Some [] /\
    as_list (st_heap st ++ fresh) keyvals = Some pairs /\
    Forall2 (fun p e => as_list (st_heap st ++ fresh) p = Some [VStr e.1; e.2]) pairs
      (filter (fun e : string * pyval => e.1 <> "classes" /\ e.1 <> "id") kvs).
Proof.
  destruct st as [h calls]. simpl. intros Hd.
  assert (Hgo : forall h0 a, as_dict h0 a = Some kvs ->
    exists classes_default keyvals pairs fresh,
      (h1 ← get_heap;
       match as_dict h1 a with
       | None => raise (AttributeError "get")
       | Some kvs =>
           d ← alloc (OList []);
           pairs ← keyval_pairs kvs;
           keyvals ← alloc (OList pairs);
           mret (default (VStr EmptyString) (dict_lookup "id" kvs),
                 default d (dict_lookup "classes" kvs), keyvals)
       end) (mkState h0 calls)
        = (Ok (default (VStr EmptyString) (dict_lookup "id" kvs),
               default classes_default (dict_lookup "classes" kvs), keyvals),
           mkState (h0 ++ fresh) calls) /\
      as_list (h0 ++ fresh) classes_default = Some [] /\
      as_list (h0 ++ fresh) keyvals = Some pairs /\
      Forall2 (fun p e => as_list (h0 ++ fresh) p = Some [VStr e.1; e.2]) pairs
        (filter (fun e : string * pyval => e.1 <> "classes" /\ e.1 <> "id") kvs)).
  { intros h0 a Ha. rewrite bind_unfold. cbn [get_heap st_heap]. rewrite Ha.
    destruct (keyval_pairs_ok kvs (mkState (h0 ++ [OList []]) calls))
      as (pairs & fresh & E & F). simpl in E, F.
    exists (VRef (length h0)), (VRef (length ((h0 ++ [OList []]) ++ fresh))), pairs,
           ([OList []] ++ fresh ++ [OList pairs]).
    rewrite bind_unfold. cbn [alloc st_heap st_calls].
    erewrite bind_ok; [|exact E]. rewrite bind_unfold. cbn [alloc st_heap st_calls].
    rewrite !app_assoc. split; [done|].
    split; [do 2 apply as_list_old; simpl; by rewrite heap_lookup_fresh|].
    split; [simpl; by rewrite heap_lookup_fresh|].
    eapply Forall2_impl; [exact F|]. intros p e Hp. by apply as_list_old. }
  unfold attributes. rewrite bind_unfold. cbn [get_heap st_heap].
  destruct (truthy h attrs) eqn:Et.
  - rewrite bind_unfold. change ((mret attrs : M pyval) (mkState h calls))
      with (Ok attrs, mkState h calls). by apply Hgo.
  - (* an empty mapping counts as false and is replaced by a new one *)
    assert (kvs = []) as ->.
    { destruct attrs as [| | | |l]; try discriminate. simpl in Hd, Et.
      destruct (h !! l) as [[items|[|kv kvs']]|]; try discriminate. congruence. }
    rewrite bind_unfold. cbn [alloc st_heap st_calls].
    destruct (Hgo (h ++ [ODict []]) (VRef (length h)))
      as (cd & kv & pairs & fresh & E & Hc & Hk & F).
    { simpl. by rewrite heap_lookup_fresh. }
    exists cd, kv, pairs, ([ODict []] ++ fresh). rewrite app_assoc. done.
Qed.

Lemma attributes_of_mapping_witness :
  exists classes_default keyvals pairs fresh,
    attributes (VRef 1)
      (mkState [OList [VStr "c1"; VStr "c2"];
                ODict [("id", VStr "x"); ("classes", VRef 0); ("foo", VStr "bar")]] [])
      = (Ok (default (VStr EmptyString) (Some (VStr "x")),
             default classes_default (Some (VRef 0)), keyvals),
         mkState ([OList [VStr "c1"; VStr "c2"];
                   ODict [("id", VStr "x"); ("classes", VRef 0); ("foo", VStr "bar")]]
                    ++ fresh) []) /\
    as_list ([OList [VStr "c1"; VStr "c2"];
              ODict [("id", VStr "x"); ("classes", VRef 0); ("foo", VStr "bar")]] ++ fresh)
      classes_default = Some [] /\
    as_list ([OList [VStr "c1"; VStr "c2"];
              ODict [("id", VStr "x"); ("classes", VRef 0); ("foo", VStr "bar")]] ++ fresh)
      keyvals = Some pairs /\
    Forall2 (fun p e =>
               as_list ([OList [VStr "c1"; VStr "c2"];
                         ODict [("id", VStr "x"); ("classes", VRef 0); ("foo", VStr "bar")]]
                          ++ fresh) p = Some [VStr e.1; e.2]) pairs
      [("foo", VStr "bar")].
Proof.
  exact (attributes_of_mapping (VRef 1)
           [("id", VStr "x"); ("classes", VRef 0); ("foo", VStr "bar")]
           (mkState [OList [VStr "c1"; VStr "c2"];
                     ODict [("id", VStr "x"); ("classes", VRef 0); ("foo", VStr "bar")]] [])
           eq_refl).
Defined.

(** X8.  On [None] or any other value that counts as false, [attributes]
    returns the empty string and two new empty lists; on a value that
    counts as true and is not a mapping it raises [AttributeError] and
    nothing has happened. *)
Theorem attributes_without_mapping (attrs : pyval) (st : state) :
  (truthy (st_heap st) attrs = false ->
     exists classes keyvals fresh,
       attributes attrs st
         = (Ok (VStr EmptyString, classes, keyvals),
            mkState (st_heap st ++ fresh) (st_calls st)) /\
       classes <> keyvals /\
       as_list (st_heap st ++ fresh) classes = Some [] /\
       as_list (st_heap st ++ fresh) keyvals = Some [])
  /\ (truthy (st_heap st) attrs = true -> as_dict (st_heap st) attrs = None ->
      attributes attrs st = (Raise (AttributeError "get"), st)).
Proof.
  destruct st as [h calls]. simpl. split.
  - intros Et. unfold attributes. rewrite bind_unfold. cbn [get_heap st_heap]. rewrite Et.
    exists (VRef (length h + 1)), (VRef (length h + 2)), [ODict []; OList []; OList []].
    split; [|split; [intros [=]; lia|]].
    + cbv [mbind M_bind alloc get_heap st_heap st_calls as_dict].
      rewrite heap_lookup_fresh. cbn [dict_lookup keyval_pairs default].
      cbv [mbind M_bind mret M_ret alloc st_heap st_calls].
      rewrite !length_app. cbn [length]. rewrite <- !app_assoc. cbn [app].
      repeat (f_equal; try lia).
    + simpl. split.
      * rewrite (lookup_app_r h) by lia. by replace (length h + 1 - length h) with 1 by lia.
      * rewrite (lookup_app_r h) by lia. by replace (length h + 2 - length h) with 2 by lia.
  - intros Et Hd. unfold attributes. rewrite bind_unfold. cbn [get_heap st_heap].
    rewrite Et. rewrite bind_unfold.
    change ((mret attrs : M pyval) (mkState h calls)) with (Ok attrs, mkState h calls).
    cbv beta iota. rewrite bind_unfold. cbn [get_heap st_heap]. by rewrite Hd.
Qed.

Lemma attributes_without_mapping_witness :
  (exists classes keyvals fresh,
     attributes VNone init
       = (Ok (VStr EmptyString, classes, keyvals), mkState ([] ++ fresh) []) /\
     classes <> keyvals /\
     as_list ([] ++ fresh) classes = Some [] /\
     as_list ([] ++ fresh) keyvals = Some [])
  /\ attributes (VStr "id") init = (Raise (AttributeError "get"), init).
Proof.
  split.
  - apply (proj1 (attributes_without_mapping VNone init)). reflexivity.
  - apply (proj2 (attributes_without_mapping (VStr "id") init)); reflexivity.
Defined.

(** ** [get_code_in_para] *)

Lemma dicts_kept_refl h : dicts_kept h h.
Proof. by split. Qed.

Lemma dicts_kept_trans h1 h2 h3 : dicts_kept h1 h2 -> dicts_kept h2 h3 -> dicts_kept h1 h3.
Proof. intros [L1 H1] [L2 H2]. split; [lia|eauto]. Qed.

Lemma dicts_kept_alloc h fresh : dicts_kept h (h ++ fresh).
Proof.
  split; [rewrite length_app; lia|]. intros l kvs. apply heap_lookup_old.
Qed.

Lemma dicts_kept_list h l items items' :
  h !! l = Some (OList items) -> dicts_kept h (<[l := OList items']> h).
Proof.
  intros El. split; [by rewrite length_insert|]. intros l' kvs E'.
  rewrite list_lookup_insert_ne; [done|]. congruence.
Qed.

Section frugal.

Lemma frugal_ret {A} (a : A) : frugal (mret a).
Proof. intros st. split; [apply dicts_kept_refl|done]. Qed.

Lemma frugal_raise {A} (e : exn) : frugal (raise e : M A).
Proof. intros st. split; [apply dicts_kept_refl|done]. Qed.

Lemma frugal_diverge {A} : frugal (diverge : M A).
Proof. intros st. split; [apply dicts_kept_refl|done]. Qed.

Lemma frugal_get_heap : frugal get_heap.
Proof. intros st. split; [apply dicts_kept_refl|done]. Qed.

Lemma frugal_alloc o : frugal (alloc o).
Proof. intros st. split; [apply dicts_kept_alloc|done]. Qed.

Lemma frugal_bind {A B} (m : M A) (f : A -> M B) :
  frugal m -> (forall a, frugal (f a)) -> frugal (m ≫= f).
Proof.
  intros Hm Hf st. rewrite bind_unfold. destruct (Hm st) as [K1 C1].
  destruct (m st) as [[a|e|] st1]; simpl in *; [|done..].
  destruct (Hf a st1) as [K2 C2]. split; [by eapply dicts_kept_trans|congruence].
Qed.

Lemma frugal_dict_getitem d k : frugal (dict_getitem d k).
Proof.
  unfold dict_getitem. apply frugal_bind; [apply frugal_get_heap|]. intros h.
  destruct (as_dict h d) as [kvs|]; [|apply frugal_raise].
  destruct (dict_lookup k kvs); [apply frugal_ret|apply frugal_raise].
Qed.

Lemma frugal_getitem_int x i : frugal (getitem_int x i).
Proof.
  unfold getitem_int. apply frugal_bind; [apply frugal_get_heap|]. intros h.
  destruct x as [| | |s|l]; try apply frugal_raise.
  - destruct (String.get i s); [apply frugal_ret|apply frugal_raise].
  - destruct (h !! l) as [[items|kvs]|]; try apply frugal_raise.
    destruct (items !! i); [apply frugal_ret|apply frugal_raise].
Qed.

Lemma frugal_list_append x v : frugal (list_append x v).
Proof.
  intros st. unfold list_append.
  destruct x as [| | | |l]; try (split; [apply dicts_kept_refl|done]).
  destruct (st_heap st !! l) as [[items|kvs]|] eqn:El;
    try (split; [apply dicts_kept_refl|done]).
  split; [by eapply dicts_kept_list|done].
Qed.

Lemma frugal_list_delitem x i : frugal (list_delitem x i).
Proof.
  intros st. unfold list_delitem.
  destruct x as [| | | |l]; try (split; [apply dicts_kept_refl|done]).
  destruct (st_heap st !! l) as [[items|kvs]|] eqn:El;
    try (split; [apply dicts_kept_refl|done]).
  destruct (i <? length items)%nat; [|split; [apply dicts_kept_refl|done]].
  split; [by eapply dicts_kept_list|done].
Qed.

Lemma frugal_elt eltType num_args args : frugal (elt eltType num_args args).
Proof.
  unfold elt. destruct (negb _); [apply frugal_raise|].
  apply frugal_bind; [|intros c; apply frugal_alloc].
  destruct (num_args =? 0)%nat; [apply frugal_alloc|].
  destruct args as [|a [|b rest]]; [apply frugal_alloc|apply frugal_ret|apply frugal_alloc].
Qed.

Context (str_of_object : list pyobj -> pyval -> string).

Lemma frugal_merge_loop turns tree :
  forall index per_block, frugal (merge_loop str_of_object turns tree index per_block).
Proof.
  induction turns as [|turns IH]; intros index per_block; [apply frugal_ret|].
  cbn [merge_loop]. apply frugal_bind; [apply frugal_get_heap|]. intros h.
  destruct (default [] (as_list h tree) !! index) as [block|]; [|apply frugal_ret].
  apply frugal_bind; [apply frugal_dict_getitem|]. intros t.
  apply frugal_bind.
  { destruct (is_str "CodeBlock" t && truthy h per_block); [|apply frugal_ret].
    apply frugal_bind; [apply frugal_dict_getitem|]. intros pt. apply frugal_ret. }
  intros cond. apply frugal_bind; [|intros b; apply IH].
  destruct cond; [|apply frugal_ret].
  apply frugal_bind; [apply frugal_dict_getitem|]. intros c.
  apply frugal_bind; [apply frugal_getitem_int|]. intros c0.
  apply frugal_bind; [apply frugal_getitem_int|]. intros classes.
  apply frugal_bind.
  { destruct (truthy h classes); [|apply frugal_ret].
    apply frugal_bind; [apply frugal_dict_getitem|]. intros c'.
    apply frugal_bind; [apply frugal_getitem_int|]. intros c0'.
    apply frugal_bind; [apply frugal_getitem_int|]. intros classes'.
    apply frugal_bind; [apply frugal_getitem_int|]. intros lang. apply frugal_ret. }
  intros block_c_begin.
  apply frugal_bind; [apply frugal_dict_getitem|]. intros c'.
  apply frugal_bind; [apply frugal_getitem_int|]. intros code.
  apply frugal_bind; [apply frugal_elt|]. intros raw.
  apply frugal_bind; [apply frugal_dict_getitem|]. intros pc.
  apply frugal_bind; [apply frugal_list_append|]. intros _.
  apply frugal_bind; [apply frugal_list_delitem|]. intros _. apply frugal_ret.
Qed.

Lemma frugal_comprehension rec turns tree :
  (forall v, frugal (rec v)) -> forall index, frugal (comprehension rec turns tree index).
Proof.
  intros Hrec. induction turns as [|turns IH]; intros index; [apply frugal_diverge|].
  cbn [comprehension]. apply frugal_bind; [apply frugal_get_heap|]. intros h.
  destruct (default [] (as_list h tree) !! index) as [ele|]; [|apply frugal_ret].
  apply frugal_bind; [done|]. intros y.
  apply frugal_bind; [apply IH|]. intros ys. apply frugal_ret.
Qed.

Lemma frugal_dict_comprehension rec kvs :
  (forall v, frugal (rec v)) -> forall acc, frugal (dict_comprehension rec kvs acc).
Proof.
  intros Hrec. induction kvs as [|[k v] rest IH]; intros acc; [apply frugal_ret|].
  cbn [dict_comprehension]. apply frugal_bind; [done|]. intros v'. apply IH.
Qed.

Lemma frugal_get_code_in_para fuel tree : frugal (get_code_in_para str_of_object fuel tree).
Proof.
  revert tree. induction fuel as [|n IH]; intros tree; [apply frugal_diverge|].
  cbn [get_code_in_para]. apply frugal_bind; [apply frugal_get_heap|]. intros h.
  destruct tree as [| | | |l]; try apply frugal_ret.
  destruct (h !! l) as [[items|kvs]|]; [| |apply frugal_ret].
  - destruct (forallb (is_dict h) items && existsb (is_code_block h) items).
    + apply frugal_bind; [apply frugal_merge_loop|]. intros _. apply frugal_ret.
    + apply frugal_bind; [by apply frugal_comprehension|]. intros out. apply frugal_alloc.
  - apply frugal_bind; [by apply frugal_dict_comprehension|]. intros kvs'. apply frugal_alloc.
Qed.
End frugal.

(** X9.  Whatever the input and the outcome, [get_code_in_para] changes no
    dict object that existed (it appends to and deletes from lists only, and
    builds new objects), and it invokes no action.  In particular the
    mapping handed in is never modified. *)
Theorem get_code_in_para_keeps_dicts (str_of_object : list pyobj -> pyval -> string)
    (fuel : nat) (tree : pyval) (st : state) :
  dicts_kept (st_heap st) (st_heap (get_code_in_para str_of_object fuel tree st).2) /\
  st_calls (get_code_in_para str_of_object fuel tree st).2 = st_calls st.
Proof. apply frugal_get_code_in_para. Qed.

Lemma dict_getitem_ok d (kvs : list (string * pyval)) k v h calls :
  as_dict h d = Some kvs -> dict_lookup k kvs = Some v ->
  dict_getitem d k (mkState h calls) = (Ok v, mkState h calls).
Proof.
  intros Ed Ek. unfold dict_getitem. rewrite bind_unfold. simpl. by rewrite Ed, Ek.
Qed.

Lemma dict_getitem_missing d (kvs : list (string * pyval)) k h calls :
  as_dict h d = Some kvs -> dict_lookup k kvs = None ->
  dict_getitem d k (mkState h calls) = (Raise (KeyError k), mkState h calls).
Proof.
  intros Ed Ek. unfold dict_getitem. rewrite bind_unfold. simpl. by rewrite Ed, Ek.
Qed.

Lemma getitem_int_ok x i v h calls :
  item_at h x i = Some v -> getitem_int x i (mkState h calls) = (Ok v, mkState h calls).
Proof.
  intros E. unfold getitem_int. rewrite bind_unfold. simpl.
  destruct x as [| | |s|l]; try discriminate; simpl in E.
  - destruct (String.get i s); [|discriminate]. by injection E as <-.
  - destruct (h !! l) as [[items|kvs]|]; try discriminate. by rewrite E.
Qed.

Lemma tag_of_truthy h x t : tag_of h x = Some t -> truthy h x = true.
Proof.
  unfold tag_of. destruct x as [| | | |l]; try discriminate. simpl.
  by destruct (h !! l) as [[items|[|kv kvs]]|].
Qed.

Lemma tag_of_is_dict h x t : tag_of h x = Some t -> is_dict h x = true.
Proof. unfold tag_of, is_dict. by destruct (as_dict h x). Qed.

Lemma no_merge_dicts h prev items :
  no_merge h prev items = true -> forallb (is_dict h) items = true.
Proof.
  revert prev. induction items as [|x rest IH]; intros prev; [done|]. simpl.
  destruct (tag_of h x) as [t|] eqn:Et; [|discriminate].
  intros [_ Hrest]%andb_prop. rewrite (tag_of_is_dict _ _ _ Et). simpl. eauto.
Qed.

Section merge.
Context (str_of_object : list pyobj -> pyval -> string).

Lemma merge_loop_end turns l index per_block h calls items :
  h !! l = Some (OList items) -> items !! index = None ->
  merge_loop str_of_object turns (VRef l) index per_block (mkState h calls)
    = (Ok tt, mkState h calls).
Proof.
  intros El Ei. destruct turns as [|turns]; [done|].
  cbn [merge_loop]. rewrite bind_unfold. cbn [get_heap st_heap as_list].
  rewrite El. change (default [] (Some items)) with items. by rewrite Ei.
Qed.

(** One turn of the loop, on the element [block] found at [index]. *)
Lemma merge_loop_turn turns l index per_block h calls items block :
  h !! l = Some (OList items) -> items !! index = Some block ->
  merge_loop str_of_object (S turns) (VRef l) index per_block (mkState h calls)
  = (t ← dict_getitem block "t";
     cond ← (if is_str "CodeBlock" t && truthy h per_block
             then pt ← dict_getitem per_block "t"; mret (is_str "Para" pt)
             else mret false);
     block' ← (if cond : bool then
                 c ← dict_getitem block "c";
                 c0 ← getitem_int c 0;
                 classes ← getitem_int c0 1;
                 block_c_begin ←
                   (if truthy h classes
                    then c ← dict_getitem block "c";
                         c0 ← getitem_int c 0;
                         classes ← getitem_int c0 1;
                         lang ← getitem_int classes 0;
                         mret ("\begin{lstlisting}" +:+ "[language="
                                 +:+ py_str str_of_object h lang +:+ "]" +:+ nl)
                    else mret "\begin{lstlisting}");
                 c ← dict_getitem block "c";
                 code ← getitem_int c 1;
                 raw ← RawInline [VStr "latex";
                                  VStr (nl +:+ block_c_begin +:+ nl
                                          +:+ py_str str_of_object h code +:+ nl
                                          +:+ "\end{lstlisting}")];
                 pc ← dict_getitem per_block "c";
                 list_append pc raw;;
                 list_delitem (VRef l) index;;
                 mret raw
               else mret block);
     merge_loop str_of_object turns (VRef l) (S index) block') (mkState h calls).
Proof.
  intros El Ei. cbn [merge_loop]. rewrite bind_unfold. cbn [get_heap st_heap as_list].
  rewrite El. change (default [] (Some items)) with items. by rewrite Ei.
Qed.

(** The loop passes over elements that give no occasion to merge without
    touching anything; [per_block] ends up being the last of them. *)
Lemma merge_loop_skip l h calls :
  forall mid pre prev per_block turns rest,
    h !! l = Some (OList (pre ++ mid ++ rest)) ->
    no_merge h prev mid = true ->
    per_block = default VNone prev ->
    (forall p, prev = Some p -> is_Some (tag_of h p)) ->
    merge_loop str_of_object (length mid + turns) (VRef l) (length pre) per_block
      (mkState h calls)
    = merge_loop str_of_object turns (VRef l) (length (pre ++ mid))
        (default per_block (last mid)) (mkState h calls).
Proof.
  induction mid as [|x mid IH]; intros pre prev per_block turns rest El Hnm Hpb Hprev.
  - by rewrite app_nil_r.
  - simpl in Hnm. destruct (tag_of h x) as [t|] eqn:Et; [|discriminate].
    apply andb_prop in Hnm as [Hcond Hnm].
    cbn [length Nat.add].
    rewrite (merge_loop_turn _ _ _ _ _ _ _ x El) by (by apply list_lookup_middle).
    unfold tag_of in Et. destruct (as_dict h x) as [kvs|] eqn:Ed; [|discriminate].
    erewrite bind_ok; [|by eapply dict_getitem_ok].
    assert (Ec : (if is_str "CodeBlock" t && truthy h per_block
                  then pt ← dict_getitem per_block "t"; mret (is_str "Para" pt)
                  else mret false) (mkState h calls) = (Ok false, mkState h calls)).
    { destruct (is_str "CodeBlock" t); [|done]. simpl in *.
      destruct prev as [p|]; [|by subst per_block].
      destruct (Hprev p eq_refl) as [pt Ept]. rewrite Ept in Hcond.
      simpl in Hpb. subst per_block. rewrite (tag_of_truthy _ _ _ Ept).
      unfold tag_of in Ept. destruct (as_dict h p) as [pk|] eqn:Edp; [|discriminate].
      erewrite bind_ok; [|by eapply dict_getitem_ok].
      apply negb_true_iff in Hcond. by rewrite Hcond. }
    erewrite bind_ok; [|exact Ec].
    rewrite bind_unfold. change ((mret x : M pyval) (mkState h calls))
      with (Ok x, mkState h calls). cbv beta iota.
    replace (S (length pre)) with (length (pre ++ [x])) by (rewrite length_app; simpl; lia).
    rewrite (IH (pre ++ [x]) (Some x) x turns rest).
    + rewrite <- app_assoc. simpl. f_equal.
      destruct mid as [|y mid']; [done|]. simpl.
      destruct (last (y :: mid')) eqn:E; [done|]. by apply last_None in E.
    + by rewrite <- app_assoc.
    + done.
    + done.
    + intros p [= <-]. unfold tag_of. rewrite Ed. eauto.
Qed.

(** X10.  A list of tagged dicts that holds a [CodeBlock], but none directly
    after a [Para], comes back as the same object with the store untouched:
    nothing is merged, and nothing below the list is visited, not even
    [Para]/[CodeBlock] pairs nested inside its elements. *)
Theorem get_code_in_para_nothing_to_merge (n : nat) (l : nat) (items : list pyval)
    (h : list pyobj) (calls : list call) :
  h !! l = Some (OList items) ->
  existsb (is_code_block h) items = true ->
  no_merge h None items = true ->
  get_code_in_para str_of_object (S n) (VRef l) (mkState h calls)
    = (Ok (VRef l), mkState h calls).
Proof.
  intros El Hcb Hnm. cbn [get_code_in_para]. rewrite bind_unfold. cbn [get_heap st_heap].
  rewrite El, (no_merge_dicts _ _ _ Hnm), Hcb. cbn [andb].
  rewrite bind_unfold.
  assert (E : merge_loop str_of_object (length items + 0) (VRef l) (length (@nil pyval))
                VNone (mkState h calls)
              = merge_loop str_of_object 0 (VRef l) (length ([] ++ items))
                  (default VNone (last items)) (mkState h calls)).
  { apply (merge_loop_skip l h calls items [] None VNone 0 []);
      [by rewrite app_nil_r|done|done|by intros p [=]]. }
  rewrite Nat.add_0_r in E. cbn [length] in E. by rewrite E.
Qed.

(** X11.  In a list of dicts that holds a [CodeBlock], the first element
    without a ['t'] key that the loop reaches makes [get_code_in_para] raise
    [KeyError('t')]; when nothing was merged before it, the store is
    untouched. *)
Theorem get_code_in_para_untagged (n : nat) (l : nat) (mid : list pyval) (x : pyval)
    (rest : list pyval) (kvs : list (string * pyval)) (h : list pyobj) (calls : list call) :
  h !! l = Some (OList (mid ++ x :: rest)) ->
  no_merge h None mid = true ->
  as_dict h x = Some kvs ->
  dict_lookup "t" kvs = None ->
  forallb (is_dict h) rest = true ->
  existsb (is_code_block h) (mid ++ x :: rest) = true ->
  get_code_in_para str_of_object (S n) (VRef l) (mkState h calls)
    = (Raise (KeyError "t"), mkState h calls).
Proof.
  intros El Hnm Ed Ek Hrest Hcb.
  cbn [get_code_in_para]. rewrite bind_unfold. cbn [get_heap st_heap]. rewrite El, Hcb.
  assert (Hall : forallb (is_dict h) (mid ++ x :: rest) = true).
  { rewrite forallb_app, (no_merge_dicts _ _ _ Hnm). simpl. unfold is_dict at 1.
    by rewrite Ed. }
  rewrite Hall. cbn [andb]. rewrite bind_unfold.
  rewrite length_app. cbn [length].
  assert (E : merge_loop str_of_object (length mid + S (length rest)) (VRef l)
                (length (@nil pyval)) VNone (mkState h calls)
              = merge_loop str_of_object (S (length rest)) (VRef l) (length ([] ++ mid))
                  (default VNone (last mid)) (mkState h calls)).
  { apply (merge_loop_skip l h calls mid [] None VNone (S (length rest)) (x :: rest));
      [done|done|done|by intros p [=]]. }
  cbn [length app] in E. rewrite E.
  rewrite (merge_loop_turn _ _ _ _ _ _ _ x El) by (by apply list_lookup_middle).
  rewrite bind_unfold. by rewrite (dict_getitem_missing _ _ _ _ _ Ed Ek).
Qed.
End merge.

Lemma get_code_in_para_nothing_to_merge_witness :
  get_code_in_para (fun _ _ => EmptyString) 1 (VRef 5)
    (mkState [ODict [("t", VStr "CodeBlock"); ("c", VNone)];
              ODict [("t", VStr "Para"); ("c", VNone)];
              ODict [("t", VStr "CodeBlock"); ("c", VNone)];
              OList [VRef 1; VRef 2];
              ODict [("t", VStr "BlockQuote"); ("c", VRef 3)];
              OList [VRef 0; VRef 4]] [])
  = (Ok (VRef 5),
     mkState [ODict [("t", VStr "CodeBlock"); ("c", VNone)];
              ODict [("t", VStr "Para"); ("c", VNone)];
              ODict [("t", VStr "CodeBlock"); ("c", VNone)];
              OList [VRef 1; VRef 2];
              ODict [("t", VStr "BlockQuote"); ("c", VRef 3)];
              OList [VRef 0; VRef 4]] []).
Proof.
  apply (get_code_in_para_nothing_to_merge (fun _ _ => EmptyString) 0 5 [VRef 0; VRef 4]);
    reflexivity.
Defined.

Lemma get_code_in_para_untagged_witness :
  get_code_in_para (fun _ _ => EmptyString) 1 (VRef 3)
    (mkState [ODict [("t", VStr "Para"); ("c", VNone)]; ODict [("x", VInt 1)];
              ODict [("t", VStr "CodeBlock"); ("c", VNone)];
              OList [VRef 0; VRef 1; VRef 2]] [])
  = (Raise (KeyError "t"),
     mkState [ODict [("t", VStr "Para"); ("c", VNone)]; ODict [("x", VInt 1)];
              ODict [("t", VStr "CodeBlock"); ("c", VNone)];
              OList [VRef 0; VRef 1; VRef 2]] []).
Proof.
  apply (get_code_in_para_untagged (fun _ _ => EmptyString) 0 3 [VRef 0] (VRef 1) [VRef 2]
           [("x", VInt 1)]); reflexivity.
Defined.

Lemma elt_pair tag a b h calls :
  elt tag 2 [a; b] (mkState h calls)
    = (Ok (VRef (length h + 1)),
       mkState (h ++ [OList [a; b]; ODict [("t", VStr tag); ("c", VRef (length h))]]) calls).
Proof.
  unfold elt. cbn [length Nat.eqb negb]. rewrite bind_unfold.
  unfold alloc. cbn [st_heap st_calls]. rewrite length_app. cbn [length].
  by rewrite <- app_assoc.
Qed.

Lemma delete_middle {A} (xs : list A) (y : A) (zs : list A) :
  delete (length xs) (xs ++ y :: zs) = xs ++ zs.
Proof. induction xs as [|x xs IH]; [done|]. simpl. by rewrite IH. Qed.

Lemma tag_of_kept h h' x t : dicts_kept h h' -> tag_of h x = Some t -> tag_of h' x = Some t.
Proof.
  intros [_ Hk]. unfold tag_of. destruct x as [| | | |l]; try discriminate. cbn [as_dict].
  destruct (h !! l) as [[items|kvs]|] eqn:El; try discriminate.
  by rewrite (Hk _ _ El).
Qed.

(** Whether a list gives occasion to merge depends on the tags only, which
    no change to lists can alter. *)
Lemma no_merge_kept h h' items :
  dicts_kept h h' ->
  forall prev, no_merge h prev items = true ->
    match prev with Some p => tag_of h' p = tag_of h p | None => True end ->
    no_merge h' prev items = true.
Proof.
  intros Hk. induction items as [|x rest IH]; intros prev Hnm Hprev; [done|].
  cbn [no_merge] in *. destruct (tag_of h x) as [t|] eqn:Et; [|discriminate].
  rewrite (tag_of_kept _ _ _ _ Hk Et).
  apply andb_prop in Hnm as [Hc Hnm]. apply andb_true_intro. split.
  - destruct prev as [q|]; [|done]. by rewrite Hprev.
  - apply IH; [done|]. by rewrite Et, (tag_of_kept _ _ _ _ Hk Et).
Qed.

Lemma no_merge_prev h p items :
  match tag_of h p with Some pt => is_str "Para" pt | None => false end = false ->
  no_merge h (Some p) items = no_merge h None items.
Proof.
  intros Hp. destruct items as [|x rest]; [done|]. cbn [no_merge].
  destruct (tag_of h x); [|done]. by rewrite Hp.
Qed.

Section merge_step.
Context (str_of_object : list pyobj -> pyval -> string).

(** X12.  A [CodeBlock] directly after a [Para] (the first such pair of the
    list) is merged: a new [RawInline] of format [latex] is appended to the
    [Para]'s content list and the [CodeBlock] is deleted from the list, both
    in place.  The text is the code inside a [lstlisting] environment; when
    the block has classes, the first one becomes the [language] option,
    followed by an empty line.  The element that came after the [CodeBlock]
    is passed over without being looked at, and the loop goes on with the
    new [RawInline] as previous block; here nothing after that element
    gives occasion to merge again. *)
Theorem get_code_in_para_merge (n l : nat) (mid : list pyval) (p cb : pyval)
    (tail : list pyval) (pk ck : list (string * pyval)) (lp : nat) (pitems : list pyval)
    (c attr classes code lang : pyval) (h : list pyobj) (calls : list call) :
  h !! l = Some (OList (mid ++ p :: cb :: tail)) ->
  no_merge h None (drop 1 tail) = true ->
  forallb (is_dict h) tail = true ->
  no_merge h None mid = true ->
  as_dict h p = Some pk ->
  dict_lookup "t" pk = Some (VStr "Para") ->
  dict_lookup "c" pk = Some (VRef lp) ->
  h !! lp = Some (OList pitems) ->
  lp <> l ->
  as_dict h cb = Some ck ->
  dict_lookup "t" ck = Some (VStr "CodeBlock") ->
  dict_lookup "c" ck = Some c ->
  item_at h c 0 = Some attr ->
  item_at h attr 1 = Some classes ->
  item_at h c 1 = Some code ->
  (truthy h classes = true -> item_at h classes 0 = Some lang) ->
  get_code_in_para str_of_object (S n) (VRef l) (mkState h calls)
    = (Ok (VRef l),
       mkState
         (<[l := OList (mid ++ p :: tail)]>
            (<[lp := OList (pitems ++ [VRef (length h + 1)])]>
               (h ++ [OList [VStr "latex";
                             VStr (nl +:+ (if truthy h classes
                                           then "\begin{lstlisting}" +:+ "[language="
                                                  +:+ py_str str_of_object h lang
                                                  +:+ "]" +:+ nl
                                           else "\begin{lstlisting}")
                                      +:+ nl +:+ py_str str_of_object h code +:+ nl
                                      +:+ "\end{lstlisting}")];
                      ODict [("t", VStr "RawInline"); ("c", VRef (length h))]])))
         calls).
Proof.
  intros El Htail Hdt Hnm Edp Etp Ecp Elp Hne Edc Etc Ecc Ea Ecl Eco Elang.
  assert (Hlen : length (mid ++ p :: cb :: tail) = length mid + S (S (length tail))).
  { rewrite length_app. simpl. lia. }
  (* the list qualifies *)
  cbn [get_code_in_para]. rewrite bind_unfold. cbn [get_heap st_heap]. rewrite El.
  assert (Hall : forallb (is_dict h) (mid ++ p :: cb :: tail) = true).
  { rewrite forallb_app, (no_merge_dicts _ _ _ Hnm). simpl. unfold is_dict at 1 2.
    by rewrite Edp, Edc. }
  assert (Hcb : existsb (is_code_block h) (mid ++ p :: cb :: tail) = true).
  { rewrite existsb_app. apply orb_true_intro. right. simpl.
    apply orb_true_intro. right. unfold is_code_block at 1. by rewrite Edc, Etc. }
  rewrite Hall, Hcb. cbn [andb]. rewrite bind_unfold. rewrite Hlen.
  (* up to the paragraph *)
  assert (E : merge_loop str_of_object (length mid + S (S (length tail))) (VRef l)
                (length (@nil pyval)) VNone (mkState h calls)
              = merge_loop str_of_object (S (S (length tail))) (VRef l)
                  (length ([] ++ mid)) (default VNone (last mid)) (mkState h calls)).
  { apply (merge_loop_skip str_of_object l h calls mid [] None VNone _ (p :: cb :: tail));
      [done|done|done|by intros q [=]]. }
  cbn [length app] in E. rewrite E. clear E.
  (* the paragraph *)
  rewrite (merge_loop_turn _ _ _ _ _ _ _ _ p El) by (by apply list_lookup_middle).
  erewrite bind_ok; [|by eapply dict_getitem_ok].
  change (is_str "CodeBlock" (VStr "Para")) with false. cbn [andb].
  rewrite bind_unfold. change ((mret false : M bool) (mkState h calls))
    with (Ok false, mkState h calls). cbv beta iota.
  rewrite bind_unfold. change ((mret p : M pyval) (mkState h calls))
    with (Ok p, mkState h calls). cbv beta iota.
  (* the code block *)
  assert (Ei : (mid ++ p :: cb :: tail) !! S (length mid) = Some cb).
  { replace (S (length mid)) with (length (mid ++ [p])) by (rewrite length_app; simpl; lia).
    rewrite (app_assoc mid [p] (cb :: tail) : mid ++ p :: cb :: tail = (mid ++ [p]) ++ cb :: tail)
      by done. by apply list_lookup_middle. }
  rewrite (merge_loop_turn _ _ _ _ _ _ _ _ cb El Ei).
  erewrite bind_ok; [|by eapply dict_getitem_ok].
  assert (Htp : truthy h p = true) by (apply (tag_of_truthy h p (VStr "Para")); unfold tag_of; by rewrite Edp).
  rewrite Htp. change (is_str "CodeBlock" (VStr "CodeBlock")) with true. cbn [andb].
  erewrite bind_ok; [|erewrite bind_ok; [|by eapply dict_getitem_ok]; reflexivity].
  change (is_str "Para" (VStr "Para")) with true. cbv iota.
  erewrite bind_ok; [|
    erewrite bind_ok; [|by eapply dict_getitem_ok];
    erewrite bind_ok; [|by eapply getitem_int_ok];
    erewrite bind_ok; [|by eapply getitem_int_ok];
    erewrite bind_ok; [|
      instantiate (1 := mkState h calls);
      instantiate (1 := if truthy h classes
                        then "\begin{lstlisting}" +:+ "[language="
                               +:+ py_str str_of_object h lang +:+ "]" +:+ nl
                        else "\begin{lstlisting}");
      destruct (truthy h classes); [|reflexivity];
      erewrite bind_ok; [|by eapply dict_getitem_ok];
      erewrite bind_ok; [|by eapply getitem_int_ok];
      erewrite bind_ok; [|by eapply getitem_int_ok];
      erewrite bind_ok; [|by eapply getitem_int_ok; apply Elang]; reflexivity];
    erewrite bind_ok; [|by eapply dict_getitem_ok];
    erewrite bind_ok; [|by eapply getitem_int_ok];
    erewrite bind_ok; [|apply elt_pair];
    erewrite bind_ok; [|eapply dict_getitem_ok; [by apply as_dict_old|exact Ecp]];
    erewrite bind_ok; [|unfold list_append; cbn [st_heap];
                        rewrite (heap_lookup_old _ _ _ _ Elp); reflexivity];
    erewrite bind_ok; [|unfold list_delitem; cbn [st_heap];
                        rewrite list_lookup_insert_ne by done;
                        rewrite (heap_lookup_old _ _ _ _ El);
                        rewrite (proj2 (Nat.ltb_lt _ _)) by (rewrite Hlen; lia);
                        reflexivity];
    reflexivity].
  (* the rest of the list is out of reach *)
  replace (S (length mid)) with (length (mid ++ [p])) by (rewrite length_app; simpl; lia).
  rewrite (app_assoc mid [p] (cb :: tail) : mid ++ p :: cb :: tail = (mid ++ [p]) ++ cb :: tail)
    by done.
  rewrite delete_middle, <- app_assoc. cbn [app st_heap st_calls].
  set (raw := VRef (length h + 1)).
  set (h3 := <[l := OList (mid ++ p :: tail)]> _).
  assert (El3 : h3 !! l = Some (OList (mid ++ p :: tail))).
  { apply list_lookup_insert_eq. rewrite length_insert, length_app.
    apply lookup_lt_Some in El. lia. }
  destruct tail as [|x rest]; [done|]. cbn [drop] in Htail.
  assert (Hk : dicts_kept h h3).
  { eapply dicts_kept_trans; [apply dicts_kept_alloc|].
    eapply dicts_kept_trans; [eapply dicts_kept_list; by apply heap_lookup_old|].
    eapply dicts_kept_list. rewrite list_lookup_insert_ne by done.
    by apply heap_lookup_old. }
  assert (Hraw : tag_of h3 raw = Some (VStr "RawInline")).
  { unfold tag_of, raw, h3. cbn [as_dict].
    assert (Hl : l < length h) by (by apply lookup_lt_Some in El).
    assert (Hlp : lp < length h) by (by apply lookup_lt_Some in Elp).
    rewrite list_lookup_insert_ne by lia. rewrite list_lookup_insert_ne by lia.
    rewrite lookup_app_r by lia. by replace (length h + 1 - length h) with 1 by lia. }
  assert (E : merge_loop str_of_object (length rest + 1) (VRef l)
                (length (mid ++ [p; x])) raw (mkState h3 calls)
              = merge_loop str_of_object 1 (VRef l) (length ((mid ++ [p; x]) ++ rest))
                  (default raw (last rest)) (mkState h3 calls)).
  { apply (merge_loop_skip str_of_object l h3 calls rest (mid ++ [p; x]) (Some raw) raw 1 []).
    - by rewrite app_nil_r, <- app_assoc.
    - rewrite (no_merge_prev h3 raw rest) by (by rewrite Hraw).
      by apply (no_merge_kept h).
    - done.
    - intros q [= <-]. by rewrite Hraw. }
  cbn [length].
  replace (S (length (mid ++ [p]))) with (length (mid ++ [p; x]))
    by (rewrite !length_app; simpl; lia).
  replace (S (length rest)) with (length rest + 1) by lia. rewrite E.
  erewrite merge_loop_end; [reflexivity|exact El3|].
  apply lookup_ge_None. rewrite <- app_assoc. cbn [app]. done.
Qed.
End merge_step.

Lemma get_code_in_para_merge_witness :
  get_code_in_para (fun _ _ => EmptyString) 1 (VRef 10) (mkState python_after_para [])
  = (Ok (VRef 10),
     mkState
       [ ODict [("t", VStr "Str"); ("c", VStr "hi")];
         OList [VRef 0; VRef 12];
         ODict [("t", VStr "Para"); ("c", VRef 1)];
         OList [VStr "python"];
         OList [];
         OList [VStr EmptyString; VRef 3; VRef 4];
         OList [VRef 5; VStr "print(1)"];
         ODict [("t", VStr "CodeBlock"); ("c", VRef 6)];
         OList [];
         ODict [("t", VStr "Para"); ("c", VRef 8)];
         OList [VRef 2; VRef 9];
         OList [VStr "latex";
                VStr (nl +:+ "\begin{lstlisting}[language=python]" +:+ nl +:+ nl
                        +:+ "print(1)" +:+ nl +:+ "\end{lstlisting}")];
         ODict [("t", VStr "RawInline"); ("c", VRef 11)] ]
       []).
Proof.
  etransitivity;
    [apply (get_code_in_para_merge (fun _ _ => EmptyString) 0 10 [] (VRef 2) (VRef 7)
              [VRef 9] [("t", VStr "Para"); ("c", VRef 1)]
              [("t", VStr "CodeBlock"); ("c", VRef 6)] 1 [VRef 0]
              (VRef 6) (VRef 5) (VRef 3) (VStr "print(1)") (VStr "python")
              python_after_para []);
       [reflexivity|reflexivity|reflexivity|reflexivity|reflexivity|reflexivity
       |reflexivity|reflexivity|discriminate|reflexivity|reflexivity|reflexivity
       |reflexivity|reflexivity|reflexivity|intros _; reflexivity]
    |vm_compute; reflexivity].
Defined.

(** ** A tree without code blocks is copied *)

Lemma repr_is_dict h t v : repr h t v -> is_dict h v = json_is_dict t.
Proof.
  inversion 1 as [| | | |l vs ts E|l kvs fs E]; subst; unfold is_dict; simpl;
    try done; by rewrite E.
Qed.

Lemma repr_is_code_block h t v : repr h t v -> is_code_block h v = json_is_code_block t.
Proof.
  inversion 1 as [| | | |l vs ts E|l kvs fs E Hnd HF]; subst; unfold is_code_block;
    simpl; try done; rewrite E; [done|].
  pose proof (repr_field h fs kvs "t" HF) as K.
  destruct (field "t" fs) as [tt|], (dict_lookup "t" kvs) as [tv|]; try done.
  by inversion K.
Qed.

Lemma repr_forallb_is_dict h ts vs :
  Forall2 (repr h) ts vs -> forallb (is_dict h) vs = forallb json_is_dict ts.
Proof.
  induction 1 as [|t v ts vs R _ IH]; [done|]. simpl. by rewrite IH, (repr_is_dict _ _ _ R).
Qed.

Lemma repr_existsb_is_code_block h ts vs :
  Forall2 (repr h) ts vs -> existsb (is_code_block h) vs = existsb json_is_code_block ts.
Proof.
  induction 1 as [|t v ts vs R _ IH]; [done|]. simpl.
  by rewrite IH, (repr_is_code_block _ _ _ R).
Qed.

Lemma comprehension_copies rec l :
  forall ts suf pre turns h calls,
    Forall2 (repr h) ts suf ->
    Forall (copies rec) ts ->
    h !! l = Some (OList (pre ++ suf)) ->
    length suf < turns ->
    exists out fresh,
      comprehension rec turns (VRef l) (length pre) (mkState h calls)
        = (Ok out, mkState (h ++ fresh) calls) /\
      Forall2 (repr (h ++ fresh)) ts out.
Proof.
  induction ts as [|t ts IH]; intros suf pre turns h calls F C El Hturns.
  - apply Forall2_nil_inv_l in F as ->. destruct turns as [|turns]; [simpl in Hturns; lia|].
    exists [], []. cbn [comprehension]. rewrite bind_unfold. cbn [get_heap st_heap as_list].
    rewrite El. change (default [] (Some (pre ++ []))) with (pre ++ @nil pyval).
    rewrite (proj2 (lookup_ge_None _ _)) by (rewrite app_nil_r; lia).
    rewrite app_nil_r. split; [done|constructor].
  - apply Forall2_cons_inv_l in F as (x & suf' & R & F & ->).
    apply Forall_cons in C as [Ct C].
    destruct turns as [|turns]; [simpl in Hturns; lia|]. cbn [length] in Hturns.
    cbn [comprehension]. rewrite bind_unfold. cbn [get_heap st_heap as_list].
    rewrite El. change (default [] (Some (pre ++ x :: suf'))) with (pre ++ x :: suf').
    rewrite list_lookup_middle by done.
    destruct (Ct x h calls R) as (y & f1 & E1 & R1 & _).
    erewrite bind_ok; [|exact E1].
    destruct (IH suf' (pre ++ [x]) turns (h ++ f1) calls) as (out & f2 & E2 & R2).
    + eapply Forall2_impl; [exact F|apply repr_alloc].
    + done.
    + apply heap_lookup_old. by rewrite <- app_assoc.
    + lia.
    + rewrite length_app in E2. cbn [length] in E2. rewrite Nat.add_1_r in E2.
      erewrite bind_ok; [|exact E2]. exists (y :: out), (f1 ++ f2).
      rewrite app_assoc. split; [done|]. constructor; [by apply repr_alloc|done].
Qed.

Lemma dict_comprehension_copies rec :
  forall fs (kvs acc : list (string * pyval)) h calls,
    Forall2 (fun f kv => f.1 = kv.1 /\ repr h f.2 kv.2) fs kvs ->
    Forall (fun f => copies rec f.2) fs ->
    NoDup (kvs.*1) ->
    (forall k, k ∈ kvs.*1 -> k ∉ acc.*1) ->
    exists kvs' fresh,
      dict_comprehension rec kvs acc (mkState h calls)
        = (Ok (acc ++ kvs'), mkState (h ++ fresh) calls) /\
      Forall2 (fun f kv => f.1 = kv.1 /\ repr (h ++ fresh) f.2 kv.2) fs kvs'.
Proof.
  induction fs as [|f fs IH]; intros kvs acc h calls F C Hnd Hfresh.
  - apply Forall2_nil_inv_l in F as ->. exists [], []. rewrite !app_nil_r.
    split; [done|constructor].
  - apply Forall2_cons_inv_l in F as ([k v] & kvs' & [Ek R] & F & ->).
    apply Forall_cons in C as [Cf C]. rewrite fmap_cons in Hnd, Hfresh.
    apply NoDup_cons in Hnd as [Hk Hnd]. simpl in Ek, R, Hk.
    cbn [dict_comprehension].
    destruct (Cf v h calls R) as (v' & f1 & E1 & R1 & _).
    erewrite bind_ok; [|exact E1].
    rewrite dict_store_fresh by (apply Hfresh; left).
    destruct (IH kvs' (acc ++ [(k, v')]) (h ++ f1) calls) as (out & f2 & E2 & R2).
    + eapply Forall2_impl; [exact F|]. intros g kv [? ?]. split; [done|by apply repr_alloc].
    + done.
    + done.
    + intros k' Hk'. rewrite fmap_app. simpl.
      intros [Hin|Hin%list_elem_of_singleton]%elem_of_app.
      * revert Hin. apply Hfresh. by right.
      * by subst k'.
    + rewrite E2. exists ((k, v') :: out), (f1 ++ f2). rewrite <- !app_assoc.
      split; [done|]. rewrite app_assoc. constructor; [|done].
      split; [done|]. by apply repr_alloc.
Qed.

Lemma get_code_in_para_copies_aux (str_of_object : list pyobj -> pyval -> string) (t : json) :
  code_free t = true ->
  forall fuel, depth t < fuel -> copies (get_code_in_para str_of_object fuel) t.
Proof.
  induction t as [| | | |ts IH|fs IH] using json_ind'; intros Hc fuel Hd;
    (destruct fuel as [|n]; [lia|]); intros v h calls R.
  1-4: inversion R; subst; eexists _, []; rewrite app_nil_r;
    (split; [reflexivity|]); (split; [constructor|done]).
  - apply repr_list_inv in R as (l & vs & -> & El & F).
    cbn [code_free] in Hc. apply andb_prop in Hc as [Hm Hc].
    apply negb_true_iff in Hm.
    cbn [get_code_in_para]. rewrite bind_unfold. cbn [get_heap st_heap]. rewrite El.
    rewrite (repr_forallb_is_dict _ _ _ F), (repr_existsb_is_code_block _ _ _ F), Hm.
    destruct (comprehension_copies (get_code_in_para str_of_object n) l ts vs []
                (S (length vs) + n) h calls) as (out & fresh & E & Rout).
    + done.
    + apply Forall_forall. intros x Hx.
      pose proof (proj1 (Forall_forall _ _) IH x Hx) as IHx.
      apply IHx.
      * apply (proj1 (forallb_forall code_free ts) Hc x). by apply list_elem_of_In.
      * apply depth_item in Hx. lia.
    + done.
    + lia.
    + cbn [length] in E. erewrite bind_ok; [|exact E].
      eexists _, (fresh ++ [OList out]). unfold alloc. cbn [st_heap st_calls].
      rewrite app_assoc. split; [reflexivity|]. split.
      * eapply repr_list; [apply heap_lookup_fresh|].
        eapply Forall2_impl; [exact Rout|apply repr_alloc].
      * intros l' [= <-]. rewrite length_app. lia.
  - apply repr_dict_inv in R as (l & kvs & -> & El & Hnd & F).
    cbn [code_free] in Hc.
    cbn [get_code_in_para]. rewrite bind_unfold. cbn [get_heap st_heap]. rewrite El.
    destruct (dict_comprehension_copies (get_code_in_para str_of_object n) fs kvs [] h calls)
      as (kvs' & fresh & E & Rout).
    + done.
    + apply Forall_forall. intros f Hf.
      pose proof (proj1 (Forall_forall _ _) IH f Hf) as IHf.
      apply IHf.
      * apply (proj1 (forallb_forall (fun g : string * json => code_free g.2) fs) Hc f).
        by apply list_elem_of_In.
      * apply depth_field in Hf. lia.
    + done.
    + by intros k _ ?%elem_of_nil.
    + cbn [app] in E. erewrite bind_ok; [|exact E].
      eexists _, (fresh ++ [ODict kvs']). unfold alloc. cbn [st_heap st_calls].
      rewrite app_assoc. split; [reflexivity|]. split.
      * eapply repr_dict; [apply heap_lookup_fresh| |].
        -- by rewrite <- (repr_keys _ _ _ Rout), (repr_keys _ _ _ F).
        -- eapply Forall2_impl; [exact Rout|]. intros f kv [? ?]. split; [done|].
           by apply repr_alloc.
      * intros l' [= <-]. rewrite length_app. lia.
Qed.

(** X13.  On an object standing for a tree in which no list consists of
    mappings one of which is tagged [CodeBlock], and with a recursion budget
    above the depth of the tree, [get_code_in_para] is a deep copy: it
    returns, it only adds objects to the store (so the input still stands
    for the tree), the result stands for the same tree, and unless the tree
    is a scalar the result is a new object. *)
Theorem get_code_in_para_copies (str_of_object : list pyobj -> pyval -> string)
    (fuel : nat) (t : json) (v : pyval) (h : list pyobj) (calls : list call) :
  repr h t v ->
  depth t < fuel ->
  code_free t = true ->
  exists v' fresh,
    get_code_in_para str_of_object fuel v (mkState h calls)
      = (Ok v', mkState (h ++ fresh) calls) /\
    repr (h ++ fresh) t v' /\
    (forall l, v' = VRef l -> length h <= l).
Proof. intros R Hd Hc. by apply (get_code_in_para_copies_aux str_of_object t Hc fuel Hd). Qed.

Lemma get_code_in_para_copies_witness :
  exists v' fresh,
    get_code_in_para (fun _ _ => EmptyString) 3 (VRef 1)
      (mkState [ODict [("t", VStr "Str"); ("c", VStr "hi")]; OList [VRef 0]] [])
      = (Ok v', mkState ([ODict [("t", VStr "Str"); ("c", VStr "hi")]; OList [VRef 0]]
                           ++ fresh) []) /\
    repr ([ODict [("t", VStr "Str"); ("c", VStr "hi")]; OList [VRef 0]] ++ fresh)
      (JList [node "Str" (JStr "hi")]) v' /\
    (forall l, v' = VRef l -> 2 <= l).
Proof.
  apply (get_code_in_para_copies (fun _ _ => EmptyString) 3 (JList [node "Str" (JStr "hi")])
           (VRef 1) [ODict [("t", VStr "Str"); ("c", VStr "hi")]; OList [VRef 0]] []);
    [repr_solve|simpl; lia|reflexivity].
Defined.

(** ** [md_to_pdf] *)

(** Replacing the object at the root of a tree disturbs nothing below it. *)
Lemma repr_update_root h l o t :
  repr h t (VRef l) ->
  forall n t' v', depth t' < n -> n <= depth t -> repr h t' v' -> repr (<[l := o]> h) t' v'.
Proof.
  intros Rt. induction n as [|n IH]; [lia|]. intros t' v' Hd Hn R.
  destruct t' as [| | | |ts|fs].
  1-4: inversion R; constructor.
  - apply repr_list_inv in R as (l0 & vs & -> & El0 & F).
    assert (l0 <> l).
    { intros ->. assert (E : JList ts = t) by (eapply repr_functional; [|exact Rt];
        by eapply repr_list). subst t. lia. }
    eapply repr_list; [by rewrite list_lookup_insert_ne|].
    eapply Forall2_impl_l; [exact F| |intros x y Hx Hr; apply (IH x y Hx); [lia|exact Hr]].
    apply Forall_forall. intros x Hx%depth_item. lia.
  - apply repr_dict_inv in R as (l0 & kvs0 & -> & El0 & Hnd & F).
    assert (l0 <> l).
    { intros ->. assert (E : JDict fs = t) by (eapply repr_functional; [|exact Rt];
        by eapply repr_dict). subst t. lia. }
    eapply repr_dict; [by rewrite list_lookup_insert_ne|done|].
    eapply (Forall2_impl_l _ _ (fun f : string * json => depth f.2 < n)); [exact F| |].
    + apply Forall_forall. intros f Hf%depth_field. lia.
    + intros f kv Hf [? Hr]. split; [done|]. apply (IH _ _ Hf); [lia|exact Hr].
Qed.

Lemma Forall2_set_field (R : json -> pyval -> Prop) k tm m :
  forall fs (kvs : list (string * pyval)),
    Forall2 (fun f kv => f.1 = kv.1 /\ R f.2 kv.2) fs kvs ->
    R tm m ->
    Forall2 (fun f kv => f.1 = kv.1 /\ R f.2 kv.2) (set_field k tm fs) (dict_store k m kvs).
Proof.
  intros fs kvs F Hm. induction F as [|[k1 t1] [k2 v2] fs kvs [E Hr] F IH]; simpl.
  - by repeat constructor.
  - simpl in E. subst k2. destruct (String.eqb k k1); constructor; done.
Qed.

Lemma dict_store_NoDup k v (kvs : list (string * pyval)) :
  NoDup (kvs.*1) -> NoDup ((dict_store k v kvs).*1).
Proof.
  intros Hnd. destruct (decide (k ∈ kvs.*1)) as [Hin|Hnin].
  - rewrite dict_store_keys; [done|]. by apply dict_lookup_is_Some.
  - rewrite dict_store_fresh by done. rewrite fmap_app. apply NoDup_app.
    split; [done|]. split; [|apply NoDup_singleton].
    intros x Hx ->%list_elem_of_singleton. done.
Qed.

(** X14.  When the input parses to a mapping in which no list consists of
    mappings one of which is tagged [CodeBlock], and the recursion budget is
    above its depth, [md_to_pdf] hands to [json.dumps] an object that stands
    for the parsed mapping with the fixed typesetting options under
    ['meta'], at the place of the old ['meta'] entry or at the end when
    there was none; whatever the document had under ['meta'] is dropped.
    The text written is what [json.dumps] makes of that object. *)
Theorem md_to_pdf_replaces_meta (str_of_object : list pyobj -> pyval -> string)
    (json_loads : string -> option json) (json_dumps : list pyobj -> pyval -> option string)
    (fuel : nat) (input : string) (fs : list (string * json)) (st : state) :
  json_loads input = Some (JDict fs) ->
  distinct_keys (JDict fs) = true ->
  code_free (JDict fs) = true ->
  depth (JDict fs) < fuel ->
  exists h' doc',
    md_to_pdf str_of_object json_loads json_dumps fuel input st
      = (written (json_dumps h' doc'), mkState h' (st_calls st)) /\
    repr h' (JDict (set_field "meta" fixed_meta fs)) doc'.
Proof.
  intros Hl Hdk Hcf Hd. unfold md_to_pdf. rewrite Hl.
  destruct (load_repr _ Hdk st) as (v & f0 & E0 & R0).
  erewrite bind_ok; [|exact E0].
  destruct (get_code_in_para_copies_aux str_of_object _ Hcf fuel Hd v _ (st_calls st) R0)
    as (v' & f1 & E1 & R1 & _).
  erewrite bind_ok; [|exact E1].
  set (h1 := (st_heap st ++ f0) ++ f1) in *.
  pose proof R1 as R1'. apply repr_dict_inv in R1' as (l & kvs & -> & El & Hnd & F).
  assert (Hlt : l < length h1) by (by apply lookup_lt_Some in El).
  rewrite bind_unfold, add_meta_steps. unfold dict_setitem. cbn [st_heap st_calls].
  rewrite (heap_lookup_old _ _ _ _ El).
  rewrite bind_unfold. cbn [get_heap st_heap st_calls].
  exists (<[l := ODict (dict_store "meta" (VRef (length h1 + 8)) kvs)]>
            (h1 ++ meta_objects (length h1))), (VRef l). split.
  { unfold written. destruct (json_dumps _ (VRef l)); reflexivity. }
  eapply repr_dict; [apply list_lookup_insert_eq; rewrite length_app; lia| |].
  - by apply dict_store_NoDup.
  - apply Forall2_set_field.
    + eapply (Forall2_impl_l _ _ (fun f : string * json => depth f.2 < depth (JDict fs)));
        [exact F| |].
      * apply Forall_forall. intros f Hf. by apply depth_field.
      * intros f kv Hf [? Hr]. split; [done|].
        apply (repr_update_root _ _ _ (JDict fs)) with (n := depth (JDict fs));
          [by apply repr_alloc|done|done|by apply repr_alloc].
    + repr_solve_with ltac:(rewrite lookup_fresh_block by exact Hlt; reflexivity).
Qed.

Lemma md_to_pdf_replaces_meta_witness :
  exists h' doc',
    md_to_pdf (fun _ _ => EmptyString) (fun _ => Some titled_doc) (fun _ _ => Some "out")
      5 "{...}" init
      = (written (Some "out"), mkState h' []) /\
    repr h'
      (JDict (set_field "meta" fixed_meta
                [("meta", titled_meta); ("blocks", JList [node "Para" (JList [])])]))
      doc'.
Proof.
  apply (md_to_pdf_replaces_meta (fun _ _ => EmptyString) (fun _ => Some titled_doc)
           (fun _ _ => Some "out") 5 "{...}"
           [("meta", titled_meta); ("blocks", JList [node "Para" (JList [])])] init); [reflexivity|vm_compute; reflexivity|reflexivity|vm_compute; lia].
Defined.

(** *** Lists stay lists *)

Lemma lists_kept_refl h : lists_kept h h.
Proof. split; [done|eauto]. Qed.

Lemma lists_kept_trans h1 h2 h3 : lists_kept h1 h2 -> lists_kept h2 h3 -> lists_kept h1 h3.
Proof.
  intros [L1 H1] [L2 H2]. split; [lia|]. intros l items El.
  destruct (H1 _ _ El) as [items' El']. eauto.
Qed.

Lemma lists_kept_alloc h fresh : lists_kept h (h ++ fresh).
Proof.
  split; [rewrite length_app; lia|]. intros l items El. exists items.
  by apply heap_lookup_old.
Qed.

Lemma lists_kept_list h l items : lists_kept h (<[l := OList items]> h).
Proof.
  split; [by rewrite length_insert|]. intros l' items' El'.
  destruct (decide (l' = l)) as [->|Hne].
  - exists items. apply list_lookup_insert_eq. by apply lookup_lt_Some in El'.
  - exists items'. by rewrite list_lookup_insert_ne.
Qed.

Section steady.

Lemma steady_same {A} (m : M A) : (forall st, (m st).2 = st) -> steady m.
Proof. intros H st. rewrite H. apply lists_kept_refl. Qed.

Lemma steady_ret {A} (a : A) : steady (mret a).
Proof. by apply steady_same. Qed.

Lemma steady_raise {A} (e : exn) : steady (raise e : M A).
Proof. by apply steady_same. Qed.

Lemma steady_alloc o : steady (alloc o).
Proof. intros st. apply lists_kept_alloc. Qed.

Lemma steady_bind {A B} (m : M A) (f : A -> M B) :
  steady m -> (forall a, steady (f a)) -> steady (m ≫= f).
Proof.
  intros Hm Hf st. rewrite bind_unfold. pose proof (Hm st) as K1.
  destruct (m st) as [[a|e|] st1]; simpl in *; [|done..].
  eapply lists_kept_trans; [exact K1|apply Hf].
Qed.

Lemma steady_dict_getitem d k : steady (dict_getitem d k).
Proof.
  apply steady_same. intros st. unfold dict_getitem. rewrite bind_unfold. simpl.
  destruct (as_dict (st_heap st) d) as [kvs|]; [|done]. by destruct (dict_lookup k kvs).
Qed.

Lemma steady_getitem_int x i : steady (getitem_int x i).
Proof.
  apply steady_same. intros st. unfold getitem_int. rewrite bind_unfold. simpl.
  destruct x as [| | |s|l]; try done.
  - by destruct (String.get i s).
  - destruct (st_heap st !! l) as [[items|kvs]|]; try done. by destruct (items !! i).
Qed.

Lemma steady_list_append x v : steady (list_append x v).
Proof.
  intros st. unfold list_append.
  destruct x as [| | | |l]; try apply lists_kept_refl.
  destruct (st_heap st !! l) as [[items|kvs]|]; try apply lists_kept_refl.
  apply lists_kept_list.
Qed.

Lemma steady_list_delitem x i : steady (list_delitem x i).
Proof.
  intros st. unfold list_delitem.
  destruct x as [| | | |l]; try apply lists_kept_refl.
  destruct (st_heap st !! l) as [[items|kvs]|]; try apply lists_kept_refl.
  destruct (i <? length items)%nat; [apply lists_kept_list|apply lists_kept_refl].
Qed.

Lemma steady_elt eltType num_args args : steady (elt eltType num_args args).
Proof.
  unfold elt. destruct (negb _); [apply steady_raise|].
  apply steady_bind; [|intros c; apply steady_alloc].
  destruct (num_args =? 0)%nat; [apply steady_alloc|].
  destruct args as [|a [|b rest]]; [apply steady_alloc|apply steady_ret|apply steady_alloc].
Qed.

Context (str_of_object : list pyobj -> pyval -> string).

Lemma steady_merge_loop turns tree :
  forall index per_block, steady (merge_loop str_of_object turns tree index per_block).
Proof.
  induction turns as [|turns IH]; intros index per_block; [apply steady_ret|].
  cbn [merge_loop]. apply steady_bind; [by apply steady_same|]. intros h.
  destruct (default [] (as_list h tree) !! index) as [block|]; [|apply steady_ret].
  apply steady_bind; [apply steady_dict_getitem|]. intros t.
  apply steady_bind.
  { destruct (is_str "CodeBlock" t && truthy h per_block); [|apply steady_ret].
    apply steady_bind; [apply steady_dict_getitem|]. intros pt. apply steady_ret. }
  intros cond. apply steady_bind; [|intros b; apply IH].
  destruct cond; [|apply steady_ret].
  apply steady_bind; [apply steady_dict_getitem|]. intros c.
  apply steady_bind; [apply steady_getitem_int|]. intros c0.
  apply steady_bind; [apply steady_getitem_int|]. intros classes.
  apply steady_bind.
  { destruct (truthy h classes); [|apply steady_ret].
    apply steady_bind; [apply steady_dict_getitem|]. intros c'.
    apply steady_bind; [apply steady_getitem_int|]. intros c0'.
    apply steady_bind; [apply steady_getitem_int|]. intros classes'.
    apply steady_bind; [apply steady_getitem_int|]. intros lang. apply steady_ret. }
  intros block_c_begin.
  apply steady_bind; [apply steady_dict_getitem|]. intros c'.
  apply steady_bind; [apply steady_getitem_int|]. intros code.
  apply steady_bind; [apply steady_elt|]. intros raw.
  apply steady_bind; [apply steady_dict_getitem|]. intros pc.
  apply steady_bind; [apply steady_list_append|]. intros _.
  apply steady_bind; [apply steady_list_delitem|]. intros _. apply steady_ret.
Qed.

(** Handed a scalar or a list, [get_code_in_para] hands back a scalar or a
    list. *)
Lemma get_code_in_para_no_mapping fuel v st v' st' :
  no_mapping (st_heap st) v ->
  get_code_in_para str_of_object fuel v st = (Ok v', st') ->
  no_mapping (st_heap st') v'.
Proof.
  destruct fuel as [|n]; [discriminate|]. intros Hv.
  cbn [get_code_in_para]. rewrite bind_unfold. cbn [get_heap].
  destruct v as [| | | |l]; try (by intros [= <- <-]).
  destruct Hv as [items El]. rewrite El.
  destruct (forallb (is_dict (st_heap st)) items && existsb (is_code_block (st_heap st)) items).
  - rewrite bind_unfold.
    pose proof (steady_merge_loop (length items) (VRef l) 0 VNone st) as [_ K].
    destruct (merge_loop _ _ _ _ _ st) as [[[]|e|] st1]; try discriminate.
    intros [= <- <-]. exact (K _ _ El).
  - rewrite bind_unfold.
    destruct (comprehension _ _ _ _ st) as [[out|e|] st1]; try discriminate.
    unfold alloc. intros [= <- <-]. exists out. apply heap_lookup_fresh.
Qed.
End steady.

Lemma load_no_mapping (t : json) :
  (forall fs, t <> JDict fs) ->
  forall st v st1, load t st = (Ok v, st1) -> no_mapping (st_heap st1) v.
Proof.
  intros Hnd st v st1 E. destruct t as [| | | |items|fs]; try (by injection E as <- _).
  - simpl in E. apply bind_inv_ok in E as (vs & st0 & _ & E).
    unfold alloc in E. injection E as <- <-. exists vs. apply heap_lookup_fresh.
  - by destruct (Hnd fs).
Qed.

Lemma add_meta_no_mapping doc h calls :
  no_mapping h doc ->
  add_meta doc (mkState h calls)
    = (Raise TypeError, mkState (h ++ meta_objects (length h)) calls).
Proof.
  intros Hd. rewrite add_meta_steps. unfold dict_setitem.
  destruct doc as [| | | |l]; try done. destruct Hd as [items El].
  cbn [st_heap]. by rewrite (heap_lookup_old _ _ _ _ El).
Qed.

(** X15.  [md_to_pdf] writes nothing unless the input parses to a mapping.
    Malformed input raises the parser's error with the store untouched.  A
    list or a scalar goes through [get_code_in_para] first, and if that
    returns, [add_meta] raises [TypeError] at [doc['meta'] = ...]; for a
    document without code blocks and with enough recursion budget that is
    what happens. *)
Theorem md_to_pdf_needs_a_mapping (str_of_object : list pyobj -> pyval -> string)
    (json_loads : string -> option json) (json_dumps : list pyobj -> pyval -> option string)
    (fuel : nat) (input : string) (st : state) :
  (forall fs, json_loads input <> Some (JDict fs)) ->
  (forall out, (md_to_pdf str_of_object json_loads json_dumps fuel input st).1 <> Ok out) /\
  (json_loads input = None ->
   md_to_pdf str_of_object json_loads json_dumps fuel input st = (Raise JSONDecodeError, st)) /\
  (forall t, json_loads input = Some t ->
     distinct_keys t = true -> code_free t = true -> depth t < fuel ->
     (md_to_pdf str_of_object json_loads json_dumps fuel input st).1 = Raise TypeError).
Proof.
  intros Hnd. unfold md_to_pdf. destruct (json_loads input) as [t|] eqn:Hl.
  - assert (Ht : forall fs, t <> JDict fs) by (intros fs ->; by apply (Hnd fs)).
    destruct (load_ok t st) as (v & f0 & E0). erewrite bind_ok; [|exact E0].
    pose proof (load_no_mapping t Ht _ _ _ E0) as Hv. split; [|split; [done|]].
    + intros out. rewrite bind_unfold.
      destruct (get_code_in_para _ _ _ _) as [[v'|e|] [h1 calls1]] eqn:E1; try done.
      pose proof (get_code_in_para_no_mapping _ _ _ _ _ _ Hv E1) as Hv'.
      rewrite bind_unfold, (add_meta_no_mapping _ _ _ Hv'). done.
    + intros t' [= <-] Hdk Hcf Hd.
      destruct (load_repr _ Hdk st) as (v0 & f0' & E0' & R0).
      rewrite E0 in E0'. injection E0' as <- <-%app_inv_head.
      destruct (get_code_in_para_copies_aux str_of_object _ Hcf fuel Hd v _ (st_calls st) R0)
        as (v' & f1 & E1 & _).
      erewrite bind_ok; [|exact E1].
      assert (Hv' : no_mapping ((st_heap st ++ f0) ++ f1) v').
      { exact (get_code_in_para_no_mapping _ _ _ _ _ _ Hv E1). }
      by rewrite bind_unfold, (add_meta_no_mapping _ _ _ Hv').
  - split; [done|]. split; [by destruct st|done].
Qed.

Lemma md_to_pdf_needs_a_mapping_witness :
  (forall out,
     (md_to_pdf (fun _ _ => EmptyString) (fun _ => Some (JList [node "Para" (JList [])]))
        (fun _ _ => Some "out") 5 "[...]" init).1 <> Ok out) /\
  (md_to_pdf (fun _ _ => EmptyString) (fun _ => Some (JList [node "Para" (JList [])]))
     (fun _ _ => Some "out") 5 "[...]" init).1 = Raise TypeError.
Proof.
  destruct (md_to_pdf_needs_a_mapping (fun _ _ => EmptyString)
              (fun _ => Some (JList [node "Para" (JList [])])) (fun _ _ => Some "out")
              5 "[...]" init) as (Hnever & _ & Hraise).
  - intros fs. discriminate.
  - split; [exact Hnever|].
    apply (Hraise _ eq_refl); [reflexivity|reflexivity|vm_compute; lia].
Defined.

(* ===================================================================== *)
(** * Part IV. The walk as a rewrite of trees                             *)
(* ===================================================================== *)

(** [walk] stores into dicts in place, so what it does to an object depends
    on what else refers to that object.  On a tree in which no object is
    used twice, as [json.loads] builds them, it computes on the objects what
    [spec_walk] computes on the trees. *)

(** ** Unshared trees *)

Lemma own_repr h t : forall v L, own h t v L -> repr h t v.
Proof.
  induction t as [| | | |ts IH|fs IH] using json_ind'; intros v L H;
    inversion H as [| | | |l vs ts0 Ls El F|l kvs fs0 Ls El Hnd F]; subst; try constructor.
  - eapply repr_list; [exact El|]. clear El H.
    induction F as [|t v L ts vs Ls Ho F IHF]; constructor;
      apply Forall_cons in IH as [IHt IHts]; eauto.
  - eapply repr_dict; [exact El|done|]. clear El H Hnd.
    induction F as [|f kv L fs kvs Ls [Ek Ho] F IHF]; constructor;
      apply Forall_cons in IH as [IHt IHts]; eauto.
Qed.

Lemma own_bound h t : forall v L, own h t v L -> forall l, l ∈ L -> l < length h.
Proof.
  induction t as [| | | |ts IH|fs IH] using json_ind'; intros v L H;
    inversion H as [| | | |l vs ts0 Ls El F|l kvs fs0 Ls El Hnd F]; subst;
    try (by intros l ?%elem_of_nil).
  - intros x [->|Hx]%elem_of_cons; [by apply lookup_lt_Some in El|].
    clear El H. induction F as [|t v L ts vs Ls Ho F IHF]; [by apply elem_of_nil in Hx|].
    apply Forall_cons in IH as [IHt IHts]. simpl in Hx.
    apply elem_of_app in Hx as [Hx|Hx]; eauto.
  - intros x [->|Hx]%elem_of_cons; [by apply lookup_lt_Some in El|].
    clear El H Hnd. induction F as [|f kv L fs kvs Ls [Ek Ho] F IHF];
      [by apply elem_of_nil in Hx|].
    apply Forall_cons in IH as [IHt IHts]. simpl in Hx.
    apply elem_of_app in Hx as [Hx|Hx]; eauto.
Qed.

Lemma own_frame h h' t :
  forall v L, own h t v L -> (forall l, l ∈ L -> h' !! l = h !! l) -> own h' t v L.
Proof.
  induction t as [| | | |ts IH|fs IH] using json_ind'; intros v L H Hsame;
    inversion H as [| | | |l vs ts0 Ls El F|l kvs fs0 Ls El Hnd F]; subst.
  1-4: constructor.
  - assert (Hs : forall x, x ∈ concat Ls -> h' !! x = h !! x)
      by (intros x Hx; apply Hsame; by right).
    eapply own_list; [rewrite Hsame by left; exact El|].
    clear El H Hsame. induction F as [|t v L ts vs Ls Ho F IHF]; constructor;
      apply Forall_cons in IH as [IHt IHts].
    + apply IHt; [done|]. intros x Hx. apply Hs. simpl. apply elem_of_app. by left.
    + apply IHF; [done|]. intros x Hx. apply Hs. simpl. apply elem_of_app. by right.
  - assert (Hs : forall x, x ∈ concat Ls -> h' !! x = h !! x)
      by (intros x Hx; apply Hsame; by right).
    eapply own_dict; [rewrite Hsame by left; exact El|done|].
    clear El H Hsame Hnd. induction F as [|f kv L fs kvs Ls [Ek Ho] F IHF]; constructor;
      apply Forall_cons in IH as [IHt IHts].
    + split; [done|]. apply IHt; [done|]. intros x Hx. apply Hs. simpl.
      apply elem_of_app. by left.
    + apply IHF; [done|]. intros x Hx. apply Hs. simpl. apply elem_of_app. by right.
Qed.

Lemma owns_bound h ts vs Ls :
  Forall3 (own h) ts vs Ls -> forall l, l ∈ concat Ls -> l < length h.
Proof.
  induction 1 as [|t v L ts vs Ls Ho F IH]; intros l Hl; [by apply elem_of_nil in Hl|].
  simpl in Hl. apply elem_of_app in Hl as [Hl|Hl]; [by eapply own_bound|by apply IH].
Qed.

Lemma fields_bound h fs (kvs : list (string * pyval)) Ls :
  Forall3 (fun f kv L => f.1 = kv.1 /\ own h f.2 kv.2 L) fs kvs Ls ->
  forall l, l ∈ concat Ls -> l < length h.
Proof.
  induction 1 as [|f kv L fs kvs Ls [_ Ho] F IH]; intros l Hl; [by apply elem_of_nil in Hl|].
  simpl in Hl. apply elem_of_app in Hl as [Hl|Hl]; [by eapply own_bound|by apply IH].
Qed.

Lemma own_within h h' X t v L :
  own h t v L -> changes_within X h h' -> (forall l, l ∈ L -> l ∉ X) -> own h' t v L.
Proof.
  intros H [_ Hc] Hd. eapply own_frame; [exact H|]. intros l Hl.
  apply Hc; [by eapply own_bound|by apply Hd].
Qed.

Lemma owns_within h h' X ts vs Ls :
  Forall3 (own h) ts vs Ls -> changes_within X h h' ->
  (forall l, l ∈ concat Ls -> l ∉ X) -> Forall3 (own h') ts vs Ls.
Proof.
  intros F Hc. induction F as [|t v L ts vs Ls Ho F IH]; intros Hd; constructor.
  - eapply own_within; [exact Ho|exact Hc|]. intros l Hl. apply Hd. simpl.
    apply elem_of_app. by left.
  - apply IH. intros l Hl. apply Hd. simpl. apply elem_of_app. by right.
Qed.

Lemma fields_within h h' X fs (kvs : list (string * pyval)) Ls :
  Forall3 (fun f kv L => f.1 = kv.1 /\ own h f.2 kv.2 L) fs kvs Ls ->
  changes_within X h h' ->
  (forall l, l ∈ concat Ls -> l ∉ X) ->
  Forall3 (fun f kv L => f.1 = kv.1 /\ own h' f.2 kv.2 L) fs kvs Ls.
Proof.
  intros F Hc. induction F as [|f kv L fs kvs Ls [Ek Ho] F IH]; intros Hd; constructor.
  - split; [done|]. eapply own_within; [exact Ho|exact Hc|]. intros l Hl. apply Hd. simpl.
    apply elem_of_app. by left.
  - apply IH. intros l Hl. apply Hd. simpl. apply elem_of_app. by right.
Qed.

(** A field of an owned mapping is owned, with objects of the mapping. *)
Lemma own_field h fs (kvs : list (string * pyval)) Ls k :
  Forall3 (fun f kv L => f.1 = kv.1 /\ own h f.2 kv.2 L) fs kvs Ls ->
  NoDup (concat Ls) ->
  match field k fs, dict_lookup k kvs with
  | Some t, Some v =>
      exists L, own h t v L /\ NoDup L /\ forall l, l ∈ L -> l ∈ concat Ls
  | None, None => True
  | _, _ => False
  end.
Proof.
  induction 1 as [|[k1 t] [k2 v] L fs kvs Ls [E Ho] F IH]; simpl; [done|].
  simpl in E. subst k2. intros [Hnd [Hdis Hnds]]%NoDup_app.
  destruct (String.eqb k k1).
  - exists L. split; [done|]. split; [done|]. intros l Hl. apply elem_of_app. by left.
  - specialize (IH Hnds).
    destruct (field k fs), (dict_lookup k kvs); try done.
    destruct IH as (L' & H1 & H2 & H3). exists L'. split; [done|]. split; [done|].
    intros l Hl. apply elem_of_app. right. by apply H3.
Qed.

Lemma NoDup_app_l_r (A B : list nat) :
  NoDup (A ++ B) -> NoDup A /\ NoDup B /\ (forall l, l ∈ A -> l ∉ B) /\ (forall l, l ∈ B -> l ∉ A).
Proof.
  intros (HA & Hd & HB)%NoDup_app. repeat split; [done|done|done|].
  intros l Hl Hl'. by apply (Hd l).
Qed.

(** ** Objects touched and objects used *)

Lemma changes_within_refl X h : changes_within X h h.
Proof. by split. Qed.

Lemma changes_within_alloc X h fresh : changes_within X h (h ++ fresh).
Proof.
  split; [rewrite length_app; lia|]. intros l Hl _. by apply lookup_app_l.
Qed.

Lemma changes_within_insert X h l o : l ∈ X -> changes_within X h (<[l := o]> h).
Proof.
  intros Hl. split; [by rewrite length_insert|]. intros l' _ Hl'.
  apply list_lookup_insert_ne. by intros ->.
Qed.

Lemma changes_within_trans (X Y Z : list nat) h h1 h2 :
  changes_within X h h1 -> changes_within Y h1 h2 ->
  (forall l, l < length h -> l ∈ X \/ l ∈ Y -> l ∈ Z) ->
  changes_within Z h h2.
Proof.
  intros [L1 C1] [L2 C2] Hsub. split; [lia|]. intros l Hl Hz.
  rewrite C2, C1; [done|done| |lia|].
  - intros Hx. apply Hz, Hsub; auto.
  - intros Hy. apply Hz, Hsub; auto.
Qed.

Lemma drawn_fresh (L : list nat) lo (L' X : list nat) :
  drawn_from L lo L' -> (forall l, l ∈ X -> l < lo) -> (forall l, l ∈ L -> l ∉ X) ->
  forall l, l ∈ L' -> l ∉ X.
Proof.
  intros Hd Hx Hdis l Hl Hin. destruct (Hd l Hl) as [HL|Hlo].
  - by apply (Hdis l).
  - apply Hx in Hin. lia.
Qed.

Lemma NoDup_drawn_app (A' B B' : list nat) hi :
  NoDup A' -> NoDup B' -> drawn_from B hi B' ->
  (forall l, l ∈ A' -> l < hi) -> (forall l, l ∈ A' -> l ∉ B) ->
  NoDup (A' ++ B').
Proof.
  intros HA HB Hd Hlt Hdis. apply NoDup_app. split; [done|]. split; [|done].
  intros l Hl Hl'. destruct (Hd l Hl') as [HinB|Hhi].
  - by apply (Hdis l).
  - apply Hlt in Hl. lia.
Qed.

Lemma drawn_from_app (A B : list nat) lo hi (A' B' : list nat) :
  drawn_from A lo A' -> drawn_from B hi B' -> lo <= hi ->
  drawn_from (A ++ B) lo (A' ++ B').
Proof.
  intros HA HB Hle l [Hl|Hl]%elem_of_app.
  - destruct (HA l Hl); [left; apply elem_of_app; by left|by right].
  - destruct (HB l Hl); [left; apply elem_of_app; by right|right; lia].
Qed.

Lemma drawn_from_weaken (L L0 : list nat) lo lo0 (L' : list nat) :
  drawn_from L lo L' -> (forall l, l ∈ L -> l ∈ L0 \/ lo0 <= l) -> lo0 <= lo ->
  drawn_from L0 lo0 L'.
Proof.
  intros Hd Hsub Hle l Hl. destruct (Hd l Hl) as [H|H]; [by apply Hsub|right; lia].
Qed.

Lemma dict_lookup_middle k v (pre rest : list (string * pyval)) :
  k ∉ pre.*1 -> dict_lookup k (pre ++ (k, v) :: rest) = Some v.
Proof.
  induction pre as [|[k' v'] pre IH]; cbn [app dict_lookup].
  - by rewrite String.eqb_refl.
  - rewrite fmap_cons. intros [Hne Hnin]%not_elem_of_cons. cbn [fst] in Hne.
    apply String.eqb_neq in Hne as ->. by apply IH.
Qed.

Lemma dict_store_middle k v v' (pre rest : list (string * pyval)) :
  k ∉ pre.*1 -> dict_store k v' (pre ++ (k, v) :: rest) = pre ++ (k, v') :: rest.
Proof.
  induction pre as [|[k0 v0] pre IH]; cbn [app dict_store].
  - by rewrite String.eqb_refl.
  - rewrite fmap_cons. intros [Hne Hnin]%not_elem_of_cons. cbn [fst] in Hne.
    apply String.eqb_neq in Hne as ->. by rewrite IH.
Qed.


(** ** Loaded documents are unshared *)

(** What [load] builds shares nothing: every object is new and is used
    once. *)
Lemma load_own (t : json) :
  distinct_keys t = true ->
  forall st, exists v fresh L,
    load t st = (Ok v, mkState (st_heap st ++ fresh) (st_calls st)) /\
    own (st_heap st ++ fresh) t v L /\ NoDup L /\
    forall l, l ∈ L -> length (st_heap st) <= l.
Proof.
  induction t as [| | | |items IH|fields IH] using json_ind'; intros Hd st;
    try (eexists _, [], []; rewrite app_nil_r;
         split; [by destruct st|]; split; [constructor|];
         split; [constructor|by intros l ?%elem_of_nil]).
  - assert (Hgo : forall st, exists vs fresh Ls,
      (fix go (ts : list json) : M (list pyval) :=
         match ts with
         | [] => mret []
         | t' :: ts' => v ← load t'; vs ← go ts'; mret (v :: vs)
         end) items st = (Ok vs, mkState (st_heap st ++ fresh) (st_calls st)) /\
      Forall3 (own (st_heap st ++ fresh)) items vs Ls /\ NoDup (concat Ls) /\
      forall l, l ∈ concat Ls -> length (st_heap st) <= l).
    { clear st. simpl in Hd. induction IH as [|x xs Hx _ IHxs]; intros st.
      - eexists _, [], []. rewrite app_nil_r. split; [by destruct st|].
        split; [constructor|]. split; [constructor|by intros l ?%elem_of_nil].
      - simpl in Hd. apply andb_prop in Hd as [Hdx Hdxs].
        destruct (Hx Hdx st) as (v & f1 & L1 & E1 & O1 & N1 & B1).
        destruct (IHxs Hdxs (mkState (st_heap st ++ f1) (st_calls st)))
          as (vs & f2 & Ls2 & E2 & O2 & N2 & B2). cbn [st_heap st_calls] in E2, O2, B2.
        exists (v :: vs), (f1 ++ f2), (L1 :: Ls2). erewrite bind_ok; [|exact E1].
        erewrite bind_ok; [|exact E2]. rewrite app_assoc. split; [done|].
        split.
        { constructor; [|done]. eapply own_within; [exact O1|apply (changes_within_alloc [])|].
          by intros l _ ?%elem_of_nil. }
        cbn [concat]. split.
        + apply NoDup_app. split; [done|]. split; [|done].
          intros l Hl Hl'. apply B2 in Hl'. apply (own_bound _ _ _ _ O1) in Hl. lia.
        + intros l [Hl|Hl]%elem_of_app; [by apply B1|].
          apply B2 in Hl. rewrite length_app in Hl. lia. }
    destruct (Hgo st) as (vs & f1 & Ls & E1 & O1 & N1 & B1).
    eexists _, (f1 ++ [_]), (length (st_heap st ++ f1) :: concat Ls). simpl.
    erewrite bind_ok; [|exact E1]. unfold alloc. simpl. rewrite app_assoc.
    split; [done|]. split.
    { eapply own_list; [apply heap_lookup_fresh|].
      eapply owns_within; [exact O1|apply (changes_within_alloc [])|].
      by intros l _ ?%elem_of_nil. }
    split.
    + apply NoDup_cons. split; [|done]. intros Hin.
      apply (owns_bound _ _ _ _ O1) in Hin. lia.
    + intros l [->|Hl]%elem_of_cons; [rewrite length_app; lia|by apply B1].
  - simpl in Hd. apply andb_prop in Hd as [Hnd Hd]. apply bool_decide_eq_true in Hnd.
    assert (Hgo : forall acc st, (forall k, k ∈ fields.*1 -> k ∉ acc.*1) ->
      exists kvs fresh Ls,
      (fix go (fs : list (string * json)) (acc : list (string * pyval))
           : M (list (string * pyval)) :=
         match fs with
         | [] => mret acc
         | f :: fs' => v ← load f.2; go fs' (dict_store f.1 v acc)
         end) fields acc st
        = (Ok (acc ++ kvs), mkState (st_heap st ++ fresh) (st_calls st)) /\
      Forall3 (fun f kv L => f.1 = kv.1 /\ own (st_heap st ++ fresh) f.2 kv.2 L)
        fields kvs Ls /\
      NoDup (concat Ls) /\
      forall l, l ∈ concat Ls -> length (st_heap st) <= l).
    { clear st. induction IH as [|x xs Hx _ IHxs]; intros acc st Hfresh.
      - eexists [], [], []. rewrite !app_nil_r. split; [by destruct st|].
        split; [constructor|]. split; [constructor|by intros l ?%elem_of_nil].
      - simpl in Hd. apply andb_prop in Hd as [Hdx Hdxs].
        rewrite fmap_cons in Hnd, Hfresh. apply NoDup_cons in Hnd as [Hx1 Hnd].
        destruct (Hx Hdx st) as (v & f1 & L1 & E1 & O1 & N1 & B1).
        destruct (IHxs Hnd Hdxs (dict_store x.1 v acc)
                    (mkState (st_heap st ++ f1) (st_calls st)))
          as (kvs & f2 & Ls2 & E2 & O2 & N2 & B2).
        { intros k Hk. rewrite dict_store_fresh by (apply Hfresh; left).
          rewrite fmap_app. simpl. intros [Hin|Hin%list_elem_of_singleton]%elem_of_app.
          - revert Hin. apply Hfresh. by right.
          - by subst k. }
        cbn [st_heap st_calls] in E2, O2, B2.
        rewrite dict_store_fresh in E2 by (apply Hfresh; left).
        exists ((x.1, v) :: kvs), (f1 ++ f2), (L1 :: Ls2). erewrite bind_ok; [|exact E1].
        rewrite dict_store_fresh by (apply Hfresh; left).
        rewrite E2, <- !app_assoc. split; [done|].
        rewrite app_assoc. split.
        { constructor; [|done]. split; [done|]. cbn [snd].
          eapply own_within; [exact O1|apply (changes_within_alloc [])|].
          by intros l _ ?%elem_of_nil. }
        cbn [concat]. split.
        + apply NoDup_app. split; [done|]. split; [|done].
          intros l Hl Hl'. apply B2 in Hl'. apply (own_bound _ _ _ _ O1) in Hl. lia.
        + intros l [Hl|Hl]%elem_of_app; [by apply B1|].
          apply B2 in Hl. rewrite length_app in Hl. lia. }
    destruct (Hgo [] st) as (kvs & f1 & Ls & E1 & O1 & N1 & B1);
      [by intros k _ ?%elem_of_nil|].
    eexists _, (f1 ++ [_]), (length (st_heap st ++ f1) :: concat Ls). simpl.
    erewrite bind_ok; [|exact E1]. unfold alloc. simpl. rewrite app_assoc.
    split; [done|]. split.
    { eapply own_dict; [apply heap_lookup_fresh| |].
      - assert (K : fields.*1 = kvs.*1); [|by rewrite <- K].
        clear -O1. induction O1 as [|f kv L fs kvs Ls [E _] _ IHF]; [done|].
        rewrite !fmap_cons. by f_equal.
      - eapply fields_within; [exact O1|apply (changes_within_alloc [])|].
        by intros l _ ?%elem_of_nil. }
    split.
    + apply NoDup_cons. split; [|done]. intros Hin.
      apply (fields_bound _ _ _ _ O1) in Hin. lia.
    + intros l [->|Hl]%elem_of_cons; [rewrite length_app; lia|by apply B1].
Qed.


(** ** The refinement *)

Section refinement.
Context (act : action) (ja : spec_action) (format : string) (meta : pyval).
Context (rec : pyval -> M pyval) (jrec : json -> option (json * list (json * option json))).
Hypothesis Hact : acts_as act ja format meta.
Hypothesis Hrec : walks_as format meta rec jrec.

Lemma walk_each_refines trs zs Ls h :
  Forall3 (own h) trs zs Ls ->
  forall ts' ns calls,
    NoDup (concat Ls) ->
    spec_walk_each jrec trs = Some (ts', ns) ->
    exists outs h' calls' Ls',
      walk_each rec zs (mkState h calls) = (Ok outs, mkState h' (calls ++ calls')) /\
      Forall3 (own h') ts' outs Ls' /\ NoDup (concat Ls') /\
      drawn_from (concat Ls) (length h) (concat Ls') /\
      changes_within (concat Ls) h h' /\
      Forall2 (fun c n => offers (c_heap c) format meta c n) calls' ns.
Proof.
  intros F. revert zs Ls h F.
  induction trs as [|t trs IH]; intros zs Ls h F ts' ns calls Hnd E.
  - inversion F; subst. injection E as <- <-. exists [], h, [], [].
    rewrite app_nil_r. repeat split; try constructor; done.
  - apply Forall3_cons_inv_l in F as (z & zs' & L & Ls' & -> & -> & Ho & F).
    cbn [spec_walk_each] in E.
    destruct (jrec t) as [[t1 ns1]|] eqn:E1; [|discriminate].
    destruct (spec_walk_each jrec trs) as [[ts2 ns2]|] eqn:E2; [|discriminate].
    injection E as <- <-. cbn [concat] in Hnd.
    apply NoDup_app_l_r in Hnd as (HndL & HndLs & Hdis & Hdis').
    destruct (Hrec t t1 ns1 E1 h calls z L Ho HndL)
      as (v1 & h1 & c1 & L1 & R1 & O1 & N1 & D1 & C1 & Of1).
    assert (F1 : Forall3 (own h1) trs zs' Ls') by (eapply owns_within; eauto).
    destruct (IH zs' Ls' h1 F1 ts2 ns2 (calls ++ c1) HndLs eq_refl)
      as (outs & h2 & c2 & Ls2 & R2 & O2 & N2 & D2 & C2 & Of2).
    assert (Hold : forall l, l ∈ concat Ls' -> l < length h) by (by eapply owns_bound).
    assert (HL1 : forall l, l ∈ L1 -> l ∉ concat Ls').
    { eapply drawn_fresh; [exact D1|exact Hold|exact Hdis]. }
    exists (v1 :: outs), h2, (c1 ++ c2), (L1 :: Ls2). cbn [walk_each].
    erewrite bind_ok; [|exact R1]. erewrite bind_ok; [|exact R2].
    split; [by rewrite app_assoc|].
    split; [constructor; [by eapply own_within|done]|].
    cbn [concat].
    split; [eapply NoDup_drawn_app; [done|done|exact D2| |done];
            intros l Hl; by eapply own_bound|].
    split; [eapply drawn_from_app; [done|done|apply C1]|].
    split; [|by apply Forall2_app].
    eapply changes_within_trans; [exact C1|exact C2|].
    intros l _ [?|?]; apply elem_of_app; auto.
Qed.

Lemma walk_single_refines t t' ns h calls v L :
  jrec t = Some (t', ns) -> own h t v L -> NoDup L ->
  exists outs h' calls' Ls',
    (y ← rec v; mret [y]) (mkState h calls) = (Ok outs, mkState h' (calls ++ calls')) /\
    Forall3 (own h') [t'] outs Ls' /\ NoDup (concat Ls') /\
    drawn_from L (length h) (concat Ls') /\
    changes_within L h h' /\
    Forall2 (fun c n => offers (c_heap c) format meta c n) calls' ns.
Proof.
  intros E Ho Hnd.
  destruct (Hrec t t' ns E h calls v L Ho Hnd) as (v1 & h1 & c1 & L1 & R1 & O1 & N1 & D1 & C1 & Of1).
  exists [v1], h1, c1, [L1]. erewrite bind_ok; [|exact R1]. cbn [concat].
  rewrite app_nil_r. split; [done|]. split; [by repeat constructor|]. done.
Qed.

Lemma walk_item_refines t item L h ts' ns calls :
  own h t item L -> NoDup L ->
  spec_walk_item jrec ja t = Some (ts', ns) ->
  exists outs h' calls' Ls',
    walk_item rec act format meta item (mkState h calls)
      = (Ok outs, mkState h' (calls ++ calls')) /\
    Forall3 (own h') ts' outs Ls' /\ NoDup (concat Ls') /\
    drawn_from L (length h) (concat Ls') /\
    changes_within L h h' /\
    Forall2 (fun c n => offers (c_heap c) format meta c n) calls' ns.
Proof.
  intros Ho Hnd E. rewrite walk_item_unfold.
  assert (Hplain : node_of t = [] ->
            exists outs h' calls' Ls',
              (y ← rec item; mret [y]) (mkState h calls)
                = (Ok outs, mkState h' (calls ++ calls')) /\
              Forall3 (own h') ts' outs Ls' /\ NoDup (concat Ls') /\
              drawn_from L (length h) (concat Ls') /\
              changes_within L h h' /\
              Forall2 (fun c n => offers (c_heap c) format meta c n) calls' ns).
  { intros En. unfold spec_walk_item in E. rewrite En in E.
    destruct (jrec t) as [[t1 ns1]|] eqn:E1; [|discriminate]. injection E as <- <-.
    by apply (walk_single_refines t). }
  inversion Ho as [| | | |l vs ts0 Ls El F|l kvs fs Ls El Hk F]; subst;
    try (by apply Hplain).
  - cbn [as_dict]. rewrite El. by apply Hplain.
  - cbn [as_dict]. rewrite El.
    apply NoDup_cons in Hnd as [Hl HndLs].
    pose proof (own_field h fs kvs Ls "t" F HndLs) as Kt.
    pose proof (own_field h fs kvs Ls "c" F HndLs) as Kc.
    destruct (dict_lookup "t" kvs) as [k|] eqn:Ek.
    2:{ apply Hplain. simpl. by destruct (field "t" fs). }
    destruct (field "t" fs) as [tag|] eqn:Etag; [|done].
    destruct Kt as (Lt & Ot & _ & _). apply own_repr in Ot.
    unfold spec_walk_item in E. cbn [node_of] in E. rewrite Etag in E. cbn [fst snd] in E.
    set (content := field "c" fs) in *.
    set (v := default VNone (dict_lookup "c" kvs)).
    assert (Hc : exists Lc, match content with
                            | Some ct => own h ct v Lc
                            | None => v = VNone /\ Lc = []
                            end /\ NoDup Lc /\ forall x, x ∈ Lc -> x ∈ concat Ls).
    { subst v. destruct content as [ct|], (dict_lookup "c" kvs) as [vc|]; try done.
      exists []. split; [done|]. split; [constructor|]. by intros x ?%elem_of_nil. }
    destruct Hc as (Lc & Hcont & HndLc & Hsub).
    destruct (Hact h tag content k v Lc Ot Hcont HndLc) as (r & fresh & Eact & Hja).
    rewrite bind_unfold. unfold call_action at 1. cbn [st_heap st_calls]. rewrite Eact.
    set (c := mkCall k v format meta h).
    assert (Hoff : offers (c_heap c) format meta c (tag, content)).
    { repeat split; [done|]. simpl. by destruct content; [eapply own_repr|destruct Hcont]. }
    destruct (ja tag content) as [|tr|trs].
    + subst r.
      destruct (jrec (JDict fs)) as [[t1 ns1]|] eqn:E1; [|discriminate].
      injection E as <- <-.
      assert (Ho' : own (h ++ fresh) (JDict fs) (VRef l) (l :: concat Ls)).
      { eapply own_within; [exact Ho|apply (changes_within_alloc [])|].
        by intros x _ ?%elem_of_nil. }
      destruct (walk_single_refines _ t1 ns1 (h ++ fresh) (calls ++ [c]) _ _ E1 Ho')
        as (outs & h' & calls' & Ls' & R & O & N & D & C & Of);
        [by apply NoDup_cons|].
      exists outs, h', (c :: calls'), Ls'.
      split; [rewrite R; by rewrite <- app_assoc|].
      split; [done|]. split; [done|].
      split; [eapply drawn_from_weaken; [exact D|by left|rewrite length_app; lia]|].
      split; [|by constructor].
      eapply changes_within_trans; [apply (changes_within_alloc [])|exact C|].
      intros x Hx [Hx'|Hx']; [by apply elem_of_nil in Hx'|done].
    + destruct Hja as (Hr & Easl & L1 & Or & Nr & Dr).
      destruct (jrec tr) as [[t1 ns1]|] eqn:E1; [|discriminate].
      injection E as <- <-.
      destruct (walk_single_refines _ t1 ns1 (h ++ fresh) (calls ++ [c]) _ _ E1 Or Nr)
        as (outs & h' & calls' & Ls' & R & O & N & D & C & Of).
      exists outs, h', (c :: calls'), Ls'.
      assert (Hin : forall x, x ∈ L1 -> x ∈ l :: concat Ls \/ length h <= x).
      { intros x Hx. destruct (Dr x Hx); [left; right; by apply Hsub|by right]. }
      split.
      { destruct r; try done; rewrite bind_unfold; cbn [get_heap st_heap]; rewrite Easl, R;
          by rewrite <- app_assoc. }
      split; [done|]. split; [done|].
      split; [eapply drawn_from_weaken; [exact D|exact Hin|rewrite length_app; lia]|].
      split; [|by constructor].
      eapply changes_within_trans; [apply (changes_within_alloc [])|exact C|].
      intros x Hx [Hx'|Hx']; [by apply elem_of_nil in Hx'|].
      destruct (Hin x Hx'); [done|lia].
    + destruct Hja as (zs & Lsr & Easl & Fr & Nr & Dr).
      destruct (spec_walk_each jrec trs) as [[ts1 ns1]|] eqn:E1; [|discriminate].
      injection E as <- <-.
      destruct (walk_each_refines trs zs Lsr (h ++ fresh) Fr ts1 ns1 (calls ++ [c]) Nr E1)
        as (outs & h' & calls' & Ls' & R & O & N & D & C & Of).
      exists outs, h', (c :: calls'), Ls'.
      assert (Hin : forall x, x ∈ concat Lsr -> x ∈ l :: concat Ls \/ length h <= x).
      { intros x Hx. destruct (Dr x Hx); [left; right; by apply Hsub|by right]. }
      split.
      { destruct r; try discriminate; rewrite bind_unfold; cbn [get_heap st_heap];
          rewrite Easl, R; by rewrite <- app_assoc. }
      split; [done|]. split; [done|].
      split; [eapply drawn_from_weaken; [exact D|exact Hin|rewrite length_app; lia]|].
      split; [|by constructor].
      eapply changes_within_trans; [apply (changes_within_alloc [])|exact C|].
      intros x Hx [Hx'|Hx']; [by apply elem_of_nil in Hx'|].
      destruct (Hin x Hx'); [done|lia].
Qed.

Lemma walk_items_refines ts :
  forall vs Ls h, Forall3 (own h) ts vs Ls ->
  forall ts' ns calls,
    NoDup (concat Ls) ->
    spec_walk_items jrec ja ts = Some (ts', ns) ->
    exists outs h' calls' Ls',
      walk_items rec act format meta vs (mkState h calls)
        = (Ok outs, mkState h' (calls ++ calls')) /\
      Forall3 (own h') ts' outs Ls' /\ NoDup (concat Ls') /\
      drawn_from (concat Ls) (length h) (concat Ls') /\
      changes_within (concat Ls) h h' /\
      Forall2 (fun c n => offers (c_heap c) format meta c n) calls' ns.
Proof.
  induction ts as [|t ts IH]; intros vs Ls h F ts' ns calls Hnd E.
  - inversion F; subst. injection E as <- <-. exists [], h, [], [].
    rewrite app_nil_r. repeat split; try constructor; done.
  - apply Forall3_cons_inv_l in F as (z & zs' & L & Ls' & -> & -> & Ho & F).
    cbn [spec_walk_items] in E.
    destruct (spec_walk_item jrec ja t) as [[o1 ns1]|] eqn:E1; [|discriminate].
    destruct (spec_walk_items jrec ja ts) as [[o2 ns2]|] eqn:E2; [|discriminate].
    injection E as <- <-. cbn [concat] in Hnd.
    apply NoDup_app_l_r in Hnd as (HndL & HndLs & Hdis & Hdis').
    destruct (walk_item_refines t z L h o1 ns1 calls Ho HndL E1)
      as (outs1 & h1 & c1 & Ls1 & R1 & O1 & N1 & D1 & C1 & Of1).
    assert (F1 : Forall3 (own h1) ts zs' Ls') by (eapply owns_within; eauto).
    destruct (IH zs' Ls' h1 F1 o2 ns2 (calls ++ c1) HndLs eq_refl)
      as (outs2 & h2 & c2 & Ls2 & R2 & O2 & N2 & D2 & C2 & Of2).
    assert (Hold : forall l, l ∈ concat Ls' -> l < length h) by (by eapply owns_bound).
    assert (HL1 : forall l, l ∈ concat Ls1 -> l ∉ concat Ls').
    { eapply drawn_fresh; [exact D1|exact Hold|exact Hdis]. }
    exists (outs1 ++ outs2), h2, (c1 ++ c2), (Ls1 ++ Ls2). cbn [walk_items].
    erewrite bind_ok; [|exact R1]. erewrite bind_ok; [|exact R2].
    split; [by rewrite app_assoc|].
    split; [apply Forall3_app; [eapply owns_within; [exact O1|exact C2|exact HL1]|done]|].
    rewrite concat_app. cbn [concat].
    split; [eapply NoDup_drawn_app; [done|done|exact D2| |done];
            intros l Hl; exact (owns_bound _ _ _ _ O1 l Hl)|].
    split; [eapply drawn_from_app; [done|done|apply C1]|].
    split; [|by apply Forall2_app].
    eapply changes_within_trans; [exact C1|exact C2|].
    intros l _ [?|?]; apply elem_of_app; auto.
Qed.

Lemma walk_keys_refines l fs :
  forall (kvs pre : list (string * pyval)) Ls h,
    Forall3 (fun f kv L => f.1 = kv.1 /\ own h f.2 kv.2 L) fs kvs Ls ->
    forall fs' ns calls,
      h !! l = Some (ODict (pre ++ kvs)) ->
      NoDup ((pre ++ kvs).*1) ->
      NoDup (l :: concat Ls) ->
      spec_walk_fields jrec fs = Some (fs', ns) ->
      exists kvs' h' calls' Ls',
        walk_keys rec (VRef l) (kvs.*1) (mkState h calls)
          = (Ok tt, mkState h' (calls ++ calls')) /\
        h' !! l = Some (ODict (pre ++ kvs')) /\
        kvs'.*1 = kvs.*1 /\
        Forall3 (fun f kv L => f.1 = kv.1 /\ own h' f.2 kv.2 L) fs' kvs' Ls' /\
        NoDup (concat Ls') /\
        drawn_from (concat Ls) (length h) (concat Ls') /\
        changes_within (l :: concat Ls) h h' /\
        Forall2 (fun c n => offers (c_heap c) format meta c n) calls' ns.
Proof.
  induction fs as [|f fs IH]; intros kvs pre Ls h F fs' ns calls El Hk Hnd E.
  - inversion F; subst. injection E as <- <-. exists [], h, [], [].
    rewrite app_nil_r. split; [done|]. split; [done|]. split; [done|].
    split; [constructor|]. split; [constructor|].
    split; [by intros x ?%elem_of_nil|].
    split; [apply changes_within_refl|constructor].
  - apply Forall3_cons_inv_l in F as ([k v] & kvs1 & L & Ls1 & -> & -> & [Ek Ho] & F).
    cbn [fst snd] in Ek, Ho. cbn [spec_walk_fields] in E.
    destruct (jrec f.2) as [[t1 ns1]|] eqn:E1; [|discriminate].
    destruct (spec_walk_fields jrec fs) as [[fs2 ns2]|] eqn:E2; [|discriminate].
    injection E as <- <-. cbn [concat] in Hnd.
    apply NoDup_cons in Hnd as [Hl Hnd].
    apply NoDup_app_l_r in Hnd as (HndL & HndLs & Hdis & Hdis').
    assert (HlL : l ∉ L) by (intros ?; apply Hl, elem_of_app; by left).
    assert (HlLs : l ∉ concat Ls1) by (intros ?; apply Hl, elem_of_app; by right).
    assert (Hkpre : k ∉ pre.*1).
    { rewrite fmap_app, fmap_cons in Hk. apply NoDup_app in Hk as (_ & Hk & _).
      intros Hin. apply (Hk k Hin). by left. }
    assert (Hlh : l < length h) by (by apply lookup_lt_Some in El).
    (* the value is read *)
    rewrite fmap_cons. cbn [fst walk_keys].
    erewrite bind_ok; [|eapply dict_getitem_ok; [cbn [as_dict]; by rewrite El|
                        by apply dict_lookup_middle]].
    (* and walked *)
    destruct (Hrec f.2 t1 ns1 E1 h calls v L Ho HndL)
      as (v1 & h1 & c1 & L1 & R1 & O1 & N1 & D1 & C1 & Of1).
    erewrite bind_ok; [|exact R1].
    assert (El1 : h1 !! l = Some (ODict (pre ++ (k, v) :: kvs1))).
    { rewrite (proj2 C1) by done. exact El. }
    (* the result is stored *)
    rewrite bind_unfold. unfold dict_setitem at 1. cbn [st_heap st_calls]. rewrite El1.
    rewrite dict_store_middle by done.
    set (h2 := <[l := ODict (pre ++ (k, v1) :: kvs1)]> h1).
    assert (C12 : changes_within [l] h1 h2).
    { apply changes_within_insert. by left. }
    assert (Hold : forall x, x ∈ concat Ls1 -> x < length h) by (by eapply fields_bound).
    assert (HL1 : forall x, x ∈ L1 -> x ∉ concat Ls1).
    { eapply drawn_fresh; [exact D1|exact Hold|exact Hdis]. }
    assert (HlL1 : l ∉ L1).
    { intros Hin. destruct (D1 l Hin); [done|lia]. }
    assert (F2 : Forall3 (fun f kv L => f.1 = kv.1 /\ own h2 f.2 kv.2 L) fs kvs1 Ls1).
    { eapply fields_within; [eapply fields_within; [exact F|exact C1|done]|exact C12|].
      intros x Hx ->%list_elem_of_singleton. done. }
    destruct (IH kvs1 (pre ++ [(k, v1)]) Ls1 h2 F2 fs2 ns2 (calls ++ c1))
      as (kvs2 & h3 & c2 & Ls2 & R2 & El3 & Ek2 & O2 & N2 & D2 & C2 & Of2).
    { unfold h2. rewrite <- app_assoc. apply list_lookup_insert_eq.
      apply lookup_lt_Some in El1. done. }
    { rewrite <- app_assoc. cbn [app]. by rewrite fmap_app, fmap_cons in *. }
    { by apply NoDup_cons. }
    { done. }
    exists ((k, v1) :: kvs2), h3, (c1 ++ c2), (L1 :: Ls2).
    rewrite R2. rewrite <- app_assoc in El3.
    split; [by rewrite app_assoc|]. split; [done|].
    split; [rewrite !fmap_cons; by f_equal|].
    assert (Hlen2 : length h2 = length h1) by (unfold h2; by rewrite length_insert).
    split.
    { constructor; [|done]. split; [done|]. cbn [snd].
      eapply own_within; [eapply own_within; [exact O1|exact C12|]|exact C2|].
      - intros x Hx ->%list_elem_of_singleton. done.
      - intros x Hx [->|Hin]%elem_of_cons; [done|]. by apply (HL1 x). }
    cbn [concat].
    split.
    { eapply NoDup_drawn_app; [done|done|exact D2| |done].
      intros x Hx. rewrite Hlen2. by eapply own_bound. }
    split.
    { eapply drawn_from_app; [done|done|]. rewrite Hlen2. apply C1. }
    split; [|by apply Forall2_app].
    eapply (changes_within_trans (l :: L) (l :: concat Ls1));
      [eapply (changes_within_trans L [l]); [exact C1|exact C12|]|exact C2|].
    + intros x _ [Hx|Hx%list_elem_of_singleton]; [by right|subst x; by left].
    + intros x _ [[->|Hx]%elem_of_cons|[->|Hx]%elem_of_cons].
      * by left.
      * right. apply elem_of_app. by left.
      * by left.
      * right. apply elem_of_app. by right.
Qed.
End refinement.

(** [walk] does to the objects what [spec_walk] does to the trees they
    stand for, provided no object is shared within the tree. *)
Lemma walk_refines act ja format meta :
  acts_as act ja format meta ->
  forall n, walks_as format meta (walk n act format meta) (spec_walk n ja).
Proof.
  intros Hact. induction n as [|n IH]; intros t t' ns E h calls v L Ho Hnd; [discriminate|].
  inversion Ho as [| | | |l vs ts Ls El F|l kvs fs Ls El Hk F]; subst.
  1-4: injection E as <- <-; eexists _, h, [], []; rewrite app_nil_r;
    (split; [reflexivity|]); (split; [constructor|]); (split; [constructor|]);
    (split; [by intros x ?%elem_of_nil|]); (split; [apply changes_within_refl|constructor]).
  - cbn [spec_walk] in E.
    destruct (spec_walk_items (spec_walk n ja) ja ts) as [[ts1 ns1]|] eqn:E1; [|discriminate].
    injection E as <- <-. apply NoDup_cons in Hnd as [Hl Hnd].
    destruct (walk_items_refines act ja format meta _ _ Hact IH ts vs Ls h F ts1 ns1 calls
                Hnd E1) as (outs & h1 & c1 & Ls1 & R1 & O1 & N1 & D1 & C1 & Of1).
    exists (VRef (length h1)), (h1 ++ [OList outs]), c1, (length h1 :: concat Ls1).
    rewrite (walk_unfold_list _ _ _ _ _ _ _ _ El). erewrite bind_ok; [|exact R1].
    split; [reflexivity|].
    split.
    { eapply own_list; [apply heap_lookup_fresh|].
      eapply owns_within; [exact O1|apply (changes_within_alloc [])|].
      by intros x _ ?%elem_of_nil. }
    split.
    { apply NoDup_cons. split; [|done]. intros Hin.
      apply (owns_bound _ _ _ _ O1) in Hin. lia. }
    split.
    { intros x [->|Hx]%elem_of_cons; [right; apply C1|].
      destruct (D1 x Hx); [left; by right|by right]. }
    split; [|done].
    eapply (changes_within_trans (concat Ls) []); [exact C1|apply changes_within_alloc|].
    intros x _ [Hx|Hx]; [by right|by apply elem_of_nil in Hx].
  - cbn [spec_walk] in E.
    destruct (spec_walk_fields (spec_walk n ja) fs) as [[fs1 ns1]|] eqn:E1; [|discriminate].
    injection E as <- <-.
    destruct (walk_keys_refines format meta _ _ IH l fs kvs [] Ls h F fs1 ns1 calls
                El Hk Hnd E1)
      as (kvs1 & h1 & c1 & Ls1 & R1 & El1 & Ek1 & O1 & N1 & D1 & C1 & Of1).
    cbn [app] in El1.
    exists (VRef l), h1, c1, (l :: concat Ls1).
    rewrite (walk_unfold_dict _ _ _ _ _ _ _ _ El). erewrite bind_ok; [|exact R1].
    split; [reflexivity|].
    split; [eapply own_dict; [exact El1|by rewrite Ek1|exact O1]|].
    apply NoDup_cons in Hnd as [Hl Hnd].
    split.
    { apply NoDup_cons. split; [|done]. intros Hin.
      destruct (D1 l Hin) as [?|Hge]; [done|]. apply lookup_lt_Some in El. lia. }
    split; [|done].
    intros x [->|Hx]%elem_of_cons; [left; by left|].
    destruct (D1 x Hx); [left; by right|by right].
Qed.



Lemma spec_walk_items_app rec ja xs ys :
  spec_walk_items rec ja (xs ++ ys) =
  match spec_walk_items rec ja xs, spec_walk_items rec ja ys with
  | Some (o1, n1), Some (o2, n2) => Some (o1 ++ o2, n1 ++ n2)
  | _, _ => None
  end.
Proof.
  induction xs as [|x xs IH]; cbn [app spec_walk_items].
  - by destruct (spec_walk_items rec ja ys) as [[o2 n2]|].
  - rewrite IH. destruct (spec_walk_item rec ja x) as [[o n]|]; [|done].
    destruct (spec_walk_items rec ja xs) as [[o1 n1]|]; [|done].
    destruct (spec_walk_items rec ja ys) as [[o2 n2]|]; [|done].
    by rewrite !app_assoc.
Qed.

Lemma spec_walk_each_spec rec trs :
  forall trs' ns, spec_walk_each rec trs = Some (trs', ns) ->
    Forall2 (fun t t' => exists m, rec t = Some (t', m)) trs trs'.
Proof.
  induction trs as [|t trs IH]; intros trs' ns E; cbn [spec_walk_each] in E.
  - injection E as <- <-. constructor.
  - destruct (rec t) as [[t1 n1]|] eqn:E1; [|discriminate].
    destruct (spec_walk_each rec trs) as [[ts2 n2]|] eqn:E2; [|discriminate].
    injection E as <- <-. constructor; eauto.
Qed.


(** ** Two actions *)

Lemma repr_is_str h t k lit :
  repr h t k -> is_str lit k = match t with JStr s => String.eqb s lit | _ => false end.
Proof. by inversion 1. Qed.

Lemma fresh_lookup (h fresh : list pyobj) i o :
  fresh !! i = Some o -> (h ++ fresh) !! (length h + i) = Some o.
Proof.
  intros E. rewrite lookup_app_r by lia. by replace (length h + i - length h) with i by lia.
Qed.

Lemma fresh_lookup_0 (h fresh : list pyobj) o :
  fresh !! 0 = Some o -> (h ++ fresh) !! length h = Some o.
Proof. intros E. rewrite <- (Nat.add_0_r (length h)). by apply fresh_lookup. Qed.

Lemma acts_as_code_to_emph format meta : acts_as code_to_emph code_to_emph_tree format meta.
Proof.
  intros h tag content k v L Hk _ _. unfold code_to_emph, code_to_emph_tree.
  rewrite (repr_is_str _ _ _ "Code" Hk). destruct tag as [| | |s| |]; try (by eexists _, _).
  destruct (String.eqb s "Code"); [|by eexists _, _].
  eexists _, _. split; [reflexivity|]. split; [done|].
  match goal with |- context [h ++ ?f] => set (fresh := f) end.
  eassert (E0 : (h ++ fresh) !! length h = Some _) by (apply fresh_lookup_0; reflexivity).
  eassert (E1 : (h ++ fresh) !! (length h + 1) = Some _) by (apply fresh_lookup; reflexivity).
  eassert (E2 : (h ++ fresh) !! (length h + 2) = Some _) by (apply fresh_lookup; reflexivity).
  split; [unfold as_list; by rewrite E2|].
  exists [length h + 2; length h + 1; length h].
  split.
  { apply (own_dict _ _ _ _ [[]; [length h + 1; length h]] E2).
    - apply (bool_decide_unpack _). vm_compute. reflexivity.
    - constructor; [split; [done|constructor]|].
      constructor; [|constructor]. split; [done|]. cbn [snd].
      apply (own_list _ _ _ _ [[length h]] E1).
      constructor; [|constructor].
      apply (own_dict _ _ _ _ [[]; []] E0).
      + apply (bool_decide_unpack _). vm_compute. reflexivity.
      + repeat constructor. }
  split.
  - cbn [concat app]. repeat (apply NoDup_cons; split; [rewrite ?elem_of_cons, elem_of_nil; lia|]).
    constructor.
  - intros x Hx. right. cbn [concat app] in Hx.
    rewrite !elem_of_cons, elem_of_nil in Hx. lia.
Qed.

Lemma acts_as_para_to_code format meta : acts_as para_to_code para_to_code_tree format meta.
Proof.
  intros h tag content k v L Hk _ _. unfold para_to_code, para_to_code_tree.
  rewrite (repr_is_str _ _ _ "Para" Hk), (repr_is_str _ _ _ "Code" Hk).
  destruct tag as [| | |s| |]; try (by eexists _, _).
  destruct (String.eqb s "Para").
  - eexists _, _. split; [reflexivity|].
    match goal with |- context [h ++ ?f] => set (fresh := f) end.
    eassert (E0 : (h ++ fresh) !! length h = Some _) by (apply fresh_lookup_0; reflexivity).
    eassert (E1 : (h ++ fresh) !! (length h + 1) = Some _) by (apply fresh_lookup; reflexivity).
    eassert (E2 : (h ++ fresh) !! (length h + 2) = Some _) by (apply fresh_lookup; reflexivity).
    eassert (E3 : (h ++ fresh) !! (length h + 3) = Some _) by (apply fresh_lookup; reflexivity).
    eassert (E4 : (h ++ fresh) !! (length h + 4) = Some _) by (apply fresh_lookup; reflexivity).
    exists [VRef (length h + 2); VRef (length h + 3)],
           [[length h + 2; length h + 1; length h]; [length h + 3]].
    split; [unfold as_list; by rewrite E4|].
    split.
    { constructor; [|constructor; [|constructor]].
      - apply (own_dict _ _ _ _ [[]; [length h + 1; length h]] E2).
        + apply (bool_decide_unpack _). vm_compute. reflexivity.
        + constructor; [split; [done|constructor]|].
          constructor; [|constructor]. split; [done|]. cbn [snd].
          apply (own_list _ _ _ _ [[length h]] E1).
          constructor; [|constructor].
          apply (own_dict _ _ _ _ [[]; []] E0); [|repeat constructor].
          apply (bool_decide_unpack _). vm_compute. reflexivity.
      - apply (own_dict _ _ _ _ [[]] E3); [|repeat constructor].
        apply (bool_decide_unpack _). vm_compute. reflexivity. }
    split.
    + cbn [concat app].
      repeat (apply NoDup_cons; split; [rewrite ?elem_of_cons, elem_of_nil; lia|]).
      constructor.
    + intros x Hx. right. cbn [concat app] in Hx.
      rewrite !elem_of_cons, elem_of_nil in Hx. lia.
  - destruct (String.eqb s "Code"); [|by eexists _, _].
    eexists _, _. split; [reflexivity|]. split; [done|].
    match goal with |- context [h ++ ?f] => set (fresh := f) end.
    eassert (E0 : (h ++ fresh) !! length h = Some _) by (apply fresh_lookup_0; reflexivity).
    split; [unfold as_list; by rewrite E0|].
    exists [length h]. split.
    { apply (own_dict _ _ _ _ [[]; []] E0); [|repeat constructor].
      apply (bool_decide_unpack _). vm_compute. reflexivity. }
    split; [apply NoDup_singleton|].
    intros x ->%list_elem_of_singleton. by right.
Qed.


(** ** What is handed to the action *)





(** ** Splicing *)



